(** * Semi-dense depth map of LSD-SLAM: a shallow embedding of
    [lsd_slam/depth_estimation/depth_map.cc] and the properties of its
    per-pixel inverse-depth grid.

    Conventions of the embedding.

    - A C++ [float] is a rational number ([Q]): arithmetic is exact, there
      is no rounding, no NaN and no infinity.  Every statement below that
      involves a quotient either does not depend on the value of a division
      by zero or carries the hypothesis that the divisor is not zero.
    - A C++ [int] is an integer ([Z]); the counters of the grid stay far from
      the 32-bit limits (a validity counter is at most
      [VALIDITY_COUNTER_MAX + VALIDITY_COUNTER_MAX_VARIABLE]) and signed
      overflow, which is undefined in C++, is not modelled.
    - A buffer ([DepthMapPixelHypothesis*], [float*], [int*], [bool*]) is a
      list indexed by the flat index [x + y*width].
    - [threadReducer.reduce(f, yMin, yMax, stride)] runs [f] on consecutive
      row ranges that cover [yMin..yMax-1]; the row functions write only the
      cells of their own rows, so the reduction is embedded as the single
      call [f yMin yMax]. *)

From Stdlib Require Import ZArith QArith Qround Qminmax Lia Lqa Bool.
From stdpp Require Import base list numbers.

#[local] Open Scope Z_scope.

(** ** Numbers *)

(** [a < b] on floats, as a boolean. *)
Definition Qltb (a b : Q) : bool := if Qlt_le_dec a b then true else false.

(** Conversion of a [float] to [int]: C++ truncates toward zero. *)
Definition float_to_int (q : Q) : Z := Z.quot (Qnum q) (Zpos (Qden q)).

(** Conversion of a 32-bit unsigned value to [int], as the cast [(int)] does
    on the usual two's complement targets. *)
Definition uint_to_int (v : Z) : Z :=
  if Z.ltb (v mod 2 ^ 32) (2 ^ 31) then v mod 2 ^ 32 else v mod 2 ^ 32 - 2 ^ 32.

Definition Vec2 : Type := Q * Q.
Definition Vec3 : Type := Q * Q * Q.
(** A 3x3 matrix, by rows. *)
Definition Mat3 : Type := Vec3 * Vec3 * Vec3.

Definition dot3 (a b : Vec3) : Q :=
  let '(a0, a1, a2) := a in
  let '(b0, b1, b2) := b in
  (a0 * b0 + a1 * b1 + a2 * b2)%Q.

Definition mat_vec (m : Mat3) (v : Vec3) : Vec3 :=
  let '(r0, r1, r2) := m in (dot3 r0 v, dot3 r1 v, dot3 r2 v).

(** ** Buffers *)

(** [buf[i]]: reading outside the buffer is undefined in C++; the embedding
    then yields the default [d]. *)
Definition zget {A : Type} (d : A) (buf : list A) (i : Z) : A :=
  if Z.ltb i 0 then d else default d (buf !! Z.to_nat i).

(** [buf[i] = a]. *)
Definition zset {A : Type} (buf : list A) (i : Z) (a : A) : list A :=
  if Z.ltb i 0 then buf else <[Z.to_nat i := a]> buf.

(** [for (i = lo; i < hi; i++) st = body(st, i)]. *)
Definition for_range {St : Type} (lo hi : Z) (body : St -> Z -> St) (st : St) : St :=
  fold_left body (seqZ lo (hi - lo)) st.

(** ** Settings ([util/settings.h], not part of this source file)

    The tuning constants and the run-time switches that [depth_map.cc]
    reads.  Their values are unknown here: every definition takes them from
    a [Settings] value. *)
Record Settings : Type := {
  MIN_DEPTH : Q;
  MIN_ABS_GRAD_CREATE : Q;
  MIN_ABS_GRAD_DECREASE : Q;
  MIN_BLACKLIST : Z;
  VAL_SUM_MIN_FOR_CREATE : Z;
  VAL_SUM_MIN_FOR_KEEP : Z;
  VAL_SUM_MIN_FOR_UNBLACKLIST : Z;
  VALIDITY_COUNTER_MAX : Q;
  VALIDITY_COUNTER_MAX_VARIABLE : Q;
  VALIDITY_COUNTER_INC : Z;
  VALIDITY_COUNTER_DEC : Z;
  VALIDITY_COUNTER_INITIAL_OBSERVE : Z;
  MAX_VAR : Q;
  VAR_RANDOM_INIT_INITIAL : Q;
  SUCC_VAR_INC_FAC : Q;
  FAIL_VAR_INC_FAC : Q;
  STEREO_EPL_VAR_FAC : Q;
  DIFF_FAC_OBSERVE : Q;
  DIFF_FAC_PROP_MERGE : Q;
  DIFF_FAC_SMOOTHING : Q;
  REG_DIST_VAR : Q;
  MIN_EPL_LENGTH_CROP : Q;
  MAX_DIFF_CONSTANT : Q;
  MAX_DIFF_GRAD_MULT : Q;
  SE3TRACKING_MIN_LEVEL : Z;
  MAX_ERROR_STEREO : Q;
  MIN_DISTANCE_ERROR_STEREO : Q;
  REFERENCE_SAMPLE_DISTANCE : Q;
  DIVISION_EPS : Q;
  cameraPixelNoise2 : Q;
  UNZERO_EPS : Q;
  allowNegativeIdepths : bool;
  useSubpixelStereo : bool;
  enablePrintDebugInfo : bool
}.

(** ** The pixel hypothesis ([depth_map_pixel_hypothesis.h], not part of this
    source file) *)

(** Modelled from the spec: the fields of [DepthMapPixelHypothesis], which is
    declared in a header that is missing here.  The spec lists them with
    their types: a validity flag, the posterior inverse depth and its
    variance, their smoothed versions, the validity counter ([i32]), the
    blacklist counter ([i32]) and the 32-bit unsigned id of the first frame
    at which stereo is tried again. *)
Record DepthMapPixelHypothesis : Type := {
  isValid : bool;
  blacklisted : Z;
  nextStereoFrameMinID : Z;
  validity_counter : Z;
  idepth : Q;
  idepth_var : Q;
  idepth_smoothed : Q;
  idepth_var_smoothed : Q
}.

(** Modelled from the spec: the three-argument constructor
    [DepthMapPixelHypothesis(idepth, idepth_var, validity_counter)] of the
    missing header.  The spec says that it installs a valid hypothesis with
    the given inverse depth, variance and validity counter; the fields it
    does not mention are taken as those of a fresh cell (no blacklisting, no
    skipped frame, smoothed values not yet computed). *)
Definition newHypothesis (my_idepth my_idepth_var : Q) (my_validity_counter : Z)
  : DepthMapPixelHypothesis :=
  {| isValid := true;
     blacklisted := 0;
     nextStereoFrameMinID := 0;
     validity_counter := my_validity_counter;
     idepth := my_idepth;
     idepth_var := my_idepth_var;
     idepth_smoothed := -1;
     idepth_var_smoothed := -1 |}.

(** The cell read outside a buffer (see [zget]). *)
Definition noHypothesis : DepthMapPixelHypothesis :=
  {| isValid := false; blacklisted := 0; nextStereoFrameMinID := 0;
     validity_counter := 0; idepth := 0; idepth_var := 0;
     idepth_smoothed := 0; idepth_var_smoothed := 0 |}.

(** Field updates, one per assignment form of the source. *)
Definition set_isValid (b : bool) (h : DepthMapPixelHypothesis) :=
  {| isValid := b; blacklisted := blacklisted h;
     nextStereoFrameMinID := nextStereoFrameMinID h;
     validity_counter := validity_counter h; idepth := idepth h;
     idepth_var := idepth_var h; idepth_smoothed := idepth_smoothed h;
     idepth_var_smoothed := idepth_var_smoothed h |}.

Definition set_blacklisted (v : Z) (h : DepthMapPixelHypothesis) :=
  {| isValid := isValid h; blacklisted := v;
     nextStereoFrameMinID := nextStereoFrameMinID h;
     validity_counter := validity_counter h; idepth := idepth h;
     idepth_var := idepth_var h; idepth_smoothed := idepth_smoothed h;
     idepth_var_smoothed := idepth_var_smoothed h |}.

Definition set_nextStereoFrameMinID (v : Z) (h : DepthMapPixelHypothesis) :=
  {| isValid := isValid h; blacklisted := blacklisted h;
     nextStereoFrameMinID := v;
     validity_counter := validity_counter h; idepth := idepth h;
     idepth_var := idepth_var h; idepth_smoothed := idepth_smoothed h;
     idepth_var_smoothed := idepth_var_smoothed h |}.

Definition set_validity_counter (v : Z) (h : DepthMapPixelHypothesis) :=
  {| isValid := isValid h; blacklisted := blacklisted h;
     nextStereoFrameMinID := nextStereoFrameMinID h;
     validity_counter := v; idepth := idepth h;
     idepth_var := idepth_var h; idepth_smoothed := idepth_smoothed h;
     idepth_var_smoothed := idepth_var_smoothed h |}.

Definition set_idepth (v : Q) (h : DepthMapPixelHypothesis) :=
  {| isValid := isValid h; blacklisted := blacklisted h;
     nextStereoFrameMinID := nextStereoFrameMinID h;
     validity_counter := validity_counter h; idepth := v;
     idepth_var := idepth_var h; idepth_smoothed := idepth_smoothed h;
     idepth_var_smoothed := idepth_var_smoothed h |}.

Definition set_idepth_var (v : Q) (h : DepthMapPixelHypothesis) :=
  {| isValid := isValid h; blacklisted := blacklisted h;
     nextStereoFrameMinID := nextStereoFrameMinID h;
     validity_counter := validity_counter h; idepth := idepth h;
     idepth_var := v; idepth_smoothed := idepth_smoothed h;
     idepth_var_smoothed := idepth_var_smoothed h |}.

Definition set_idepth_smoothed (v : Q) (h : DepthMapPixelHypothesis) :=
  {| isValid := isValid h; blacklisted := blacklisted h;
     nextStereoFrameMinID := nextStereoFrameMinID h;
     validity_counter := validity_counter h; idepth := idepth h;
     idepth_var := idepth_var h; idepth_smoothed := v;
     idepth_var_smoothed := idepth_var_smoothed h |}.

Definition set_idepth_var_smoothed (v : Q) (h : DepthMapPixelHypothesis) :=
  {| isValid := isValid h; blacklisted := blacklisted h;
     nextStereoFrameMinID := nextStereoFrameMinID h;
     validity_counter := validity_counter h; idepth := idepth h;
     idepth_var := idepth_var h; idepth_smoothed := idepth_smoothed h;
     idepth_var_smoothed := v |}.

(** ** Frames ([model/frame.h], not part of this source file)

    What [depth_map.cc] reads from a frame.  A frame pointer is compared
    with [activeKeyFrame] in the source; frames carry a unique id, and the
    embedding compares ids. *)
Record Frame : Type := {
  frame_id : Z;
  (** id of the frame returned by [getTrackingParent()] *)
  trackingParent : Z;
  (** [refPixelWasGoodNoCreate()], [None] for the null pointer *)
  refPixelWasGoodNoCreate : option (list bool);
  (** [image(0)] and [maxGradients(0)] *)
  image : list Q;
  maxGradients : list Q;
  numFramesTrackedOnThis : Z;
  numMappedOnThis : Z;
  (** set by [prepareForStereoWith] *)
  otherToThis_R : Mat3;
  otherToThis_t : Vec3;
  initialTrackedResidual : Q;
  (** rotation and translation of
      [se3FromSim3(pose->thisToParent_raw).inverse()] *)
  oldToNew_R : Mat3;
  oldToNew_t : Vec3
}.

(** ** The depth map object *)
Record DepthMap : Type := {
  width : Z;
  height : Z;
  currentDepthMap : list DepthMapPixelHypothesis;
  otherDepthMap : list DepthMapPixelHypothesis;
  validityIntegralBuffer : list Z;
  activeKeyFrame : Frame;
  activeKeyFrameIsReactivated : bool;
  oldest_referenceFrame : Frame;
  newest_referenceFrame : Frame;
  referenceFrameByID : list Frame;
  referenceFrameByID_offset : Z;
  fx : Q; fy : Q; cx : Q; cy : Q;
  fxi : Q; fyi : Q; cxi : Q; cyi : Q;
  KInv : Mat3
}.

Definition set_currentDepthMap (g : list DepthMapPixelHypothesis) (dm : DepthMap) :=
  {| width := width dm; height := height dm;
     currentDepthMap := g; otherDepthMap := otherDepthMap dm;
     validityIntegralBuffer := validityIntegralBuffer dm;
     activeKeyFrame := activeKeyFrame dm;
     activeKeyFrameIsReactivated := activeKeyFrameIsReactivated dm;
     oldest_referenceFrame := oldest_referenceFrame dm;
     newest_referenceFrame := newest_referenceFrame dm;
     referenceFrameByID := referenceFrameByID dm;
     referenceFrameByID_offset := referenceFrameByID_offset dm;
     fx := fx dm; fy := fy dm; cx := cx dm; cy := cy dm;
     fxi := fxi dm; fyi := fyi dm; cxi := cxi dm; cyi := cyi dm;
     KInv := KInv dm |}.

Definition set_otherDepthMap (g : list DepthMapPixelHypothesis) (dm : DepthMap) :=
  {| width := width dm; height := height dm;
     currentDepthMap := currentDepthMap dm; otherDepthMap := g;
     validityIntegralBuffer := validityIntegralBuffer dm;
     activeKeyFrame := activeKeyFrame dm;
     activeKeyFrameIsReactivated := activeKeyFrameIsReactivated dm;
     oldest_referenceFrame := oldest_referenceFrame dm;
     newest_referenceFrame := newest_referenceFrame dm;
     referenceFrameByID := referenceFrameByID dm;
     referenceFrameByID_offset := referenceFrameByID_offset dm;
     fx := fx dm; fy := fy dm; cx := cx dm; cy := cy dm;
     fxi := fxi dm; fyi := fyi dm; cxi := cxi dm; cyi := cyi dm;
     KInv := KInv dm |}.

Definition set_validityIntegralBuffer (b : list Z) (dm : DepthMap) :=
  {| width := width dm; height := height dm;
     currentDepthMap := currentDepthMap dm; otherDepthMap := otherDepthMap dm;
     validityIntegralBuffer := b;
     activeKeyFrame := activeKeyFrame dm;
     activeKeyFrameIsReactivated := activeKeyFrameIsReactivated dm;
     oldest_referenceFrame := oldest_referenceFrame dm;
     newest_referenceFrame := newest_referenceFrame dm;
     referenceFrameByID := referenceFrameByID dm;
     referenceFrameByID_offset := referenceFrameByID_offset dm;
     fx := fx dm; fy := fy dm; cx := cx dm; cy := cy dm;
     fxi := fxi dm; fyi := fyi dm; cxi := cxi dm; cyi := cyi dm;
     KInv := KInv dm |}.

Definition set_activeKeyFrame (f : Frame) (dm : DepthMap) :=
  {| width := width dm; height := height dm;
     currentDepthMap := currentDepthMap dm; otherDepthMap := otherDepthMap dm;
     validityIntegralBuffer := validityIntegralBuffer dm;
     activeKeyFrame := f;
     activeKeyFrameIsReactivated := false;
     oldest_referenceFrame := oldest_referenceFrame dm;
     newest_referenceFrame := newest_referenceFrame dm;
     referenceFrameByID := referenceFrameByID dm;
     referenceFrameByID_offset := referenceFrameByID_offset dm;
     fx := fx dm; fy := fy dm; cx := cx dm; cy := cy dm;
     fxi := fxi dm; fyi := fyi dm; cxi := cxi dm; cyi := cyi dm;
     KInv := KInv dm |}.


(** The depth map object without its three buffers: what the stereo search
    is given, since [doLineStereo] and [makeAndCheckEPL] read the image
    size, the camera intrinsics and the active key frame, and none of the
    grids. *)
Definition withoutBuffers (dm : DepthMap) : DepthMap :=
  set_validityIntegralBuffer [] (set_otherDepthMap [] (set_currentDepthMap [] dm)).
(** ** Epipolar stereo: data exchanged inside [doLineStereo] *)

(** The values [doLineStereo] holds when its scan of the epipolar segment
    ends (just before the test "if error too big"). *)
Record EplScan : Type := {
  key_epipolar_direction : Vec2;
  KinvP : Vec3;
  key_sample_distance : Q;
  ref_search_step : Vec2;
  eplLength : Q;
  key_intensities : list Q;
  argmin_point_ref : Vec2;
  min_error : Q;
  second_min_error : Q;
  prev_error : Q;
  next_error : Q;
  prev_diff : Q;
  next_diff : Q;
  curr_argmin : Z;
  second_argmin : Z
}.

Inductive SearchOutcome : Type :=
| SearchRejected (code : Q)
| SearchDone (s : EplScan).

(** The match after the sub-pixel step and the last residual test. *)
Record RefinedMatch : Type := {
  refined_error : Q;
  refined_point_ref : Vec2;
  interpolated : bool;
  gradAlongLine : Q
}.

(** The returned float and the three reference parameters of
    [doLineStereo]. *)
Record StereoResult : Type := {
  error : Q;
  result_idepth : Q;
  result_var : Q;
  result_eplLength : Q
}.

Fixpoint calc_grad_along_line_loop (intensities : list Q) (grad_along_line : Q) : Q :=
  match intensities with
  | a :: ((b :: _) as rest) =>
      calc_grad_along_line_loop rest (grad_along_line + (b - a) * (b - a))%Q
  | _ => grad_along_line
  end.

Definition calc_grad_along_line (intensities : list Q) (interval : Q) : Q :=
  (calc_grad_along_line_loop intensities 0 / (interval * interval))%Q.


(** ** Example data

    A 10x10 depth map with four valid cells, a reference frame one unit to
    the side of the key frame, and three candidate new key frames.  The
    camera has focal length 2 and principal point (4, 4). *)

(** The constants of the examples. *)
Definition exampleSettings : Settings :=
  {| MIN_DEPTH := 5 # 100;
     MIN_ABS_GRAD_CREATE := 5;
     MIN_ABS_GRAD_DECREASE := 5;
     MIN_BLACKLIST := -1;
     VAL_SUM_MIN_FOR_CREATE := 30;
     VAL_SUM_MIN_FOR_KEEP := 24;
     VAL_SUM_MIN_FOR_UNBLACKLIST := 100;
     VALIDITY_COUNTER_MAX := 5;
     VALIDITY_COUNTER_MAX_VARIABLE := 250;
     VALIDITY_COUNTER_INC := 5;
     VALIDITY_COUNTER_DEC := 5;
     VALIDITY_COUNTER_INITIAL_OBSERVE := 5;
     MAX_VAR := 25 # 100;
     VAR_RANDOM_INIT_INITIAL := 125 # 1000;
     SUCC_VAR_INC_FAC := 101 # 100;
     FAIL_VAR_INC_FAC := 11 # 10;
     STEREO_EPL_VAR_FAC := 2;
     DIFF_FAC_OBSERVE := 1;
     DIFF_FAC_PROP_MERGE := 1;
     DIFF_FAC_SMOOTHING := 1;
     REG_DIST_VAR := 5625 # 1000000;
     MIN_EPL_LENGTH_CROP := 3;
     MAX_DIFF_CONSTANT := 1600;
     MAX_DIFF_GRAD_MULT := 25 # 100;
     SE3TRACKING_MIN_LEVEL := 1;
     MAX_ERROR_STEREO := 1300;
     MIN_DISTANCE_ERROR_STEREO := 15 # 10;
     REFERENCE_SAMPLE_DISTANCE := 1;
     DIVISION_EPS := 1 # 10000000000;
     cameraPixelNoise2 := 16;
     UNZERO_EPS := 1 # 10000000000;
     allowNegativeIdepths := true;
     useSubpixelStereo := true;
     enablePrintDebugInfo := false |}.

(** The same constants with negative inverse depths switched off. *)
Definition exampleSettingsPositive : Settings :=
  {| MIN_DEPTH := 5 # 100;
     MIN_ABS_GRAD_CREATE := 5;
     MIN_ABS_GRAD_DECREASE := 5;
     MIN_BLACKLIST := -1;
     VAL_SUM_MIN_FOR_CREATE := 30;
     VAL_SUM_MIN_FOR_KEEP := 24;
     VAL_SUM_MIN_FOR_UNBLACKLIST := 100;
     VALIDITY_COUNTER_MAX := 5;
     VALIDITY_COUNTER_MAX_VARIABLE := 250;
     VALIDITY_COUNTER_INC := 5;
     VALIDITY_COUNTER_DEC := 5;
     VALIDITY_COUNTER_INITIAL_OBSERVE := 5;
     MAX_VAR := 25 # 100;
     VAR_RANDOM_INIT_INITIAL := 125 # 1000;
     SUCC_VAR_INC_FAC := 101 # 100;
     FAIL_VAR_INC_FAC := 11 # 10;
     STEREO_EPL_VAR_FAC := 2;
     DIFF_FAC_OBSERVE := 1;
     DIFF_FAC_PROP_MERGE := 1;
     DIFF_FAC_SMOOTHING := 1;
     REG_DIST_VAR := 5625 # 1000000;
     MIN_EPL_LENGTH_CROP := 3;
     MAX_DIFF_CONSTANT := 1600;
     MAX_DIFF_GRAD_MULT := 25 # 100;
     SE3TRACKING_MIN_LEVEL := 1;
     MAX_ERROR_STEREO := 1300;
     MIN_DISTANCE_ERROR_STEREO := 15 # 10;
     REFERENCE_SAMPLE_DISTANCE := 1;
     DIVISION_EPS := 1 # 10000000000;
     cameraPixelNoise2 := 16;
     UNZERO_EPS := 1 # 10000000000;
     allowNegativeIdepths := false;
     useSubpixelStereo := true;
     enablePrintDebugInfo := false |}.

Definition identityMatrix : Mat3 :=
  ((1, 0, 0), (0, 1, 0), (0, 0, 1))%Q.

(** A stand-in for [sqrtf] in the examples: the integer square root. *)
Definition exampleSqrt (q : Q) : Q := inject_Z (Z.sqrt (Qfloor q)).

(** A stand-in for the image interpolation in the examples: the pixel the
    point rounds to. *)
Definition exampleInterpolate (img : list Q) (p : Vec2) (w : Z) : Q :=
  zget 0%Q img (float_to_int (fst p + (5 # 10)) + float_to_int (snd p + (5 # 10)) * w).

(** A stand-in for the gradient interpolation in the examples: a gradient
    of 10 along x everywhere. *)
Definition exampleGradient (f : Frame) (p : Vec2) (w : Z) : Vec2 := (10, 0)%Q.

(** The key frame of the examples: id 0, max-gradient 50 everywhere. *)
Definition exampleKeyFrame : Frame :=
  {| frame_id := 0;
     trackingParent := 0;
     refPixelWasGoodNoCreate := None;
     image := replicate 100 100%Q;
     maxGradients := replicate 100 50%Q;
     numFramesTrackedOnThis := 0;
     numMappedOnThis := 0;
     otherToThis_R := identityMatrix;
     otherToThis_t := (0, 0, 0)%Q;
     initialTrackedResidual := 0;
     oldToNew_R := identityMatrix;
     oldToNew_t := (0, 0, 0)%Q |}.

(** The reference frame of the examples: id 1, tracked on the key frame,
    one unit to its side. *)
Definition exampleReferenceFrame : Frame :=
  {| frame_id := 1;
     trackingParent := 0;
     refPixelWasGoodNoCreate := None;
     image := replicate 100 100%Q;
     maxGradients := replicate 100 50%Q;
     numFramesTrackedOnThis := 0;
     numMappedOnThis := 0;
     otherToThis_R := identityMatrix;
     otherToThis_t := (1, 0, 0)%Q;
     initialTrackedResidual := 0;
     oldToNew_R := identityMatrix;
     oldToNew_t := (0, 0, 0)%Q |}.

(** A new key frame at the pose of the old one, with texture (max-gradient
    50) at the pixels (5,4), (6,4), (5,5), (6,5) only. *)
Definition exampleSameKeyFrame : Frame :=
  {| frame_id := 2;
     trackingParent := 0;
     refPixelWasGoodNoCreate := Some (replicate 25 true);
     image := replicate 100 100%Q;
     maxGradients :=
       zset (zset (zset (zset (replicate 100 0%Q) 45 50%Q) 46 50%Q) 55 50%Q) 56 50%Q;
     numFramesTrackedOnThis := 0;
     numMappedOnThis := 0;
     otherToThis_R := identityMatrix;
     otherToThis_t := (0, 0, 0)%Q;
     initialTrackedResidual := 0;
     oldToNew_R := identityMatrix;
     oldToNew_t := (0, 0, 0)%Q |}.

(** A new key frame two units ahead of the old one along the optical axis:
    the points of depth 2 of the old key frame lie behind it. *)
Definition exampleAheadKeyFrame : Frame :=
  {| frame_id := 2;
     trackingParent := 0;
     refPixelWasGoodNoCreate := Some (replicate 25 true);
     image := replicate 100 100%Q;
     maxGradients := replicate 100 50%Q;
     numFramesTrackedOnThis := 0;
     numMappedOnThis := 0;
     otherToThis_R := identityMatrix;
     otherToThis_t := (0, 0, 0)%Q;
     initialTrackedResidual := 0;
     oldToNew_R := identityMatrix;
     oldToNew_t := (0, 0, -4)%Q |}.

(** A new key frame ten units to the side of the old one. *)
Definition exampleSideKeyFrame : Frame :=
  {| frame_id := 2;
     trackingParent := 0;
     refPixelWasGoodNoCreate := Some (replicate 25 true);
     image := replicate 100 100%Q;
     maxGradients := replicate 100 50%Q;
     numFramesTrackedOnThis := 0;
     numMappedOnThis := 0;
     otherToThis_R := identityMatrix;
     otherToThis_t := (0, 0, 0)%Q;
     initialTrackedResidual := 0;
     oldToNew_R := identityMatrix;
     oldToNew_t := (10, 0, 0)%Q |}.

(** A valid cell of the examples: inverse depth 1/2, variance 1/10,
    validity counter 20, smoothed values equal to the posterior ones. *)
Definition exampleCell : DepthMapPixelHypothesis :=
  {| isValid := true;
     blacklisted := 0;
     nextStereoFrameMinID := 0;
     validity_counter := 20;
     idepth := 1 # 2;
     idepth_var := 1 # 10;
     idepth_smoothed := 1 # 2;
     idepth_var_smoothed := 1 # 10 |}.

(** The grid of the examples: valid cells at (5,4), (6,4), (5,5), (6,5). *)
Definition exampleGrid : list DepthMapPixelHypothesis :=
  zset (zset (zset (zset (replicate 100 noHypothesis) 45 exampleCell) 46 exampleCell)
          55 exampleCell) 56 exampleCell.

Definition exampleDepthMap : DepthMap :=
  {| width := 10;
     height := 10;
     currentDepthMap := exampleGrid;
     otherDepthMap := replicate 100 noHypothesis;
     validityIntegralBuffer := replicate 100 0;
     activeKeyFrame := exampleKeyFrame;
     activeKeyFrameIsReactivated := false;
     oldest_referenceFrame := exampleReferenceFrame;
     newest_referenceFrame := exampleReferenceFrame;
     referenceFrameByID := [exampleReferenceFrame];
     referenceFrameByID_offset := 1;
     fx := 2; fy := 2; cx := 4; cy := 4;
     fxi := 1 # 2; fyi := 1 # 2; cxi := -2; cyi := -2;
     KInv := ((1 # 2, 0, -2), (0, 1 # 2, -2), (0, 0, 1))%Q |}.

(** The end of a scan for the key-frame pixel (5, 4): best sample at the
    reference pixel [(u, 4)], no neighbour to interpolate with, a clear
    winner when [second] is 4, an unclear one when it is far from the best
    index 3. *)
Definition exampleScanAt (u : Q) (second : Z) (second_error : Q) : EplScan :=
  {| key_epipolar_direction := (1, 0)%Q;
     KinvP := (1 # 2, 0, 1)%Q;
     key_sample_distance := 1;
     ref_search_step := (1, 0)%Q;
     eplLength := 100015 # 100000;
     key_intensities := [10; 20; 30; 40; 50]%Q;
     argmin_point_ref := (u, 4)%Q;
     min_error := 10;
     second_min_error := second_error;
     prev_error := 20;
     next_error := 20;
     prev_diff := 0;
     next_diff := 0;
     curr_argmin := 3;
     second_argmin := second |}.

(** A search that ends on a match of inverse depth 1/2. *)
Definition exampleSearch (dm : DepthMap) (coord : Z * Z) (min_idepth prior max_idepth : Q)
  (f : Frame) : SearchOutcome :=
  SearchDone (exampleScanAt 6 4 1000).

(** A search that ends without a clear winner. *)
Definition exampleSearchUnclear (dm : DepthMap) (coord : Z * Z)
  (min_idepth prior max_idepth : Q) (f : Frame) : SearchOutcome :=
  SearchDone (exampleScanAt 6 9 11).

(** A search that ends on a match of negative inverse depth. *)
Definition exampleSearchNegative (dm : DepthMap) (coord : Z * Z)
  (min_idepth prior max_idepth : Q) (f : Frame) : SearchOutcome :=
  SearchDone (exampleScanAt 4 4 1000).

(** The refined match of the scan [exampleScanAt u ...]: the best sample
    itself, not interpolated. *)
Definition exampleMatchAt (u : Q) : RefinedMatch :=
  {| refined_error := 10;
     refined_point_ref := (u, 4)%Q;
     interpolated := false;
     gradAlongLine := calc_grad_along_line [10; 20; 30; 40; 50]%Q 1 |}.

(** The pixel that the examples observe. *)
Definition examplePixel : Z * Z := (5, 4).

(** The content of the result variables before a stereo call. *)
Definition exampleOut : Q * Q * Q := (0, 0, 0)%Q.

(** A key frame without texture: max-gradient 0 everywhere. *)
Definition exampleFlatKeyFrame : Frame :=
  {| frame_id := 0;
     trackingParent := 0;
     refPixelWasGoodNoCreate := None;
     image := replicate 100 100%Q;
     maxGradients := replicate 100 0%Q;
     numFramesTrackedOnThis := 0;
     numMappedOnThis := 0;
     otherToThis_R := identityMatrix;
     otherToThis_t := (0, 0, 0)%Q;
     initialTrackedResidual := 0;
     oldToNew_R := identityMatrix;
     oldToNew_t := (0, 0, 0)%Q |}.

(** The example depth map on the key frame without texture. *)
Definition exampleFlatDepthMap : DepthMap :=
  set_activeKeyFrame exampleFlatKeyFrame exampleDepthMap.

(** A valid cell much nearer than [exampleCell]: inverse depth 2. *)
Definition exampleNearCell : DepthMapPixelHypothesis :=
  {| isValid := true;
     blacklisted := 0;
     nextStereoFrameMinID := 0;
     validity_counter := 30;
     idepth := 2;
     idepth_var := 1 # 10;
     idepth_smoothed := 2;
     idepth_var_smoothed := 1 # 10 |}.

(** A later reference frame: id 3. *)
Definition exampleLaterFrame : Frame :=
  {| frame_id := 3;
     trackingParent := 0;
     refPixelWasGoodNoCreate := None;
     image := replicate 100 100%Q;
     maxGradients := replicate 100 50%Q;
     numFramesTrackedOnThis := 0;
     numMappedOnThis := 0;
     otherToThis_R := identityMatrix;
     otherToThis_t := (1, 0, 0)%Q;
     initialTrackedResidual := 0;
     oldToNew_R := identityMatrix;
     oldToNew_t := (0, 0, 0)%Q |}.

(** The end of a scan whose error has its minimum a quarter of a step before
    the best sample: the error gradients change sign between the previous
    sample and the best one. *)
Definition exampleScanSubpixel : EplScan :=
  {| key_epipolar_direction := (1, 0)%Q;
     KinvP := (1 # 2, 0, 1)%Q;
     key_sample_distance := 1;
     ref_search_step := (1, 0)%Q;
     eplLength := 100015 # 100000;
     key_intensities := [10; 20; 30; 40; 50]%Q;
     argmin_point_ref := (6, 4)%Q;
     min_error := 10;
     second_min_error := 1000;
     prev_error := 20;
     next_error := 20;
     prev_diff := 5;
     next_diff := 12;
     curr_argmin := 3;
     second_argmin := 4 |}.

(** A valid cell behind the camera, the mirror image of [exampleNearCell]:
    inverse depth -2. *)
Definition exampleNegativeCell : DepthMapPixelHypothesis :=
  {| isValid := true;
     blacklisted := 0;
     nextStereoFrameMinID := 0;
     validity_counter := 30;
     idepth := - (2);
     idepth_var := 1 # 10;
     idepth_smoothed := - (2);
     idepth_var_smoothed := 1 # 10 |}.

(** A depth map with two valid cells of opposite inverse depth on either
    side of the pixel (4, 4): (3, 4) and (5, 4). *)
Definition exampleMixedDepthMap : DepthMap :=
  set_currentDepthMap
    (zset (zset (replicate 100 noHypothesis) 43 exampleNegativeCell) 45 exampleNearCell)
    exampleDepthMap.


Section DepthMapCore.

Set Default Proof Using "Type".

(** The settings in force. *)
Context (cfg : Settings).

(** [sqrtf] of the C library. *)
Variable sqrtf : Q -> Q.

(** [getInterpolatedElement(image, point, width)] of [util/global_funcs.h]
    (bilinear interpolation), which is not part of this source file. *)
Variable getInterpolatedElement : list Q -> Vec2 -> Z -> Q.

(** [getInterpolatedElement42(frame->gradients(0), point, width)]: the
    interpolated image gradient of a frame, same header. *)
Variable getInterpolatedElement42 : Frame -> Vec2 -> Z -> Vec2.

(** The first part of [doLineStereo]: [makeAndCheckEPL], the construction of
    the search segment in the reference image and the scan of the segment.
    It either rejects (codes -5, -1, -4) or ends with an [EplScan].  It is
    built on the projection and interpolation helpers of [projection.h] and
    [util/global_funcs.h], which are not part of this source file, and is
    taken as given; the arguments are the object (without its buffers, see
    [withoutBuffers]) and the arguments of [doLineStereo]. *)
Variable epipolarLineSearch :
  DepthMap -> Z * Z -> Q -> Q -> Q -> Frame -> SearchOutcome.

(** The content of a [float] local that was declared without initialiser. *)
Variable uninitialized : Q.

(** Modelled from the spec: the macro [UNZERO] of [util/settings.h], which is
    not part of this source file.  The spec describes it as the clamp that
    lifts the magnitude of a value to at least a small epsilon and keeps its
    sign; zero is lifted to the positive epsilon. *)
Definition UNZERO (val : Q) : Q :=
  if Qltb val 0
  then (if Qltb (- UNZERO_EPS cfg) val then (- UNZERO_EPS cfg)%Q else val)
  else (if Qltb val (UNZERO_EPS cfg) then UNZERO_EPS cfg else val).

Definition calc_geometric_disparity_error
  (interpolated_gradient epipolar_direction : Vec2) (initialTrackedResidual : Q) : Q :=
  let trackingErrorFac := ((25 # 100) * (1 + initialTrackedResidual))%Q in
  let p := (fst epipolar_direction * fst interpolated_gradient
            + snd epipolar_direction * snd interpolated_gradient
            + DIVISION_EPS cfg)%Q in
  let n := (fst interpolated_gradient * fst interpolated_gradient
            + snd interpolated_gradient * snd interpolated_gradient)%Q in
  (trackingErrorFac * trackingErrorFac * n / (p * p))%Q.

(** *** [doLineStereo], from the end of the scan on *)

Definition stereoFailed (code : Q) (out0 : Q * Q * Q) : StereoResult :=
  {| error := code;
     result_idepth := fst (fst out0);
     result_var := snd (fst out0);
     result_eplLength := snd out0 |}.

(** Which side of the best sample is interpolated:
    [(interpolate_prev, interpolate_next)]. *)
Definition subpixelSide (s : EplScan) : bool * bool :=
  let grad_prev_prev := (- (prev_error s - prev_diff s))%Q in
  let grad_prev_curr := (min_error s - prev_diff s)%Q in
  let grad_next_curr := (- (min_error s - next_diff s))%Q in
  let grad_next_next := (next_error s - next_diff s)%Q in
  if enablePrintDebugInfo cfg && (Qltb (prev_error s) 0 || Qltb (next_error s) 0)
  then (false, false)
  else if xorb (Qltb grad_next_curr 0) (Qltb grad_prev_curr 0)
  then (false, false)
  else if xorb (Qltb grad_prev_prev 0) (Qltb grad_prev_curr 0)
  then (if xorb (Qltb grad_next_next 0) (Qltb grad_next_curr 0)
        then (false, false) else (true, false))
  else if xorb (Qltb grad_next_next 0) (Qltb grad_next_curr 0)
  then (false, true)
  else (false, false).

(** The tests on the scan result and the sub-pixel step: a rejection code
    or the refined match. *)
Definition refineMatch (s : EplScan) : Q + RefinedMatch :=
  if Qltb (4 * MAX_ERROR_STEREO cfg) (min_error s) then inl (-3)%Q
  else if Z.ltb 1 (Z.abs (curr_argmin s - second_argmin s))
          && Qltb (second_min_error s) (MIN_DISTANCE_ERROR_STEREO cfg * min_error s)
  then inl (-2)%Q
  else
    let grad_prev_prev := (- (prev_error s - prev_diff s))%Q in
    let grad_prev_curr := (min_error s - prev_diff s)%Q in
    let grad_next_curr := (- (min_error s - next_diff s))%Q in
    let grad_next_next := (next_error s - next_diff s)%Q in
    let '(interpolate_prev, interpolate_next) :=
      if useSubpixelStereo cfg then subpixelSide s else (false, false) in
    let '(argmin, err) :=
      if interpolate_prev then
        let d := (grad_prev_curr / (grad_prev_curr - grad_prev_prev))%Q in
        ((fst (argmin_point_ref s) - d * fst (ref_search_step s),
          snd (argmin_point_ref s) - d * snd (ref_search_step s)),
         min_error s - 2 * d * grad_prev_curr
           - (grad_prev_prev - grad_prev_curr) * d * d)%Q
      else if interpolate_next then
        let d := (grad_next_curr / (grad_next_curr - grad_next_next))%Q in
        ((fst (argmin_point_ref s) + d * fst (ref_search_step s),
          snd (argmin_point_ref s) + d * snd (ref_search_step s)),
         min_error s + 2 * d * grad_next_curr
           + (grad_next_next - grad_next_curr) * d * d)%Q
      else (argmin_point_ref s, min_error s) in
    let gradAlong := calc_grad_along_line (key_intensities s) (key_sample_distance s) in
    if Qltb (MAX_ERROR_STEREO cfg + sqrtf gradAlong * 20) err then inl (-3)%Q
    else inr {| refined_error := err;
                refined_point_ref := argmin;
                interpolated := interpolate_prev || interpolate_next;
                gradAlongLine := gradAlong |}.

(** The inverse depth of the match in the key frame and the factor [alpha]
    from disparity to inverse depth: [(idnew_best_match, alpha)]. *)
Definition bestMatchDepth (dm : DepthMap) (referenceFrame : Frame)
  (s : EplScan) (m : RefinedMatch) : Q * Q :=
  let '(rk0, rk1, rk2) := mat_vec (otherToThis_R referenceFrame) (KinvP s) in
  let '(cp0, cp1, cp2) :=
    mat_vec (KInv dm) (fst (refined_point_ref m), snd (refined_point_ref m), 1%Q) in
  let '(t0, t1, t2) := otherToThis_t referenceFrame in
  let beta0 := (rk0 * t2 - rk2 * t0)%Q in
  let beta1 := (rk1 * t2 - rk2 * t1)%Q in
  let nominator0 := (cp0 * t2 - cp2 * t0)%Q in
  let nominator1 := (cp1 * t2 - cp2 * t1)%Q in
  let alphas0 :=
    (fst (ref_search_step s) * fxi dm * beta0 / (nominator0 * nominator0))%Q in
  let alphas1 :=
    (snd (ref_search_step s) * fyi dm * beta1 / (nominator1 * nominator1))%Q in
  let idnew0 := ((rk0 * cp2 - rk2 * cp0) / nominator0)%Q in
  let idnew1 := ((rk1 * cp2 - rk2 * cp1) / nominator1)%Q in
  if Qltb (snd (ref_search_step s) * snd (ref_search_step s))
          (fst (ref_search_step s) * fst (ref_search_step s))
  then (idnew0, alphas0) else (idnew1, alphas1).

(** The variance of the stereo result. *)
Definition stereoVariance (dm : DepthMap) (referenceFrame : Frame)
  (keyframe_coordinate : Z * Z) (s : EplScan) (m : RefinedMatch) (alpha : Q) : Q :=
  let geoDispError :=
    calc_geometric_disparity_error
      (getInterpolatedElement42 (activeKeyFrame dm)
         (inject_Z (fst keyframe_coordinate), inject_Z (snd keyframe_coordinate))
         (width dm))
      (fst (key_epipolar_direction s) * REFERENCE_SAMPLE_DISTANCE cfg,
       snd (key_epipolar_direction s) * REFERENCE_SAMPLE_DISTANCE cfg)%Q
      (initialTrackedResidual referenceFrame) in
  let coeff := if interpolated m then (5 # 100)%Q else (5 # 10)%Q in
  let photoDispError :=
    (4 * cameraPixelNoise2 cfg / (gradAlongLine m + DIVISION_EPS cfg))%Q in
  (alpha * alpha
   * (coeff * key_sample_distance s * key_sample_distance s
      + geoDispError + photoDispError))%Q.

(** [doLineStereo(keyframe_coordinate, min_idepth, prior_idepth, max_idepth,
    referenceFrame, referenceFrame->image(0), result_idepth, result_var,
    result_eplLength)] on the object [dm] (given without its buffers);
    [out0] holds the reference parameters on entry, which a rejected call
    leaves as they are. *)
Definition doLineStereo (dm : DepthMap) (keyframe_coordinate : Z * Z)
  (min_idepth_along_t prior_idepth_key max_idepth_along_t : Q)
  (referenceFrame : Frame) (out0 : Q * Q * Q) : StereoResult :=
  match epipolarLineSearch dm keyframe_coordinate min_idepth_along_t
          prior_idepth_key max_idepth_along_t referenceFrame with
  | SearchRejected code => stereoFailed code out0
  | SearchDone s =>
      match refineMatch s with
      | inl code => stereoFailed code out0
      | inr m =>
          let '(idnew_best_match, alpha) := bestMatchDepth dm referenceFrame s m in
          if Qltb idnew_best_match 0 && negb (allowNegativeIdepths cfg)
          then stereoFailed (-2)%Q out0
          else {| error := refined_error m;
                  result_idepth := idnew_best_match;
                  result_var :=
                    stereoVariance dm referenceFrame keyframe_coordinate s m alpha;
                  result_eplLength := eplLength s |}
      end
  end.

(** *** Observation: [observeDepthCreate], [observeDepthUpdate],
    [observeDepthRow], [observeDepth] *)

(** [currentDepthMap[idx] = h]. *)
Definition storeCurrent (dm : DepthMap) (idx : Z) (h : DepthMapPixelHypothesis)
  : DepthMap :=
  set_currentDepthMap (zset (currentDepthMap dm) idx h) dm.

(** The test on [refPixelWasGoodNoCreate()] shared by the two observation
    functions: [false] when the pixel is skipped as badly tracked. *)
Definition wasGoodDuringTracking (dm : DepthMap) (refFrame : Frame) (x y : Z) : bool :=
  if Z.eqb (trackingParent refFrame) (frame_id (activeKeyFrame dm)) then
    match refPixelWasGoodNoCreate refFrame with
    | Some wasGood =>
        zget false wasGood
          (Z.shiftr x (SE3TRACKING_MIN_LEVEL cfg)
           + Z.shiftr (width dm) (SE3TRACKING_MIN_LEVEL cfg)
             * Z.shiftr y (SE3TRACKING_MIN_LEVEL cfg))
    | None => true
    end
  else true.

Definition observeDepthCreate (dm : DepthMap) (keyframe_coordinate : Z * Z) (idx : Z)
  : DepthMap * bool :=
  let target := zget noHypothesis (currentDepthMap dm) idx in
  let refFrame :=
    if activeKeyFrameIsReactivated dm
    then newest_referenceFrame dm else oldest_referenceFrame dm in
  let x := fst keyframe_coordinate in
  let y := snd keyframe_coordinate in
  if negb (wasGoodDuringTracking dm refFrame x y) then (dm, false)
  else
    let r := doLineStereo (withoutBuffers dm) keyframe_coordinate 0 1
               (1 / MIN_DEPTH cfg)%Q refFrame
               (uninitialized, uninitialized, uninitialized) in
    let target1 :=
      if Qeq_bool (error r) (-3) || Qeq_bool (error r) (-2)
      then set_blacklisted (blacklisted target - 1) target else target in
    if Qltb (error r) 0 || Qltb (MAX_VAR cfg) (result_var r)
    then (storeCurrent dm idx target1, false)
    else
      (storeCurrent dm idx
         (newHypothesis (UNZERO (result_idepth r)) (result_var r)
            (VALIDITY_COUNTER_INITIAL_OBSERVE cfg)),
       true).

(** The reference frame [observeDepthUpdate] selects for a cell, [None]
    when the cell is skipped because its next stereo frame has not arrived. *)
Definition updateReferenceFrame (dm : DepthMap) (target : DepthMapPixelHypothesis)
  : option Frame :=
  if negb (activeKeyFrameIsReactivated dm) then
    let k := uint_to_int (nextStereoFrameMinID target) - referenceFrameByID_offset dm in
    if Z.geb k (Z.of_nat (length (referenceFrameByID dm))) then None
    else if Z.ltb k 0 then Some (oldest_referenceFrame dm)
    else Some (zget (oldest_referenceFrame dm) (referenceFrameByID dm) k)
  else Some (newest_referenceFrame dm).

(** The stereo call of [observeDepthUpdate]. *)
Definition updateStereo (dm : DepthMap) (keyframe_coordinate : Z * Z)
  (target : DepthMapPixelHypothesis) (refFrame : Frame) : StereoResult :=
  let sv := sqrtf (idepth_var_smoothed target) in
  let min_idepth := (idepth_smoothed target - sv * STEREO_EPL_VAR_FAC cfg)%Q in
  let max_idepth := (idepth_smoothed target + sv * STEREO_EPL_VAR_FAC cfg)%Q in
  let min_idepth := if Qltb min_idepth 0 then 0%Q else min_idepth in
  let max_idepth :=
    if Qltb (1 / MIN_DEPTH cfg) max_idepth then (1 / MIN_DEPTH cfg)%Q else max_idepth in
  doLineStereo (withoutBuffers dm) keyframe_coordinate min_idepth
    (idepth_smoothed target) max_idepth
    refFrame (uninitialized, uninitialized, uninitialized).

(** What [observeDepthUpdate] does to the cell once stereo has returned:
    the new cell and the returned flag. *)
Definition updateFromStereo (dm : DepthMap) (target : DepthMapPixelHypothesis)
  (absGrad : Q) (refFrame : Frame) (r : StereoResult)
  : DepthMapPixelHypothesis * bool :=
  let diff := (result_idepth r - idepth_smoothed target)%Q in
  if Qeq_bool (error r) (-5) then (target, false)
  else if Qeq_bool (error r) (-1) then (target, false)
  else if Qeq_bool (error r) (-2) then
    let vc := validity_counter target - VALIDITY_COUNTER_DEC cfg in
    let vc := if Z.ltb vc 0 then 0 else vc in
    let target := set_validity_counter vc target in
    let target := set_nextStereoFrameMinID 0 target in
    let target := set_idepth_var (idepth_var target * FAIL_VAR_INC_FAC cfg)%Q target in
    if Qltb (MAX_VAR cfg) (idepth_var target)
    then (set_blacklisted (blacklisted target - 1) (set_isValid false target), false)
    else (target, false)
  else if Qeq_bool (error r) (-3) then (target, false)
  else if Qeq_bool (error r) (-4) then (target, false)
  else if Qltb (result_var r + idepth_var_smoothed target)
               (DIFF_FAC_OBSERVE cfg * diff * diff)
  then
    let target := set_idepth_var (idepth_var target * FAIL_VAR_INC_FAC cfg)%Q target in
    if Qltb (MAX_VAR cfg) (idepth_var target)
    then (set_isValid false target, false)
    else (target, false)
  else
    let id_var := (idepth_var target * SUCC_VAR_INC_FAC cfg)%Q in
    let w := (result_var r / (result_var r + id_var))%Q in
    let new_idepth := ((1 - w) * result_idepth r + w * idepth target)%Q in
    let target1 := set_idepth (UNZERO new_idepth) target in
    let id_var := (id_var * w)%Q in
    let target2 :=
      if Qltb id_var (idepth_var target1) then set_idepth_var id_var target1
      else target1 in
    let vc := validity_counter target2 + VALIDITY_COUNTER_INC cfg in
    let bound :=
      (VALIDITY_COUNTER_MAX cfg
       + absGrad * VALIDITY_COUNTER_MAX_VARIABLE cfg / 255)%Q in
    let vc := if Qltb bound (inject_Z vc) then float_to_int bound else vc in
    let target3 := set_validity_counter vc target2 in
    let target4 :=
      if Qltb (result_eplLength r) (MIN_EPL_LENGTH_CROP cfg) then
        let inc :=
          (inject_Z (numFramesTrackedOnThis (activeKeyFrame dm))
           / inject_Z (numMappedOnThis (activeKeyFrame dm) + 5))%Q in
        let inc := if Qltb inc 3 then 3%Q else inc in
        let inc :=
          (inc + inject_Z (Z.rem (float_to_int (result_eplLength r * 10000)) 2))%Q in
        let inc :=
          if Qltb (result_eplLength r) ((5 # 10) * MIN_EPL_LENGTH_CROP cfg)
          then (inc * 3)%Q else inc in
        set_nextStereoFrameMinID
          (float_to_int (inject_Z (frame_id refFrame) + inc)) target3
      else target3 in
    (target4, true).

Definition observeDepthUpdate (dm : DepthMap) (keyframe_coordinate : Z * Z) (idx : Z)
  (keyFrameMaxGradBuf : list Q) : DepthMap * bool :=
  let target := zget noHypothesis (currentDepthMap dm) idx in
  let x := fst keyframe_coordinate in
  let y := snd keyframe_coordinate in
  match updateReferenceFrame dm target with
  | None => (dm, false)
  | Some refFrame =>
      if negb (wasGoodDuringTracking dm refFrame x y) then (dm, false)
      else
        let r := updateStereo dm keyframe_coordinate target refFrame in
        let '(target', success) :=
          updateFromStereo dm target (zget 0%Q keyFrameMaxGradBuf idx) refFrame r in
        (storeCurrent dm idx target', success)
  end.

(** The body of the two loops of [observeDepthRow] for the pixel [(x, y)]. *)
Definition observeDepthPixel (y : Z) (dm : DepthMap) (x : Z) : DepthMap :=
  let keyFrameMaxGradBuf := maxGradients (activeKeyFrame dm) in
  let idx := x + y * width dm in
  let target := zget noHypothesis (currentDepthMap dm) idx in
  let hasHypothesis := isValid target in
  if hasHypothesis
     && Qltb (zget 0%Q keyFrameMaxGradBuf idx) (MIN_ABS_GRAD_DECREASE cfg)
  then storeCurrent dm idx (set_isValid false target)
  else if Qltb (zget 0%Q keyFrameMaxGradBuf idx) (MIN_ABS_GRAD_CREATE cfg)
          || Z.ltb (blacklisted target) (MIN_BLACKLIST cfg)
  then dm
  else if negb hasHypothesis
  then fst (observeDepthCreate dm (x, y) idx)
  else fst (observeDepthUpdate dm (x, y) idx keyFrameMaxGradBuf).

Definition observeDepthRow (yMin yMax : Z) (dm : DepthMap) : DepthMap :=
  for_range yMin yMax
    (fun dm y => for_range 3 (width dm - 3) (observeDepthPixel y) dm) dm.

Definition observeDepth (dm : DepthMap) : DepthMap :=
  observeDepthRow 3 (height dm - 3) dm.

(** *** Propagation: [propagateDepth] *)

(** The first loop of [propagateDepth]: wipe [otherDepthMap]. *)
Definition wipeDepthMap (g : list DepthMapPixelHypothesis)
  : list DepthMapPixelHypothesis :=
  map (fun pt => set_blacklisted 0 (set_isValid false pt)) g.

(** The warp of the source pixel [(x, y)] into the new key frame:
    [(pn, new_idepth, u_new, v_new)]. *)
Definition warpPixel (dm : DepthMap) (new_keyframe : Frame)
  (source : DepthMapPixelHypothesis) (x y : Z) : Vec3 * Q * Q * Q :=
  let '(r0, r1, r2) :=
    mat_vec (oldToNew_R new_keyframe)
      (inject_Z x * fxi dm + cxi dm, inject_Z y * fyi dm + cyi dm, 1)%Q in
  let '(t0, t1, t2) := oldToNew_t new_keyframe in
  let pn :=
    (r0 / idepth_smoothed source + t0,
     r1 / idepth_smoothed source + t1,
     r2 / idepth_smoothed source + t2)%Q in
  let new_idepth := (1 / snd pn)%Q in
  let u_new := (fst (fst pn) * new_idepth * fx dm + cx dm)%Q in
  let v_new := (snd (fst pn) * new_idepth * fy dm + cy dm)%Q in
  (pn, new_idepth, u_new, v_new).

(** The test "still within image" of [propagateDepth]. *)
Definition withinNewImage (dm : DepthMap) (u_new v_new : Q) : bool :=
  Qltb (21 # 10) u_new && Qltb (21 # 10) v_new
  && Qltb u_new (inject_Z (width dm) - (31 # 10))
  && Qltb v_new (inject_Z (height dm) - (31 # 10)).

(** The tracking, gradient and colour gate of [propagateDepth]: [true] when
    the hypothesis of the source pixel [(x, y)] is dropped. *)
Definition propagationGateDrops (dm : DepthMap) (new_keyframe : Frame)
  (x y : Z) (u_new v_new : Q) (newIDX : Z) : bool :=
  let trackingWasGood :=
    if Z.eqb (trackingParent new_keyframe) (frame_id (activeKeyFrame dm))
    then refPixelWasGoodNoCreate new_keyframe else None in
  let destAbsGrad := zget 0%Q (maxGradients new_keyframe) newIDX in
  match trackingWasGood with
  | Some good =>
      negb (zget false good
              (Z.shiftr x (SE3TRACKING_MIN_LEVEL cfg)
               + Z.shiftr (width dm) (SE3TRACKING_MIN_LEVEL cfg)
                 * Z.shiftr y (SE3TRACKING_MIN_LEVEL cfg)))
      || Qltb destAbsGrad (MIN_ABS_GRAD_DECREASE cfg)
  | None =>
      let sourceColor := zget 0%Q (image (activeKeyFrame dm)) (x + y * width dm) in
      let destColor :=
        getInterpolatedElement (image new_keyframe) (u_new, v_new) (width dm) in
      let residual := (destColor - sourceColor)%Q in
      Qltb 1 (residual * residual
              / (MAX_DIFF_CONSTANT cfg
                 + MAX_DIFF_GRAD_MULT cfg * destAbsGrad * destAbsGrad))
      || Qltb destAbsGrad (MIN_ABS_GRAD_DECREASE cfg)
  end.

(** The body of the main loops of [propagateDepth] for the source pixel
    [(x, y)]: [other] is [otherDepthMap], the grid being filled. *)
Definition propagatePixel (dm : DepthMap) (new_keyframe : Frame) (y : Z)
  (other : list DepthMapPixelHypothesis) (x : Z) : list DepthMapPixelHypothesis :=
  let source := zget noHypothesis (currentDepthMap dm) (x + y * width dm) in
  if negb (isValid source) then other
  else
    let '(pn, new_idepth, u_new, v_new) := warpPixel dm new_keyframe source x y in
    if negb (withinNewImage dm u_new v_new) then other
    else
      let newIDX :=
        float_to_int (u_new + (5 # 10)) + float_to_int (v_new + (5 # 10)) * width dm in
      if propagationGateDrops dm new_keyframe x y u_new v_new newIDX then other
      else
        let targetBest := zget noHypothesis other newIDX in
        let idepth_ratio_4 := (new_idepth / idepth_smoothed source)%Q in
        let idepth_ratio_4 := (idepth_ratio_4 * idepth_ratio_4)%Q in
        let idepth_ratio_4 := (idepth_ratio_4 * idepth_ratio_4)%Q in
        let new_var := (idepth_ratio_4 * idepth_var source)%Q in
        let diff := (idepth targetBest - new_idepth)%Q in
        let occludes :=
          isValid targetBest
          && Qltb (new_var + idepth_var targetBest)
                  (DIFF_FAC_PROP_MERGE cfg * diff * diff) in
        if occludes && Qltb new_idepth (idepth targetBest) then other
        else
          let targetBest :=
            if occludes then set_isValid false targetBest else targetBest in
          if negb (isValid targetBest) then
            zset other newIDX
              (newHypothesis new_idepth new_var (validity_counter source))
          else
            let w := (new_var / (idepth_var targetBest + new_var))%Q in
            let merged_new_idepth :=
              (w * idepth targetBest + (1 - w) * new_idepth)%Q in
            let merged_validity :=
              validity_counter source + validity_counter targetBest in
            let merged_validity :=
              if Qltb (VALIDITY_COUNTER_MAX cfg + VALIDITY_COUNTER_MAX_VARIABLE cfg)
                      (inject_Z merged_validity)
              then float_to_int
                     (VALIDITY_COUNTER_MAX cfg + VALIDITY_COUNTER_MAX_VARIABLE cfg)
              else merged_validity in
            zset other newIDX
              (newHypothesis merged_new_idepth
                 (1 / (1 / idepth_var targetBest + 1 / new_var))%Q
                 merged_validity).

(** [propagateDepth(new_keyframe)]: wipe the other grid, propagate every
    pixel of the old grid into it, swap the two grids. *)
Definition propagateDepth (new_keyframe : Frame) (dm : DepthMap) : DepthMap :=
  let other0 := wipeDepthMap (otherDepthMap dm) in
  let other :=
    for_range 0 (height dm)
      (fun other y => for_range 0 (width dm) (propagatePixel dm new_keyframe y) other)
      other0 in
  set_otherDepthMap (currentDepthMap dm) (set_currentDepthMap other dm).

(** *** The validity integral buffer: [buildRegIntegralBufferRow1],
    [buildRegIntegralBuffer] *)

(** One step of the inner loop of [buildRegIntegralBufferRow1]: the state is
    the running sum of the row and the buffer; the two pointers of the
    source advance together and both stand at [x + y*width]. *)
Definition integralRowStep (dm : DepthMap) (y : Z) (st : Z * list Z) (x : Z)
  : Z * list Z :=
  let '(validityIntegralBufferSUM, buf) := st in
  let ptSrc := zget noHypothesis (currentDepthMap dm) (x + y * width dm) in
  let validityIntegralBufferSUM :=
    if isValid ptSrc
    then validityIntegralBufferSUM + validity_counter ptSrc
    else validityIntegralBufferSUM in
  (validityIntegralBufferSUM, zset buf (x + y * width dm) validityIntegralBufferSUM).

Definition buildRegIntegralBufferRow1 (dm : DepthMap) (yMin yMax : Z) (buf : list Z)
  : list Z :=
  for_range yMin yMax
    (fun buf y => snd (for_range 0 (width dm) (integralRowStep dm y) (0, buf))) buf.

(** The second loop of [buildRegIntegralBuffer]: every entry from index
    [width] on receives the entry one row above it. *)
Definition integralColumnStep (dm : DepthMap) (buf : list Z) (idx : Z) : list Z :=
  zset buf idx (zget 0 buf idx + zget 0 buf (idx - width dm)).

Definition buildRegIntegralBuffer (dm : DepthMap) : DepthMap :=
  let buf := buildRegIntegralBufferRow1 dm 0 (height dm) (validityIntegralBuffer dm) in
  let wh := height dm * width dm in
  set_validityIntegralBuffer
    (for_range (width dm) wh (integralColumnStep dm) buf) dm.

(** *** Hole filling: [regularizeDepthMapFillHolesRow],
    [regularizeDepthMapFillHoles] *)

(** The value [val] that the fill-holes loop reads from the integral buffer
    at the pixel of index [idx]. *)
Definition integralWindow (dm : DepthMap) (idx : Z) : Z :=
  let io := fun k => zget 0 (validityIntegralBuffer dm) (idx + k) in
  io (2 + 2 * width dm) - io (2 - 3 * width dm) - io (-3 + 2 * width dm)
  + io (-3 - 3 * width dm).

(** One step of the innermost loop: [source] walks over five cells of a
    row of [otherDepthMap]; the state is [(sumIdepthObs, sumIVarObs, num)]. *)
Definition fillHolesAccumulate (dm : DepthMap) (st : Q * Q * Z) (source : Z)
  : Q * Q * Z :=
  let '(sumIdepthObs, sumIVarObs, num) := st in
  let src := zget noHypothesis (otherDepthMap dm) source in
  if negb (isValid src) then st
  else ((sumIdepthObs + idepth src / idepth_var src)%Q,
        (sumIVarObs + 1 / idepth_var src)%Q,
        num + 1).

(** The two pointer loops over the 5x5 window of [(x, y)]: [s1] starts at
    [(x-2) + (y-2)*width] and advances by [width] up to [s1max], that is
    five times. *)
Definition fillHolesWindow (dm : DepthMap) (x y : Z) : Q * Q * Z :=
  for_range 0 5
    (fun st k =>
       let s1 := (x - 2) + (y - 2) * width dm + k * width dm in
       for_range s1 (s1 + 5) (fillHolesAccumulate dm) st)
    (0%Q, 0%Q, 0).

(** The condition under which the fill-holes loop creates a hypothesis. *)
Definition fillHolesCreates (dest : DepthMapPixelHypothesis) (val : Z) : bool :=
  (Z.geb (blacklisted dest) (MIN_BLACKLIST cfg)
   && Z.gtb val (VAL_SUM_MIN_FOR_CREATE cfg))
  || Z.gtb val (VAL_SUM_MIN_FOR_UNBLACKLIST cfg).

(** The body of the loops of [regularizeDepthMapFillHolesRow] for [(x, y)]. *)
Definition fillHolesPixel (y : Z) (dm : DepthMap) (x : Z) : DepthMap :=
  let keyFrameMaxGradBuf := maxGradients (activeKeyFrame dm) in
  let idx := x + y * width dm in
  let dest := zget noHypothesis (otherDepthMap dm) idx in
  if isValid dest then dm
  else if Qltb (zget 0%Q keyFrameMaxGradBuf idx) (MIN_ABS_GRAD_DECREASE cfg) then dm
  else
    let val := integralWindow dm idx in
    if fillHolesCreates dest val then
      let '(sumIdepthObs, sumIVarObs, num) := fillHolesWindow dm x y in
      let idepthObs := (sumIdepthObs / sumIVarObs)%Q in
      let idepthObs := UNZERO idepthObs in
      storeCurrent dm idx (newHypothesis idepthObs (VAR_RANDOM_INIT_INITIAL cfg) 0)
    else dm.

Definition regularizeDepthMapFillHolesRow (yMin yMax : Z) (dm : DepthMap) : DepthMap :=
  for_range yMin yMax
    (fun dm y => for_range 3 (width dm - 2) (fillHolesPixel y) dm) dm.

Definition regularizeDepthMapFillHoles (dm : DepthMap) : DepthMap :=
  let dm := buildRegIntegralBuffer dm in
  let dm := set_otherDepthMap (currentDepthMap dm) dm in
  regularizeDepthMapFillHolesRow 3 (height dm - 2) dm.

(** *** Smoothing: [regularizeDepthMapRow], [regularizeDepthMap] *)

(** The accumulators of the smoothing loop. *)
Record SmoothAcc : Type := {
  acc_sum : Q;
  acc_val_sum : Q;
  acc_sumIvar : Q;
  numOccluding : Z;
  numNotOccluding : Z
}.

(** The body of the two inner loops of [regularizeDepthMapRow] for the
    neighbour at offset [(dx, dy)] of the cell of index [idx]. *)
Definition smoothAccumulate (removeOcclusions : bool) (dm : DepthMap) (idx : Z)
  (dx : Z) (acc : SmoothAcc) (dy : Z) : SmoothAcc :=
  let destRead := zget noHypothesis (otherDepthMap dm) idx in
  let source := zget noHypothesis (otherDepthMap dm) (idx + dx + dy * width dm) in
  if negb (isValid source) then acc
  else
    let diff := (idepth source - idepth destRead)%Q in
    if Qltb (idepth_var source + idepth_var destRead)
            (DIFF_FAC_SMOOTHING cfg * diff * diff)
    then
      if removeOcclusions && Qltb (idepth destRead) (idepth source)
      then {| acc_sum := acc_sum acc; acc_val_sum := acc_val_sum acc;
              acc_sumIvar := acc_sumIvar acc;
              numOccluding := numOccluding acc + 1;
              numNotOccluding := numNotOccluding acc |}
      else acc
    else
      let distFac := (inject_Z (dx * dx + dy * dy) * REG_DIST_VAR cfg)%Q in
      let ivar := (1 / (idepth_var source + distFac))%Q in
      {| acc_sum := (acc_sum acc + idepth source * ivar)%Q;
         acc_val_sum := (acc_val_sum acc + inject_Z (validity_counter source))%Q;
         acc_sumIvar := (acc_sumIvar acc + ivar)%Q;
         numOccluding := numOccluding acc;
         numNotOccluding :=
           if removeOcclusions then numNotOccluding acc + 1
           else numNotOccluding acc |}.

Definition smoothWindow (removeOcclusions : bool) (dm : DepthMap) (idx : Z)
  : SmoothAcc :=
  let regularize_radius := 2 in
  for_range (- regularize_radius) (regularize_radius + 1)
    (fun acc dx =>
       for_range (- regularize_radius) (regularize_radius + 1)
         (smoothAccumulate removeOcclusions dm idx dx) acc)
    {| acc_sum := 0; acc_val_sum := 0; acc_sumIvar := 0;
       numOccluding := 0; numNotOccluding := 0 |}.

(** The body of the outer loops of [regularizeDepthMapRow] for [(x, y)]. *)
Definition regularizePixel (removeOcclusions : bool) (validityTH : Z) (y : Z)
  (dm : DepthMap) (x : Z) : DepthMap :=
  let idx := x + y * width dm in
  let dest := zget noHypothesis (currentDepthMap dm) idx in
  let destRead := zget noHypothesis (otherDepthMap dm) idx in
  if negb (isValid destRead) then dm
  else
    let acc := smoothWindow removeOcclusions dm idx in
    if Qltb (acc_val_sum acc) (inject_Z validityTH) then
      storeCurrent dm idx
        (set_blacklisted (blacklisted dest - 1) (set_isValid false dest))
    else if removeOcclusions && Z.gtb (numOccluding acc) (numNotOccluding acc) then
      storeCurrent dm idx (set_isValid false dest)
    else
      let sum := (acc_sum acc / acc_sumIvar acc)%Q in
      let sum := UNZERO sum in
      storeCurrent dm idx
        (set_idepth_var_smoothed (1 / acc_sumIvar acc)%Q
           (set_idepth_smoothed sum dest)).

Definition regularizeDepthMapRow (removeOcclusions : bool) (validityTH : Z)
  (yMin yMax : Z) (dm : DepthMap) : DepthMap :=
  let regularize_radius := 2 in
  for_range yMin yMax
    (fun dm y =>
       for_range regularize_radius (width dm - regularize_radius)
         (regularizePixel removeOcclusions validityTH y) dm) dm.

Definition regularizeDepthMap (removeOcclusions : bool) (validityTH : Z)
  (dm : DepthMap) : DepthMap :=
  let dm := set_otherDepthMap (currentDepthMap dm) dm in
  regularizeDepthMapRow removeOcclusions validityTH 2 (height dm - 2) dm.

(** *** The rescaling at the end of [createKeyFrame] *)







(** ** Vocabulary of the statements *)

(** The depth map object with its current grid blanked: what a pass over
    the current grid leaves alone. *)
Definition frameOf (dm : DepthMap) : DepthMap := set_currentDepthMap [] dm.

(** The common shape of [observeDepthRow], [regularizeDepthMapFillHolesRow]
    and [regularizeDepthMapRow]: rows [yMin..yMax-1], columns
    [xlo..width-xoff-1]. *)
Definition pixelPass (xlo xoff : Z) (body : Z -> DepthMap -> Z -> DepthMap)
  (yMin yMax : Z) (dm : DepthMap) : DepthMap :=
  for_range yMin yMax
    (fun dm y => for_range xlo (width dm - xoff) (body y) dm) dm.

(** A loop body that, at the pixel [(x, y)], changes at most the cell
    [x + y*width] of the current grid. *)
Definition pixelLocal (body : Z -> DepthMap -> Z -> DepthMap) : Prop :=
  forall (y : Z) (dm : DepthMap) (x : Z),
    frameOf (body y dm x) = frameOf dm
    /\ length (currentDepthMap (body y dm x)) = length (currentDepthMap dm)
    /\ forall j : Z, j <> x + y * width dm ->
         zget noHypothesis (currentDepthMap (body y dm x)) j
         = zget noHypothesis (currentDepthMap dm) j.

(** A loop body whose new cell depends only on the old cell and on what the
    pass leaves alone. *)
Definition cellDetermined (body : Z -> DepthMap -> Z -> DepthMap) : Prop :=
  forall (y x : Z) (dm dm' : DepthMap),
    frameOf dm = frameOf dm' ->
    length (currentDepthMap dm) = length (currentDepthMap dm') ->
    zget noHypothesis (currentDepthMap dm) (x + y * width dm)
    = zget noHypothesis (currentDepthMap dm') (x + y * width dm) ->
    zget noHypothesis (currentDepthMap (body y dm x)) (x + y * width dm)
    = zget noHypothesis (currentDepthMap (body y dm' x)) (x + y * width dm).

(** [f lo + f (lo+1) + ... + f (hi-1)]. *)
Definition sumZ (lo hi : Z) (f : Z -> Z) : Z :=
  for_range lo hi (fun acc i => acc + f i) 0.

(** What a cell contributes to the validity sums: its validity counter when
    it is valid, nothing otherwise. *)
Definition cellValidity (g : list DepthMapPixelHypothesis) (idx : Z) : Z :=
  let h := zget noHypothesis g idx in
  if isValid h then validity_counter h else 0.

(** The sum of the validity counters of the valid cells of a row, columns
    [0..x]. *)
Definition rowPrefixSum (g : list DepthMapPixelHypothesis) (W x y : Z) : Z :=
  sumZ 0 (x + 1) (fun x' => cellValidity g (x' + y * W)).

(** The same over the rectangle of columns [0..x] and rows [0..y]. *)
Definition rectPrefixSum (g : list DepthMapPixelHypothesis) (W x y : Z) : Z :=
  sumZ 0 (y + 1) (fun y' => rowPrefixSum g W x y').

(** The direct sum of the validity counters of the valid cells of the 5x5
    window centred at [(x, y)]. *)
Definition windowValiditySum (g : list DepthMapPixelHypothesis) (W x y : Z) : Z :=
  sumZ (y - 2) (y + 3)
    (fun y' => sumZ (x - 2) (x + 3) (fun x' => cellValidity g (x' + y' * W))).

(** The cells of the 5x5 window centred at [(x, y)], row by row. *)
Definition window5x5 (g : list DepthMapPixelHypothesis) (W x y : Z)
  : list DepthMapPixelHypothesis :=
  flat_map
    (fun y' => map (fun x' => zget noHypothesis g (x' + y' * W)) (seqZ (x - 2) 5))
    (seqZ (y - 2) 5).

Fixpoint Qsum (l : list Q) : Q :=
  match l with
  | [] => 0%Q
  | q :: rest => (q + Qsum rest)%Q
  end.

(** The variance-weighted average of the inverse depths of the valid cells
    of a list: [sum (idepth / var) / sum (1 / var)]. *)
Definition weightedIdepth (cells : list DepthMapPixelHypothesis) : Q :=
  let valid := filter (fun h => isValid h = true) cells in
  (Qsum (map (fun h => idepth h / idepth_var h) valid)
   / Qsum (map (fun h => 1 / idepth_var h) valid))%Q.

(** The invariant of the spec for one cell: a valid hypothesis has a
    positive inverse depth not above [1/MIN_DEPTH] and a positive
    variance. *)
Definition hypothesisInvariant (h : DepthMapPixelHypothesis) : Prop :=
  isValid h = true ->
  (0 < idepth h)%Q /\ (0 < idepth_var h)%Q /\ (idepth h <= 1 / MIN_DEPTH cfg)%Q.

(** A border pixel of width [b]: less than [b] pixels away from an edge of
    the image. *)
Definition inBorder (b W H x y : Z) : Prop :=
  x < b \/ W - b <= x \/ y < b \/ H - b <= y.

(** A stereo result that the observation does not take for one of the
    rejection codes -1 ... -5. *)
Definition stereoAccepted (r : StereoResult) : Prop :=
  Qeq_bool (error r) (-5) = false /\ Qeq_bool (error r) (-1) = false
  /\ Qeq_bool (error r) (-2) = false /\ Qeq_bool (error r) (-3) = false
  /\ Qeq_bool (error r) (-4) = false.

(** What the observation needs from a stereo result for the invariant to
    survive: an accepted result carries an inverse depth in
    [0, 1/MIN_DEPTH] and a positive variance. *)
Definition stereoResultInRange (r : StereoResult) : Prop :=
  stereoAccepted r ->
  (0 <= result_idepth r)%Q /\ (result_idepth r <= 1 / MIN_DEPTH cfg)%Q
  /\ (0 < result_var r)%Q.

(** The reference frames of the object. *)
Definition referenceFrames (dm : DepthMap) : list Frame :=
  oldest_referenceFrame dm :: newest_referenceFrame dm :: referenceFrameByID dm.


Definition numValid (g : list DepthMapPixelHypothesis) : Z :=
  Z.of_nat (length (filter (fun h => isValid h = true) g)).


(** The state in which the fill-holes loops start: integral buffer built,
    current grid copied to the other grid. *)
Definition fillHolesStart (dm : DepthMap) : DepthMap :=
  set_otherDepthMap (currentDepthMap (buildRegIntegralBuffer dm))
    (buildRegIntegralBuffer dm).

(** The invariant of the spec for every cell of a grid. *)
Definition gridInvariant (g : list DepthMapPixelHypothesis) : Prop :=
  forall idx : Z, hypothesisInvariant (zget noHypothesis g idx).

(** The skip increment as the spec words it: the maximum of 3 and
    [framesTracked / (framesMapped + 5)], tripled exactly when the epipolar
    length is below half of [MIN_EPL_LENGTH_CROP], plus the one-bit parity
    jitter of the epipolar length. *)
Definition claimedSkipIncrement (framesTracked framesMapped : Z) (epl : Q) : Q :=
  (Qmax 3 (inject_Z framesTracked / inject_Z (framesMapped + 5))
   * (if Qltb epl ((1 # 2) * MIN_EPL_LENGTH_CROP cfg) then 3 else 1)
   + inject_Z (Z.rem (float_to_int (epl * 10000)) 2))%Q.

(** ** Further functions of [depth_map.cc] *)

(** *** Image range tests: [is_in_image_range],
    [search_range_is_in_image_area], [intensities_along_line] *)

Definition is_in_image_range (keypoint : Vec2) (image_size : Z * Z) (padding : Z)
  : bool :=
  Qle_bool (inject_Z padding) (fst keypoint)
  && Qle_bool (inject_Z padding) (snd keypoint)
  && Qle_bool (fst keypoint) (inject_Z (fst image_size - 1 - padding))
  && Qle_bool (snd keypoint) (inject_Z (snd image_size - 1 - padding)).

Definition search_range_is_in_image_area (start stop : Vec2) (image_size : Z * Z)
  : bool :=
  is_in_image_range start image_size 2 && is_in_image_range stop image_size 2.

(** The five points at which [intensities_along_line] samples the image:
    [center - 2*step], [center - 1*step], [center - 0*step],
    [center + 1*step], [center + 2*step]. *)
Definition linePoints (center_coordinate step : Vec2) : list Vec2 :=
  [ (fst center_coordinate - 2 * fst step, snd center_coordinate - 2 * snd step);
    (fst center_coordinate - 1 * fst step, snd center_coordinate - 1 * snd step);
    (fst center_coordinate - 0 * fst step, snd center_coordinate - 0 * snd step);
    (fst center_coordinate + 1 * fst step, snd center_coordinate + 1 * snd step);
    (fst center_coordinate + 2 * fst step, snd center_coordinate + 2 * snd step)
  ]%Q.

Definition intensities_along_line (image : list Q) (image_width : Z)
  (center_coordinate step : Vec2) : list Q :=
  map (fun p => getInterpolatedElement image p image_width)
    (linePoints center_coordinate step).

(** *** [updateKeyframe] *)

(** The inner [while] loop of [updateKeyframe] for one frame of the deque:
    [frame] is pushed as long as [size + offset <= frame->id()], that is
    [id + 1 - offset - size] times when this is positive and not at all
    otherwise. *)
Definition pushReferenceFrame (offset : Z) (byID : list Frame) (frame : Frame)
  : list Frame :=
  byID ++ replicate
            (Z.to_nat (frame_id frame + 1 - offset - Z.of_nat (length byID))) frame.

(** The first part of [updateKeyframe]: the oldest and the newest reference
    frame and the table [referenceFrameByID].  The frames are given as
    [prepareForStereoWith] leaves them.  [front()] and [back()] of an empty
    deque are undefined in C++; the embedding then keeps the two frames the
    object held. *)
Definition setReferenceFrames (referenceFrames : list Frame) (dm : DepthMap)
  : DepthMap :=
  let oldest := hd (oldest_referenceFrame dm) referenceFrames in
  let newest := List.last referenceFrames (newest_referenceFrame dm) in
  let offset := frame_id oldest in
  {| width := width dm; height := height dm;
     currentDepthMap := currentDepthMap dm; otherDepthMap := otherDepthMap dm;
     validityIntegralBuffer := validityIntegralBuffer dm;
     activeKeyFrame := activeKeyFrame dm;
     activeKeyFrameIsReactivated := activeKeyFrameIsReactivated dm;
     oldest_referenceFrame := oldest;
     newest_referenceFrame := newest;
     referenceFrameByID :=
       fold_left (pushReferenceFrame offset) referenceFrames [];
     referenceFrameByID_offset := offset;
     fx := fx dm; fy := fy dm; cx := cx dm; cy := cy dm;
     fxi := fxi dm; fyi := fyi dm; cxi := cxi dm; cyi := cyi dm;
     KInv := KInv dm |}.

(** [activeKeyFrame->numMappedOnThis++]. *)
Definition countMapping (dm : DepthMap) : DepthMap :=
  let kf := activeKeyFrame dm in
  {| width := width dm; height := height dm;
     currentDepthMap := currentDepthMap dm; otherDepthMap := otherDepthMap dm;
     validityIntegralBuffer := validityIntegralBuffer dm;
     activeKeyFrame :=
       {| frame_id := frame_id kf; trackingParent := trackingParent kf;
          refPixelWasGoodNoCreate := refPixelWasGoodNoCreate kf;
          image := image kf; maxGradients := maxGradients kf;
          numFramesTrackedOnThis := numFramesTrackedOnThis kf;
          numMappedOnThis := numMappedOnThis kf + 1;
          otherToThis_R := otherToThis_R kf; otherToThis_t := otherToThis_t kf;
          initialTrackedResidual := initialTrackedResidual kf;
          oldToNew_R := oldToNew_R kf; oldToNew_t := oldToNew_t kf |};
     activeKeyFrameIsReactivated := activeKeyFrameIsReactivated dm;
     oldest_referenceFrame := oldest_referenceFrame dm;
     newest_referenceFrame := newest_referenceFrame dm;
     referenceFrameByID := referenceFrameByID dm;
     referenceFrameByID_offset := referenceFrameByID_offset dm;
     fx := fx dm; fy := fy dm; cx := cx dm; cy := cy dm;
     fxi := fxi dm; fyi := fyi dm; cxi := cxi dm; cyi := cyi dm;
     KInv := KInv dm |}.

(** [updateKeyframe(referenceFrames)], as far as the object is concerned
    (the export [setDepth], the debug images and the timing statistics are
    left out). *)
Definition updateKeyframe (referenceFrames : list Frame) (dm : DepthMap) : DepthMap :=
  let dm := setReferenceFrames referenceFrames dm in
  let dm := observeDepth dm in
  let dm := regularizeDepthMapFillHoles dm in
  let dm := regularizeDepthMap false (VAL_SUM_MIN_FOR_KEEP cfg) dm in
  countMapping dm.

(** *** [finalizeKeyFrame] *)

(** [finalizeKeyFrame()], as far as the grids are concerned. *)
Definition finalizeKeyFrame (dm : DepthMap) : DepthMap :=
  let dm := regularizeDepthMapFillHoles dm in
  regularizeDepthMap false (VAL_SUM_MIN_FOR_KEEP cfg) dm.

(** *** [setFromExistingKF] *)

(** The body of the loops of [setFromExistingKF] for the pixel [(x, y)]:
    the three pointers into the arrays of the key frame and [pt] advance
    together and stand at [x + y*width]. *)
Definition loadPixel (idepth_reAct idepthVar_reAct : list Q) (validity_reAct : list Z)
  (y : Z) (dm : DepthMap) (x : Z) : DepthMap :=
  let idx := x + y * width dm in
  let idepthVar := zget 0%Q idepthVar_reAct idx in
  if Qltb 0 idepthVar then
    storeCurrent dm idx
      (newHypothesis (zget 0%Q idepth_reAct idx) idepthVar
         (zget 0 validity_reAct idx))
  else
    let pt := zget noHypothesis (currentDepthMap dm) idx in
    storeCurrent dm idx
      (set_blacklisted
         (if Qeq_bool idepthVar (-2) then MIN_BLACKLIST cfg - 1 else 0)
         (set_isValid false pt)).

(** The state [setFromExistingKF(kf)] is in when its loops start: [kf] is
    the active key frame, with its two counters reset, and the key frame
    counts as reactivated. *)
Definition reactivate (kf : Frame) (dm : DepthMap) : DepthMap :=
  {| width := width dm; height := height dm;
     currentDepthMap := currentDepthMap dm; otherDepthMap := otherDepthMap dm;
     validityIntegralBuffer := validityIntegralBuffer dm;
     activeKeyFrame :=
       {| frame_id := frame_id kf; trackingParent := trackingParent kf;
          refPixelWasGoodNoCreate := refPixelWasGoodNoCreate kf;
          image := image kf; maxGradients := maxGradients kf;
          numFramesTrackedOnThis := 0;
          numMappedOnThis := 0;
          otherToThis_R := otherToThis_R kf; otherToThis_t := otherToThis_t kf;
          initialTrackedResidual := initialTrackedResidual kf;
          oldToNew_R := oldToNew_R kf; oldToNew_t := oldToNew_t kf |};
     activeKeyFrameIsReactivated := true;
     oldest_referenceFrame := oldest_referenceFrame dm;
     newest_referenceFrame := newest_referenceFrame dm;
     referenceFrameByID := referenceFrameByID dm;
     referenceFrameByID_offset := referenceFrameByID_offset dm;
     fx := fx dm; fy := fy dm; cx := cx dm; cy := cy dm;
     fxi := fxi dm; fyi := fyi dm; cxi := cxi dm; cyi := cyi dm;
     KInv := KInv dm |}.

(** [setFromExistingKF(kf)]; the three arrays are those returned by
    [kf->idepth_reAct()], [kf->idepthVar_reAct()] and
    [kf->validity_reAct()]. *)
Definition setFromExistingKF (kf : Frame)
  (idepth_reAct idepthVar_reAct : list Q) (validity_reAct : list Z)
  (dm : DepthMap) : DepthMap :=
  let dm := reactivate kf dm in
  let dm :=
    for_range 0 (height dm)
      (fun dm y =>
         for_range 0 (width dm)
           (loadPixel idepth_reAct idepthVar_reAct validity_reAct y) dm) dm in
  regularizeDepthMap false (VAL_SUM_MIN_FOR_KEEP cfg) dm.

(** ** Vocabulary of the further statements *)

(** Two depth map objects that differ at most in their current grid have
    the same frame; two grids agree when they have the same cells. *)
Definition sameCells (g g' : list DepthMapPixelHypothesis) : Prop :=
  length g = length g'
  /\ forall idx : Z, zget noHypothesis g idx = zget noHypothesis g' idx.

(** The posterior of a cell: what the observation maintains and the
    regularizer must not touch. *)
Definition samePosterior (h h' : DepthMapPixelHypothesis) : Prop :=
  idepth h' = idepth h /\ idepth_var h' = idepth_var h
  /\ validity_counter h' = validity_counter h
  /\ nextStereoFrameMinID h' = nextStereoFrameMinID h.

(** Every valid cell of a grid has a variance of at most [MAX_VAR]. *)
Definition varianceCapped (g : list DepthMapPixelHypothesis) : Prop :=
  forall idx : Z,
    isValid (zget noHypothesis g idx) = true ->
    (idepth_var (zget noHypothesis g idx) <= MAX_VAR cfg)%Q.

(** Every valid cell of a grid has a validity counter that is not
    negative. *)
Definition validityNonNegative (g : list DepthMapPixelHypothesis) : Prop :=
  forall idx : Z,
    isValid (zget noHypothesis g idx) = true ->
    0 <= validity_counter (zget noHypothesis g idx).

(** One for a valid cell, zero otherwise. *)
Definition cellCount (g : list DepthMapPixelHypothesis) (idx : Z) : Z :=
  if isValid (zget noHypothesis g idx) then 1 else 0.

(** The identifiers of a list of frames increase strictly, the first one
    being above [last]. *)
Fixpoint idsIncreaseFrom (last : Z) (frames : list Frame) : Prop :=
  match frames with
  | [] => True
  | f :: rest => last < frame_id f /\ idsIncreaseFrom (frame_id f) rest
  end.

(** The identifiers of a list of frames increase strictly. *)
Definition idsIncrease (frames : list Frame) : Prop :=
  match frames with
  | [] => True
  | f :: rest => idsIncreaseFrom (frame_id f) rest
  end.

(** [f] is the oldest of the frames whose identifier is at least [n]. *)
Definition oldestNotBefore (frames : list Frame) (n : Z) (f : Frame) : Prop :=
  In f frames /\ n <= frame_id f
  /\ forall g, In g frames -> n <= frame_id g -> frame_id f <= frame_id g.

(** ** Basic facts about the numeric and buffer primitives *)

Lemma Qltb_true (a b : Q) : Qltb a b = true <-> (a < b)%Q.
Proof.
  unfold Qltb. destruct (Qlt_le_dec a b) as [Hlt | Hle]; split; intros H.
  - exact Hlt.
  - reflexivity.
  - discriminate H.
  - exfalso. apply (Qlt_not_le _ _ H Hle).
Qed.

Lemma Qltb_false (a b : Q) : Qltb a b = false <-> (b <= a)%Q.
Proof.
  unfold Qltb. destruct (Qlt_le_dec a b) as [Hlt | Hle]; split; intros H.
  - discriminate H.
  - exfalso. apply (Qlt_not_le _ _ Hlt H).
  - exact Hle.
  - reflexivity.
Qed.

Lemma Qltb_comp (a a' b b' : Q) :
  (a == a')%Q -> (b == b')%Q -> Qltb a b = Qltb a' b'.
Proof.
  intros Ha Hb. destruct (Qltb a' b') eqn:E.
  - apply Qltb_true. apply Qltb_true in E. rewrite Ha, Hb. exact E.
  - apply Qltb_false. apply Qltb_false in E. rewrite Ha, Hb. exact E.
Qed.

Lemma Qeq_bool_neg_code (e c : Q) : (0 <= e)%Q -> (c < 0)%Q -> Qeq_bool e c = false.
Proof.
  intros He Hc. destruct (Qeq_bool e c) eqn:E; [| reflexivity].
  apply Qeq_bool_eq in E. rewrite E in He. exfalso. apply (Qlt_not_le _ _ Hc He).
Qed.

Lemma float_to_int_nonneg (q : Q) : (0 <= q)%Q -> float_to_int q = Qfloor q.
Proof.
  destruct q as [n d]. unfold Qle, float_to_int, Qfloor. simpl. intros H.
  apply Z.quot_div_nonneg; lia.
Qed.

Lemma zget_zset_eq {A : Type} (d : A) (buf : list A) (i : Z) (a : A) :
  0 <= i < Z.of_nat (length buf) -> zget d (zset buf i a) i = a.
Proof.
  intros [Hlo Hhi]. unfold zget, zset.
  destruct (Z.ltb_spec i 0) as [Hneg | _]; [lia |].
  rewrite list_lookup_insert_eq by lia. reflexivity.
Qed.

Lemma zget_zset_ne {A : Type} (d : A) (buf : list A) (i j : Z) (a : A) :
  i <> j -> zget d (zset buf i a) j = zget d buf j.
Proof.
  intros Hne. unfold zget, zset.
  destruct (Z.ltb_spec j 0) as [Hj | Hj]; [reflexivity |].
  destruct (Z.ltb_spec i 0) as [Hi | Hi]; [reflexivity |].
  rewrite list_lookup_insert_ne by lia. reflexivity.
Qed.

Lemma length_zset {A : Type} (buf : list A) (i : Z) (a : A) :
  length (zset buf i a) = length buf.
Proof.
  unfold zset. destruct (Z.ltb i 0); [reflexivity | apply length_insert].
Qed.

Lemma for_range_nil {St : Type} (lo hi : Z) (body : St -> Z -> St) (st : St) :
  hi <= lo -> for_range lo hi body st = st.
Proof.
  intros H. unfold for_range. rewrite seqZ_nil by lia. reflexivity.
Qed.

Lemma for_range_snoc {St : Type} (lo hi : Z) (body : St -> Z -> St) (st : St) :
  lo <= hi ->
  for_range lo (hi + 1) body st = body (for_range lo hi body st) hi.
Proof.
  intros H. unfold for_range.
  replace (hi + 1 - lo) with ((hi - lo) + 1) by lia.
  rewrite seqZ_app by lia. rewrite fold_left_app.
  replace (lo + (hi - lo)) with hi by lia.
  rewrite (seqZ_cons hi 1) by lia. rewrite (seqZ_nil _ (Z.pred 1)) by lia.
  reflexivity.
Qed.

(** Loop invariants: a property that holds at the loop entry and is kept by
    every iteration of the range holds at the exit. *)
Lemma for_range_invariant {St : Type} (P : Z -> St -> Prop)
  (lo hi : Z) (body : St -> Z -> St) (st : St) :
  lo <= hi ->
  P lo st ->
  (forall i s, lo <= i < hi -> P i s -> P (i + 1) (body s i)) ->
  P hi (for_range lo hi body st).
Proof.
  intros Hle H0 Hstep.
  assert (Hgen : forall n : nat, lo + Z.of_nat n <= hi ->
                   P (lo + Z.of_nat n) (for_range lo (lo + Z.of_nat n) body st)).
  { induction n as [| n IH]; intros Hn.
    - rewrite Z.add_0_r. rewrite for_range_nil by lia. exact H0.
    - replace (lo + Z.of_nat (S n)) with (lo + Z.of_nat n + 1) by lia.
      rewrite for_range_snoc by lia. apply Hstep; [lia |]. apply IH. lia. }
  specialize (Hgen (Z.to_nat (hi - lo))).
  replace (lo + Z.of_nat (Z.to_nat (hi - lo))) with hi in Hgen by lia.
  apply Hgen. lia.
Qed.

(** The same for a property that does not depend on the loop counter. *)
Lemma for_range_preserves {St : Type} (P : St -> Prop)
  (lo hi : Z) (body : St -> Z -> St) (st : St) :
  P st ->
  (forall i s, lo <= i < hi -> P s -> P (body s i)) ->
  P (for_range lo hi body st).
Proof.
  intros H0 Hstep. destruct (Z.le_gt_cases lo hi) as [Hle | Hgt].
  - apply (for_range_invariant (fun _ => P)); assumption.
  - rewrite for_range_nil by lia. exact H0.
Qed.

(** ** The observation update of one cell *)

(** When the cell is not skipped, [observeDepthUpdate] stores in the cell
    what [updateFromStereo] computes from the stereo result. *)
Lemma observeDepthUpdate_cell (dm : DepthMap) (coord : Z * Z) (idx : Z)
  (grads : list Q) (refFrame : Frame) :
  0 <= idx < Z.of_nat (length (currentDepthMap dm)) ->
  updateReferenceFrame dm (zget noHypothesis (currentDepthMap dm) idx) = Some refFrame ->
  wasGoodDuringTracking dm refFrame (fst coord) (snd coord) = true ->
  let target := zget noHypothesis (currentDepthMap dm) idx in
  let res :=
    updateFromStereo dm target (zget 0%Q grads idx) refFrame
      (updateStereo dm coord target refFrame) in
  zget noHypothesis (currentDepthMap (fst (observeDepthUpdate dm coord idx grads))) idx
  = fst res
  /\ snd (observeDepthUpdate dm coord idx grads) = snd res.
Proof.
  intros Hidx Href Hgood. cbv zeta. unfold observeDepthUpdate.
  rewrite Href, Hgood. simpl negb. cbv iota.
  destruct (updateFromStereo _ _ _ _ _) as [target' success]. simpl.
  split; [| reflexivity]. apply zget_zset_eq. exact Hidx.
Qed.

(** The branch of [updateFromStereo] taken on a successful, consistent
    stereo result. *)
Lemma updateFromStereo_success (dm : DepthMap) (target : DepthMapPixelHypothesis)
  (absGrad : Q) (refFrame : Frame) (r : StereoResult) :
  (0 <= error r)%Q ->
  (DIFF_FAC_OBSERVE cfg * (result_idepth r - idepth_smoothed target)
     * (result_idepth r - idepth_smoothed target)
   <= result_var r + idepth_var_smoothed target)%Q ->
  let id_var := (idepth_var target * SUCC_VAR_INC_FAC cfg)%Q in
  let w := (result_var r / (result_var r + id_var))%Q in
  let target1 :=
    set_idepth (UNZERO ((1 - w) * result_idepth r + w * idepth target)) target in
  let target2 :=
    if Qltb (id_var * w) (idepth_var target1)
    then set_idepth_var (id_var * w)%Q target1 else target1 in
  let bound :=
    (VALIDITY_COUNTER_MAX cfg + absGrad * VALIDITY_COUNTER_MAX_VARIABLE cfg / 255)%Q in
  let vc := validity_counter target + VALIDITY_COUNTER_INC cfg in
  let target3 :=
    set_validity_counter
      (if Qltb bound (inject_Z vc) then float_to_int bound else vc) target2 in
  let inc0 :=
    (inject_Z (numFramesTrackedOnThis (activeKeyFrame dm))
     / inject_Z (numMappedOnThis (activeKeyFrame dm) + 5))%Q in
  let inc1 := if Qltb inc0 3 then 3%Q else inc0 in
  let inc2 :=
    (inc1 + inject_Z (Z.rem (float_to_int (result_eplLength r * 10000)) 2))%Q in
  let inc3 :=
    if Qltb (result_eplLength r) ((5 # 10) * MIN_EPL_LENGTH_CROP cfg)
    then (inc2 * 3)%Q else inc2 in
  updateFromStereo dm target absGrad refFrame r
  = (if Qltb (result_eplLength r) (MIN_EPL_LENGTH_CROP cfg)
     then set_nextStereoFrameMinID
            (float_to_int (inject_Z (frame_id refFrame) + inc3)) target3
     else target3, true).
Proof.
  intros Herr Hcons. unfold updateFromStereo.
  rewrite !Qeq_bool_neg_code by (exact Herr || reflexivity).
  rewrite (proj2 (Qltb_false _ _) Hcons).
  cbv zeta.
  set (t1 := set_idepth _ target).
  set (v := (idepth_var target * SUCC_VAR_INC_FAC cfg
             * (result_var r
                / (result_var r + idepth_var target * SUCC_VAR_INC_FAC cfg)))%Q).
  assert (Hvc : validity_counter
                  (if Qltb v (idepth_var t1) then set_idepth_var v t1 else t1)
                = validity_counter target).
  { destruct (Qltb v (idepth_var t1)); reflexivity. }
  rewrite Hvc. reflexivity.
Qed.

(** The branch of [updateFromStereo] taken on the stereo code -2. *)
Lemma updateFromStereo_bad_match (dm : DepthMap) (target : DepthMapPixelHypothesis)
  (absGrad : Q) (refFrame : Frame) (r : StereoResult) :
  (error r == -2)%Q ->
  let vc := validity_counter target - VALIDITY_COUNTER_DEC cfg in
  let target1 :=
    set_idepth_var (idepth_var target * FAIL_VAR_INC_FAC cfg)%Q
      (set_nextStereoFrameMinID 0
         (set_validity_counter (if Z.ltb vc 0 then 0 else vc) target)) in
  updateFromStereo dm target absGrad refFrame r
  = (if Qltb (MAX_VAR cfg) (idepth_var target * FAIL_VAR_INC_FAC cfg)
     then set_blacklisted (blacklisted target - 1) (set_isValid false target1)
     else target1, false).
Proof.
  intros Herr. unfold updateFromStereo.
  assert (H5 : Qeq_bool (error r) (-5) = false).
  { destruct (Qeq_bool (error r) (-5)) eqn:E; [| reflexivity].
    apply Qeq_bool_eq in E. rewrite Herr in E. discriminate E. }
  assert (H1 : Qeq_bool (error r) (-1) = false).
  { destruct (Qeq_bool (error r) (-1)) eqn:E; [| reflexivity].
    apply Qeq_bool_eq in E. rewrite Herr in E. discriminate E. }
  assert (H2 : Qeq_bool (error r) (-2) = true).
  { apply Qeq_bool_iff. exact Herr. }
  rewrite H5, H1, H2. cbv zeta. simpl idepth_var. simpl blacklisted.
  destruct (Qltb _ _); reflexivity.
Qed.

Lemma Qlt_inject_floor (q : Q) (v : Z) : (q < inject_Z v)%Q <-> Qfloor q < v.
Proof.
  split; intros H.
  - apply Z.lt_nge. intros Hle.
    assert (Hq : (inject_Z v <= q)%Q).
    { apply Qle_trans with (inject_Z (Qfloor q)).
      - rewrite <- Zle_Qle. exact Hle.
      - apply Qfloor_le. }
    apply (Qlt_not_le _ _ H Hq).
  - apply Qlt_le_trans with (inject_Z (Qfloor q + 1)).
    + apply Qlt_floor.
    + rewrite <- Zle_Qle. lia.
Qed.

Lemma float_to_int_opp (q : Q) : float_to_int (- q) = - float_to_int q.
Proof.
  destruct q as [n d]. unfold float_to_int, Qopp. simpl.
  apply Z.quot_opp_l. discriminate.
Qed.

Lemma float_to_int_comp (p q : Q) : (p == q)%Q -> float_to_int p = float_to_int q.
Proof.
  intros Heq. destruct (Qlt_le_dec p 0) as [Hneg | Hpos].
  - assert (Hp : (0 <= - p)%Q) by lra.
    assert (Hq : (0 <= - q)%Q) by lra.
    pose proof (float_to_int_opp p) as Ep.
    pose proof (float_to_int_opp q) as Eq.
    rewrite !float_to_int_nonneg in Ep, Eq by assumption.
    assert (Hfl : Qfloor (- p) = Qfloor (- q)).
    { apply Qfloor_comp. rewrite Heq. reflexivity. }
    lia.
  - rewrite !float_to_int_nonneg by lra. apply Qfloor_comp. exact Heq.
Qed.

Lemma Qltb_max (a b : Q) : ((if Qltb b a then a else b) == Qmax a b)%Q.
Proof.
  destruct (Qltb b a) eqn:E.
  - apply Qltb_true in E. symmetry. apply Q.max_l. lra.
  - apply Qltb_false in E. symmetry. apply Q.max_r. exact E.
Qed.

Lemma Qltb_min (a b : Q) : ((if Qltb b a then b else a) == Qmin a b)%Q.
Proof.
  destruct (Qltb b a) eqn:E.
  - apply Qltb_true in E. symmetry. apply Q.min_r. lra.
  - apply Qltb_false in E. symmetry. apply Q.min_l. exact E.
Qed.

(** C3. On a successful stereo observation of an existing hypothesis (the
    stereo call returns a match error, that is a non-negative value, and the
    observation is consistent with the smoothed prior), [observeDepthUpdate]
    updates the cell exactly as follows: with [var' = idepth_var *
    SUCC_VAR_INC_FAC] and [w = result_var / (result_var + var')], the new
    [idepth] is [UNZERO ((1 - w) * result_idepth + w * idepth)], the new
    [idepth_var] is [min idepth_var (w * var')], and the validity counter is
    increased by [VALIDITY_COUNTER_INC] and saturated at
    [VALIDITY_COUNTER_MAX + gradient * VALIDITY_COUNTER_MAX_VARIABLE / 255]
    (the counter is an integer: when that bound is exceeded the counter
    becomes the bound converted to [int], which for a non-negative bound is
    the largest integer below it).  The cell stays valid and the call
    returns [true]. *)
Theorem observeDepthUpdate_success_kalman
  (dm : DepthMap) (coord : Z * Z) (idx : Z) (grads : list Q) (refFrame : Frame) :
  let target := zget noHypothesis (currentDepthMap dm) idx in
  let r := updateStereo dm coord target refFrame in
  let gradient := zget 0%Q grads idx in
  let var' := (idepth_var target * SUCC_VAR_INC_FAC cfg)%Q in
  let w := (result_var r / (result_var r + var'))%Q in
  let bound :=
    (VALIDITY_COUNTER_MAX cfg + gradient * VALIDITY_COUNTER_MAX_VARIABLE cfg / 255)%Q in
  let increased := validity_counter target + VALIDITY_COUNTER_INC cfg in
  let target' :=
    zget noHypothesis
      (currentDepthMap (fst (observeDepthUpdate dm coord idx grads))) idx in
  0 <= idx < Z.of_nat (length (currentDepthMap dm)) ->
  updateReferenceFrame dm target = Some refFrame ->
  wasGoodDuringTracking dm refFrame (fst coord) (snd coord) = true ->
  (0 <= error r)%Q ->
  (DIFF_FAC_OBSERVE cfg * (result_idepth r - idepth_smoothed target)
     * (result_idepth r - idepth_smoothed target)
   <= result_var r + idepth_var_smoothed target)%Q ->
  snd (observeDepthUpdate dm coord idx grads) = true
  /\ isValid target' = isValid target
  /\ idepth target' = UNZERO ((1 - w) * result_idepth r + w * idepth target)
  /\ (idepth_var target' == Qmin (idepth_var target) (w * var'))%Q
  /\ validity_counter target'
     = (if Qltb bound (inject_Z increased) then float_to_int bound else increased)
  /\ ((0 <= bound)%Q -> validity_counter target' = Z.min increased (Qfloor bound)).
Proof.
  intros target r gradient var' w bound increased target' Hidx Href Hgood Herr Hcons.
  destruct (observeDepthUpdate_cell dm coord idx grads refFrame Hidx Href Hgood)
    as [Hcell Hflag].
  fold target in Hcell, Hflag. fold r in Hcell, Hflag. fold gradient in Hcell, Hflag.
  fold target' in Hcell.
  rewrite (updateFromStereo_success dm target gradient refFrame r Herr Hcons)
    in Hcell, Hflag.
  simpl in Hcell, Hflag. fold var' in Hcell. fold w in Hcell.
  fold bound in Hcell. fold increased in Hcell.
  assert (Hvar :
    (idepth_var
       (if Qltb (var' * w)
                (idepth_var
                   (set_idepth (UNZERO ((1 - w) * result_idepth r + w * idepth target))
                      target))
        then set_idepth_var (var' * w)%Q
               (set_idepth (UNZERO ((1 - w) * result_idepth r + w * idepth target))
                  target)
        else set_idepth (UNZERO ((1 - w) * result_idepth r + w * idepth target)) target)
     == Qmin (idepth_var target) (w * var'))%Q).
  { simpl idepth_var at 2.
    pose proof (Qltb_min (idepth_var target) (var' * w)) as Hmin.
    destruct (Qltb (var' * w) (idepth_var target)); simpl.
    - etransitivity; [exact Hmin | apply Q.min_compat; [reflexivity | ring]].
    - etransitivity; [exact Hmin | apply Q.min_compat; [reflexivity | ring]]. }
  assert (Hvc : validity_counter target'
                = (if Qltb bound (inject_Z increased)
                   then float_to_int bound else increased)).
  { rewrite Hcell. destruct (Qltb (result_eplLength r) _); reflexivity. }
  split; [exact Hflag |].
  split.
  { rewrite Hcell.
    destruct (Qltb (result_eplLength r) _), (Qltb (var' * w) _); reflexivity. }
  split.
  { rewrite Hcell.
    destruct (Qltb (result_eplLength r) _), (Qltb (var' * w) _); reflexivity. }
  split.
  { rewrite <- Hvar. rewrite Hcell.
    destruct (Qltb (result_eplLength r) _); reflexivity. }
  split; [exact Hvc |].
  intros Hbound. rewrite Hvc.
  destruct (Qltb bound (inject_Z increased)) eqn:E.
  - apply Qltb_true in E. apply Qlt_inject_floor in E.
    rewrite float_to_int_nonneg by exact Hbound. lia.
  - apply Qltb_false in E.
    assert (Hge : ~ Qfloor bound < increased).
    { intros Hlt. apply Qlt_inject_floor in Hlt. apply (Qlt_not_le _ _ Hlt E). }
    lia.
Qed.

(** C4, as the code has it.  Whenever [observeDepthUpdate] receives the
    stereo code -2 for a cell, it decrements the validity counter by
    [VALIDITY_COUNTER_DEC] without letting it fall below zero, resets
    [nextStereoFrameMinID] to zero, multiplies [idepth_var] by
    [FAIL_VAR_INC_FAC], and, exactly when the inflated variance exceeds
    [MAX_VAR], sets the cell invalid and decrements its blacklist counter;
    otherwise validity flag and blacklist counter are left as they are.
    The call returns [false]. *)
Theorem observeDepthUpdate_bad_match
  (dm : DepthMap) (coord : Z * Z) (idx : Z) (grads : list Q) (refFrame : Frame) :
  let target := zget noHypothesis (currentDepthMap dm) idx in
  let r := updateStereo dm coord target refFrame in
  let inflated := (idepth_var target * FAIL_VAR_INC_FAC cfg)%Q in
  let target' :=
    zget noHypothesis
      (currentDepthMap (fst (observeDepthUpdate dm coord idx grads))) idx in
  0 <= idx < Z.of_nat (length (currentDepthMap dm)) ->
  updateReferenceFrame dm target = Some refFrame ->
  wasGoodDuringTracking dm refFrame (fst coord) (snd coord) = true ->
  (error r == -2)%Q ->
  snd (observeDepthUpdate dm coord idx grads) = false
  /\ validity_counter target' = Z.max 0 (validity_counter target - VALIDITY_COUNTER_DEC cfg)
  /\ nextStereoFrameMinID target' = 0
  /\ idepth_var target' = inflated
  /\ idepth target' = idepth target
  /\ ((MAX_VAR cfg < inflated)%Q ->
      isValid target' = false /\ blacklisted target' = blacklisted target - 1)
  /\ ((inflated <= MAX_VAR cfg)%Q ->
      isValid target' = isValid target /\ blacklisted target' = blacklisted target).
Proof.
  intros target r inflated target' Hidx Href Hgood Herr.
  destruct (observeDepthUpdate_cell dm coord idx grads refFrame Hidx Href Hgood)
    as [Hcell Hflag].
  fold target in Hcell, Hflag. fold r in Hcell, Hflag. fold target' in Hcell.
  rewrite (updateFromStereo_bad_match dm target _ refFrame r Herr) in Hcell, Hflag.
  simpl in Hcell, Hflag. fold inflated in Hcell.
  assert (Hmax : (if Z.ltb (validity_counter target - VALIDITY_COUNTER_DEC cfg) 0
                  then 0 else validity_counter target - VALIDITY_COUNTER_DEC cfg)
                 = Z.max 0 (validity_counter target - VALIDITY_COUNTER_DEC cfg)).
  { destruct (Z.ltb_spec (validity_counter target - VALIDITY_COUNTER_DEC cfg) 0); lia. }
  rewrite Hmax in Hcell.
  split; [exact Hflag |].
  rewrite Hcell.
  destruct (Qltb (MAX_VAR cfg) inflated) eqn:E; simpl.
  - apply Qltb_true in E. repeat (split; [reflexivity |]). split.
    + intros _. split; reflexivity.
    + intros Hle. exfalso. apply (Qlt_not_le _ _ E Hle).
  - apply Qltb_false in E. repeat (split; [reflexivity |]). split.
    + intros Hlt. exfalso. apply (Qlt_not_le _ _ Hlt E).
    + intros _. split; reflexivity.
Qed.

(** C5, as the code has it.  For every successful stereo observation whose
    [result_eplLength] is below [MIN_EPL_LENGTH_CROP], the cell's
    [nextStereoFrameMinID] is set to the reference frame's id plus [inc]
    (converted to the integer type of the field), where the parity jitter is
    added BEFORE the tripling: [inc = (max 3 (framesTracked /
    (framesMapped + 5)) + jitter) * 3] when [result_eplLength < 1/2 *
    MIN_EPL_LENGTH_CROP] and [inc = max 3 (...) + jitter] otherwise, with
    [jitter = (int)(result_eplLength * 10000) % 2].  When the epipolar
    length is not below [MIN_EPL_LENGTH_CROP] the field is left unchanged. *)
Theorem observeDepthUpdate_success_skip
  (dm : DepthMap) (coord : Z * Z) (idx : Z) (grads : list Q) (refFrame : Frame) :
  let target := zget noHypothesis (currentDepthMap dm) idx in
  let r := updateStereo dm coord target refFrame in
  let epl := result_eplLength r in
  let jitter := Z.rem (float_to_int (epl * 10000)) 2 in
  let base :=
    Qmax 3 (inject_Z (numFramesTrackedOnThis (activeKeyFrame dm))
            / inject_Z (numMappedOnThis (activeKeyFrame dm) + 5)) in
  let inc :=
    ((base + inject_Z jitter)
     * (if Qltb epl ((1 # 2) * MIN_EPL_LENGTH_CROP cfg) then 3 else 1))%Q in
  let target' :=
    zget noHypothesis
      (currentDepthMap (fst (observeDepthUpdate dm coord idx grads))) idx in
  0 <= idx < Z.of_nat (length (currentDepthMap dm)) ->
  updateReferenceFrame dm target = Some refFrame ->
  wasGoodDuringTracking dm refFrame (fst coord) (snd coord) = true ->
  (0 <= error r)%Q ->
  (DIFF_FAC_OBSERVE cfg * (result_idepth r - idepth_smoothed target)
     * (result_idepth r - idepth_smoothed target)
   <= result_var r + idepth_var_smoothed target)%Q ->
  ((epl < MIN_EPL_LENGTH_CROP cfg)%Q ->
   nextStereoFrameMinID target' = float_to_int (inject_Z (frame_id refFrame) + inc))
  /\ ((MIN_EPL_LENGTH_CROP cfg <= epl)%Q ->
      nextStereoFrameMinID target' = nextStereoFrameMinID target).
Proof.
  intros target r epl jitter base inc target' Hidx Href Hgood Herr Hcons.
  destruct (observeDepthUpdate_cell dm coord idx grads refFrame Hidx Href Hgood)
    as [Hcell _].
  fold target in Hcell. fold r in Hcell. fold target' in Hcell.
  rewrite (updateFromStereo_success dm target _ refFrame r Herr Hcons) in Hcell.
  simpl in Hcell. fold epl in Hcell. fold jitter in Hcell.
  split; intros Hepl.
  - rewrite (proj2 (Qltb_true _ _) Hepl) in Hcell. rewrite Hcell. simpl.
    apply float_to_int_comp. apply Qplus_comp; [reflexivity |].
    unfold inc, base.
    pose proof (Qltb_max 3
                  (inject_Z (numFramesTrackedOnThis (activeKeyFrame dm))
                   / inject_Z (numMappedOnThis (activeKeyFrame dm) + 5))) as Hmax.
    rewrite <- Hmax.
    rewrite (Qltb_comp epl epl ((5 # 10) * MIN_EPL_LENGTH_CROP cfg)
               ((1 # 2) * MIN_EPL_LENGTH_CROP cfg)) by (reflexivity || ring).
    destruct (Qltb epl ((1 # 2) * MIN_EPL_LENGTH_CROP cfg)); ring.
  - rewrite (proj2 (Qltb_false _ _) Hepl) in Hcell. rewrite Hcell.
    unfold set_validity_counter. simpl nextStereoFrameMinID.
    destruct (Qltb (idepth_var target * SUCC_VAR_INC_FAC cfg * _) _); reflexivity.
Qed.

(** C8. In [doLineStereo], whenever the inverse depth [idnew_best_match] of
    the selected match is negative and negative inverse depths are not
    enabled, the function returns the code -2 (and leaves its reference
    parameters alone); when they are enabled, a negative value does not
    cause a rejection: the function returns the refined match error and
    hands out the negative inverse depth as [result_idepth]. *)
Theorem doLineStereo_negative_idepth
  (dm : DepthMap) (coord : Z * Z) (min_idepth prior_idepth max_idepth : Q)
  (referenceFrame : Frame) (out0 : Q * Q * Q) (s : EplScan) (m : RefinedMatch) :
  let id_new := fst (bestMatchDepth dm referenceFrame s m) in
  let res :=
    doLineStereo dm coord min_idepth prior_idepth max_idepth referenceFrame out0 in
  epipolarLineSearch dm coord min_idepth prior_idepth max_idepth referenceFrame
  = SearchDone s ->
  refineMatch s = inr m ->
  (id_new < 0)%Q ->
  (allowNegativeIdepths cfg = false ->
   error res = (-2)%Q
   /\ (result_idepth res, result_var res, result_eplLength res) = out0)
  /\ (allowNegativeIdepths cfg = true ->
      error res = refined_error m
      /\ result_idepth res = id_new
      /\ result_eplLength res = eplLength s).
Proof.
  intros id_new res Hsearch Hrefine Hneg.
  unfold res, doLineStereo. rewrite Hsearch, Hrefine.
  unfold id_new in *.
  destruct (bestMatchDepth dm referenceFrame s m) as [idnew alpha]. simpl in Hneg.
  rewrite (proj2 (Qltb_true _ _) Hneg).
  split; intros Hallow; rewrite Hallow; simpl.
  - split; [reflexivity |]. destruct out0 as [[a b] c]. reflexivity.
  - repeat split; reflexivity.
Qed.

(** ** Propagation of one source pixel *)

Lemma withinNewImage_true (dm : DepthMap) (u_new v_new : Q) :
  withinNewImage dm u_new v_new = true <->
  ((21 # 10) < u_new /\ (21 # 10) < v_new
   /\ u_new < inject_Z (width dm) - (31 # 10)
   /\ v_new < inject_Z (height dm) - (31 # 10))%Q.
Proof.
  unfold withinNewImage. rewrite !andb_true_iff, !Qltb_true.
  split; [intros [[[H1 H2] H3] H4] | intros (H1 & H2 & H3 & H4)]; repeat split; assumption.
Qed.

(** C2, as the code has it.  During propagation, for every valid source
    cell whose projected coordinates [(u', v')] are not strictly inside the
    rectangle [2.1 < u' < W - 3.1], [2.1 < v' < H - 3.1] (in particular
    whenever they fall outside [2.1, W-3.1] x [2.1, H-3.1]), the hypothesis
    is dropped: the grid being filled is left exactly as it was, nothing is
    written to any destination cell for that source.  The sign of [p.z] is
    not tested. *)
Theorem propagatePixel_outside_image (dm : DepthMap) (new_keyframe : Frame)
  (y : Z) (other : list DepthMapPixelHypothesis) (x : Z) :
  let source := zget noHypothesis (currentDepthMap dm) (x + y * width dm) in
  let warped := warpPixel dm new_keyframe source x y in
  let u_new := snd (fst warped) in
  let v_new := snd warped in
  isValid source = true ->
  ~ ((21 # 10) < u_new /\ (21 # 10) < v_new
     /\ u_new < inject_Z (width dm) - (31 # 10)
     /\ v_new < inject_Z (height dm) - (31 # 10))%Q ->
  propagatePixel dm new_keyframe y other x = other.
Proof.
  intros source warped u_new v_new Hvalid Hout.
  unfold propagatePixel. fold source. rewrite Hvalid. simpl negb. cbv iota.
  fold warped. destruct warped as [[[pn new_idepth] u] v] eqn:Ew.
  simpl in u_new, v_new.
  destruct (withinNewImage dm u v) eqn:Ein; [| reflexivity].
  apply withinNewImage_true in Ein. exfalso. apply Hout. exact Ein.
Qed.

(** ** Passes over the current grid *)

Lemma frameOf_width (dm dm' : DepthMap) : frameOf dm = frameOf dm' -> width dm = width dm'.
Proof. intros H. apply (f_equal width) in H. exact H. Qed.

Lemma frameOf_otherDepthMap (dm dm' : DepthMap) :
  frameOf dm = frameOf dm' -> otherDepthMap dm = otherDepthMap dm'.
Proof. intros H. apply (f_equal otherDepthMap) in H. exact H. Qed.

Lemma frameOf_withoutBuffers (dm dm' : DepthMap) :
  frameOf dm = frameOf dm' -> withoutBuffers dm = withoutBuffers dm'.
Proof.
  intros H. change (withoutBuffers dm) with (withoutBuffers (frameOf dm)).
  rewrite H. reflexivity.
Qed.

Lemma pixelLocal_keep (dm : DepthMap) (idx : Z) :
  frameOf dm = frameOf dm
  /\ length (currentDepthMap dm) = length (currentDepthMap dm)
  /\ forall j : Z, j <> idx ->
       zget noHypothesis (currentDepthMap dm) j = zget noHypothesis (currentDepthMap dm) j.
Proof. repeat split. Qed.

Lemma pixelLocal_store (dm : DepthMap) (idx : Z) (h : DepthMapPixelHypothesis) :
  frameOf (storeCurrent dm idx h) = frameOf dm
  /\ length (currentDepthMap (storeCurrent dm idx h)) = length (currentDepthMap dm)
  /\ forall j : Z, j <> idx ->
       zget noHypothesis (currentDepthMap (storeCurrent dm idx h)) j
       = zget noHypothesis (currentDepthMap dm) j.
Proof.
  split; [reflexivity |]. split.
  - simpl. apply length_zset.
  - intros j Hj. simpl. apply zget_zset_ne. congruence.
Qed.

(** Storing the same value in two grids that agree on a cell keeps them
    in agreement on that cell. *)
Lemma storeCurrent_same_cell (dm dm' : DepthMap) (idx : Z) (h : DepthMapPixelHypothesis) :
  length (currentDepthMap dm) = length (currentDepthMap dm') ->
  zget noHypothesis (currentDepthMap dm) idx
  = zget noHypothesis (currentDepthMap dm') idx ->
  zget noHypothesis (currentDepthMap (storeCurrent dm idx h)) idx
  = zget noHypothesis (currentDepthMap (storeCurrent dm' idx h)) idx.
Proof.
  intros Hl Hc. simpl.
  destruct (Z.ltb_spec idx 0) as [Hneg | Hpos].
  - unfold zget, zset. destruct (Z.ltb_spec idx 0); [reflexivity | lia].
  - destruct (Z.lt_ge_cases idx (Z.of_nat (length (currentDepthMap dm)))) as [Hin | Hout].
    + rewrite !zget_zset_eq by lia. reflexivity.
    + unfold zset. destruct (Z.ltb_spec idx 0); [lia |].
      rewrite !list_insert_ge by lia. exact Hc.
Qed.

Section PixelPass.

Variable body : Z -> DepthMap -> Z -> DepthMap.
Hypothesis body_local : pixelLocal body.
Variables xlo xoff : Z.

(** An invariant of the states with the frame of [dm0] is kept by a row, and
    so are the frame and the size of the grid. *)
Lemma pixelRow_invariant (P : DepthMap -> Prop) (dm0 : DepthMap) (y : Z) (dm : DepthMap) :
  frameOf dm = frameOf dm0 ->
  length (currentDepthMap dm) = length (currentDepthMap dm0) ->
  P dm ->
  (forall x dm', xlo <= x < width dm0 - xoff ->
     frameOf dm' = frameOf dm0 ->
     length (currentDepthMap dm') = length (currentDepthMap dm0) ->
     P dm' -> P (body y dm' x)) ->
  let dm1 := for_range xlo (width dm - xoff) (body y) dm in
  P dm1 /\ frameOf dm1 = frameOf dm0
  /\ length (currentDepthMap dm1) = length (currentDepthMap dm0).
Proof using body_local.
  intros Hframe Hlen HP Hstep. cbv zeta.
  rewrite (frameOf_width _ _ Hframe).
  apply (for_range_preserves
           (fun d => P d /\ frameOf d = frameOf dm0
                     /\ length (currentDepthMap d) = length (currentDepthMap dm0))).
  - auto.
  - intros x d Hx (HPd & Hfd & Hld).
    destruct (body_local y d x) as (Hf & Hl & _).
    split; [apply Hstep; assumption |]. split; congruence.
Qed.

Lemma pixelPass_invariant (P : DepthMap -> Prop) (yMin yMax : Z) (dm0 : DepthMap) :
  P dm0 ->
  (forall y x dm', yMin <= y < yMax -> xlo <= x < width dm0 - xoff ->
     frameOf dm' = frameOf dm0 ->
     length (currentDepthMap dm') = length (currentDepthMap dm0) ->
     P dm' -> P (body y dm' x)) ->
  let dm1 := pixelPass xlo xoff body yMin yMax dm0 in
  P dm1 /\ frameOf dm1 = frameOf dm0
  /\ length (currentDepthMap dm1) = length (currentDepthMap dm0).
Proof using body_local.
  intros HP Hstep. cbv zeta. unfold pixelPass.
  apply (for_range_preserves
           (fun d => P d /\ frameOf d = frameOf dm0
                     /\ length (currentDepthMap d) = length (currentDepthMap dm0))).
  - auto.
  - intros y d Hy (HPd & Hfd & Hld).
    apply (pixelRow_invariant P dm0 y d Hfd Hld HPd).
    intros x dm' Hx. apply Hstep; assumption.
Qed.

(** A cell that is not the cell of a pixel of the pass is left as it was. *)
Lemma pixelPass_untouched (yMin yMax : Z) (dm0 : DepthMap) (j : Z) :
  (forall x y, yMin <= y < yMax -> xlo <= x < width dm0 - xoff ->
     j <> x + y * width dm0) ->
  zget noHypothesis (currentDepthMap (pixelPass xlo xoff body yMin yMax dm0)) j
  = zget noHypothesis (currentDepthMap dm0) j.
Proof using body_local.
  intros Hj.
  apply (pixelPass_invariant
           (fun d => zget noHypothesis (currentDepthMap d) j
                     = zget noHypothesis (currentDepthMap dm0) j)).
  - reflexivity.
  - intros y x dm' Hy Hx Hf Hl HP.
    destruct (body_local y dm' x) as (_ & _ & Hother).
    rewrite Hother; [exact HP |].
    rewrite (frameOf_width _ _ Hf). apply Hj; assumption.
Qed.

Hypothesis body_determined : cellDetermined body.

(** The cell of a pixel of the pass ends as the body makes it from the
    initial state. *)
Lemma pixelPass_cell (yMin yMax : Z) (dm0 : DepthMap) (x0 y0 : Z) :
  0 <= xlo -> 0 <= xoff ->
  yMin <= y0 < yMax -> xlo <= x0 < width dm0 - xoff ->
  zget noHypothesis (currentDepthMap (pixelPass xlo xoff body yMin yMax dm0))
    (x0 + y0 * width dm0)
  = zget noHypothesis (currentDepthMap (body y0 dm0 x0)) (x0 + y0 * width dm0).
Proof using body_local body_determined.
  intros Hxlo Hxoff Hy0 Hx0.
  set (idx0 := x0 + y0 * width dm0).
  set (c0 := zget noHypothesis (currentDepthMap dm0) idx0).
  set (c1 := zget noHypothesis (currentDepthMap (body y0 dm0 x0)) idx0).
  set (St := fun (k k0 : Z) (d : DepthMap) =>
               frameOf d = frameOf dm0
               /\ length (currentDepthMap d) = length (currentDepthMap dm0)
               /\ zget noHypothesis (currentDepthMap d) idx0
                  = (if Z.leb k k0 then c0 else c1)).
  assert (Hrow_other : forall y d, y <> y0 -> frameOf d = frameOf dm0 ->
            length (currentDepthMap d) = length (currentDepthMap dm0) ->
            let d1 := for_range xlo (width d - xoff) (body y) d in
            frameOf d1 = frameOf dm0
            /\ length (currentDepthMap d1) = length (currentDepthMap dm0)
            /\ zget noHypothesis (currentDepthMap d1) idx0
               = zget noHypothesis (currentDepthMap d) idx0).
  { intros y d Hy Hf Hl. cbv zeta. rewrite (frameOf_width _ _ Hf).
    apply (for_range_preserves
             (fun d' => frameOf d' = frameOf dm0
                        /\ length (currentDepthMap d') = length (currentDepthMap dm0)
                        /\ zget noHypothesis (currentDepthMap d') idx0
                           = zget noHypothesis (currentDepthMap d) idx0)).
    - auto.
    - intros x d' Hx (Hf' & Hl' & Hc').
      destruct (body_local y d' x) as (Hf2 & Hl2 & Hother).
      split; [congruence |]. split; [congruence |].
      rewrite Hother; [exact Hc' |].
      rewrite (frameOf_width _ _ Hf'). unfold idx0. nia. }
  assert (Hrow_own : forall d, frameOf d = frameOf dm0 ->
            length (currentDepthMap d) = length (currentDepthMap dm0) ->
            zget noHypothesis (currentDepthMap d) idx0 = c0 ->
            let d1 := for_range xlo (width d - xoff) (body y0) d in
            frameOf d1 = frameOf dm0
            /\ length (currentDepthMap d1) = length (currentDepthMap dm0)
            /\ zget noHypothesis (currentDepthMap d1) idx0 = c1).
  { intros d Hf Hl Hc. cbv zeta. rewrite (frameOf_width _ _ Hf).
    assert (Hinv : St (width dm0 - xoff) x0
                     (for_range xlo (width dm0 - xoff) (body y0) d)).
    { apply (for_range_invariant (fun k => St k x0)).
      - lia.
      - unfold St. split; [exact Hf |]. split; [exact Hl |].
        destruct (Z.leb_spec xlo x0); [exact Hc | lia].
      - unfold St. intros x d' Hx (Hf' & Hl' & Hc').
        destruct (body_local y0 d' x) as (Hf2 & Hl2 & Hother).
        split; [congruence |]. split; [congruence |].
        destruct (Z.eq_dec x x0) as [-> | Hne].
        + destruct (Z.leb_spec x0 x0); [| lia].
          destruct (Z.leb_spec (x0 + 1) x0); [lia |].
          unfold c1, idx0. rewrite <- (frameOf_width _ _ Hf').
          apply body_determined; [exact Hf' | exact Hl' |].
          rewrite (frameOf_width _ _ Hf'). fold idx0. rewrite Hc'. reflexivity.
        + rewrite Hother by (rewrite (frameOf_width _ _ Hf'); unfold idx0; nia).
          rewrite Hc'.
          destruct (Z.leb_spec x x0), (Z.leb_spec (x + 1) x0); (reflexivity || lia). }
    unfold St in Hinv. destruct Hinv as (Hf1 & Hl1 & Hc1).
    split; [exact Hf1 |]. split; [exact Hl1 |].
    rewrite Hc1. destruct (Z.leb_spec (width dm0 - xoff) x0); [lia | reflexivity]. }
  assert (Hinv : St yMax y0 (pixelPass xlo xoff body yMin yMax dm0)).
  { unfold pixelPass. apply (for_range_invariant (fun k => St k y0)).
    - lia.
    - unfold St. split; [reflexivity |]. split; [reflexivity |].
      destruct (Z.leb_spec yMin y0); [reflexivity | lia].
    - unfold St. intros y d Hy (Hf & Hl & Hc).
      destruct (Z.eq_dec y y0) as [-> | Hne].
      + destruct (Z.leb_spec y0 y0); [| lia].
        destruct (Z.leb_spec (y0 + 1) y0); [lia |].
        apply Hrow_own; assumption.
      + destruct (Hrow_other y d Hne Hf Hl) as (Hf1 & Hl1 & Hc1).
        split; [exact Hf1 |]. split; [exact Hl1 |]. rewrite Hc1, Hc.
        destruct (Z.leb_spec y y0), (Z.leb_spec (y + 1) y0); (reflexivity || lia). }
  unfold St in Hinv. destruct Hinv as (_ & _ & Hc). rewrite Hc.
  destruct (Z.leb_spec yMax y0); [lia | reflexivity].
Qed.

End PixelPass.

(** ** The validity integral buffer *)

(** Induction on the upper end of a range. *)
Lemma range_ind (lo : Z) (P : Z -> Prop) :
  P lo -> (forall m, lo <= m -> P m -> P (m + 1)) -> forall hi, lo <= hi -> P hi.
Proof.
  intros H0 Hstep hi Hle.
  assert (Hgen : forall n : nat, P (lo + Z.of_nat n)).
  { induction n as [| n IH].
    - rewrite Z.add_0_r. exact H0.
    - replace (lo + Z.of_nat (S n)) with (lo + Z.of_nat n + 1) by lia.
      apply Hstep; [lia | exact IH]. }
  replace hi with (lo + Z.of_nat (Z.to_nat (hi - lo))) by lia. apply Hgen.
Qed.

Lemma sumZ_nil (lo hi : Z) (f : Z -> Z) : hi <= lo -> sumZ lo hi f = 0.
Proof. intros H. unfold sumZ. apply for_range_nil. exact H. Qed.

Lemma sumZ_snoc (lo hi : Z) (f : Z -> Z) :
  lo <= hi -> sumZ lo (hi + 1) f = sumZ lo hi f + f hi.
Proof. intros H. unfold sumZ. rewrite for_range_snoc by exact H. reflexivity. Qed.

Lemma sumZ_ext (lo hi : Z) (f g : Z -> Z) :
  (forall i, lo <= i < hi -> f i = g i) -> sumZ lo hi f = sumZ lo hi g.
Proof.
  destruct (Z.le_gt_cases lo hi) as [Hle | Hgt].
  - revert hi Hle.
    apply (range_ind lo
             (fun hi => (forall i, lo <= i < hi -> f i = g i) ->
                        sumZ lo hi f = sumZ lo hi g)).
    + intros _. rewrite !sumZ_nil by lia. reflexivity.
    + intros m Hm IH Hfg. rewrite !sumZ_snoc by exact Hm.
      rewrite IH by (intros i Hi; apply Hfg; lia).
      rewrite Hfg by lia. reflexivity.
  - intros _. rewrite !sumZ_nil by lia. reflexivity.
Qed.

Lemma sumZ_split (lo mid hi : Z) (f : Z -> Z) :
  lo <= mid -> mid <= hi -> sumZ lo hi f = sumZ lo mid f + sumZ mid hi f.
Proof.
  intros Hlo Hhi. revert hi Hhi.
  apply (range_ind mid (fun hi => sumZ lo hi f = sumZ lo mid f + sumZ mid hi f)).
  - rewrite (sumZ_nil mid mid) by lia. lia.
  - intros m Hm IH.
    rewrite (sumZ_snoc lo m) by lia. rewrite (sumZ_snoc mid m) by lia. lia.
Qed.

Lemma sumZ_sub (lo hi : Z) (f g : Z -> Z) :
  sumZ lo hi f - sumZ lo hi g = sumZ lo hi (fun i => f i - g i).
Proof.
  destruct (Z.le_gt_cases lo hi) as [Hle | Hgt].
  - revert hi Hle.
    apply (range_ind lo
             (fun hi => sumZ lo hi f - sumZ lo hi g = sumZ lo hi (fun i => f i - g i))).
    + rewrite !sumZ_nil by lia. reflexivity.
    + intros m Hm IH. rewrite !sumZ_snoc by exact Hm. lia.
  - rewrite !sumZ_nil by lia. reflexivity.
Qed.

(** The window sum, from the prefix sums of the rectangle. *)
Lemma rectPrefixSum_window (g : list DepthMapPixelHypothesis) (W x y : Z) :
  3 <= x -> 3 <= y ->
  rectPrefixSum g W (x + 2) (y + 2) - rectPrefixSum g W (x - 3) (y + 2)
  - rectPrefixSum g W (x + 2) (y - 3) + rectPrefixSum g W (x - 3) (y - 3)
  = windowValiditySum g W x y.
Proof.
  intros Hx Hy. unfold rectPrefixSum, windowValiditySum.
  replace (y + 2 + 1) with (y + 3) by lia.
  replace (y - 3 + 1) with (y - 2) by lia.
  rewrite (sumZ_split 0 (y - 2) (y + 3) (fun y' => rowPrefixSum g W (x + 2) y')) by lia.
  rewrite (sumZ_split 0 (y - 2) (y + 3) (fun y' => rowPrefixSum g W (x - 3) y')) by lia.
  transitivity
    (sumZ (y - 2) (y + 3) (fun y' => rowPrefixSum g W (x + 2) y')
     - sumZ (y - 2) (y + 3) (fun y' => rowPrefixSum g W (x - 3) y')); [lia |].
  rewrite sumZ_sub. apply sumZ_ext. intros y' _. unfold rowPrefixSum.
  replace (x + 2 + 1) with (x + 3) by lia.
  replace (x - 3 + 1) with (x - 2) by lia.
  rewrite (sumZ_split 0 (x - 2) (x + 3)) by lia. lia.
Qed.

(** The row pass on one row. *)
Lemma integralRow_spec (dm : DepthMap) (y : Z) (buf : list Z) :
  0 <= width dm -> 0 <= y -> (y + 1) * width dm <= Z.of_nat (length buf) ->
  let buf' := snd (for_range 0 (width dm) (integralRowStep dm y) (0, buf)) in
  length buf' = length buf
  /\ (forall x, 0 <= x < width dm ->
        zget 0 buf' (x + y * width dm)
        = rowPrefixSum (currentDepthMap dm) (width dm) x y)
  /\ (forall j, ~ (y * width dm <= j < (y + 1) * width dm) ->
        zget 0 buf' j = zget 0 buf j).
Proof.
  intros HW Hy Hlen. cbv zeta.
  set (g := currentDepthMap dm). set (W := width dm) in *.
  pose (Inv := fun (k : Z) (st : Z * list Z) =>
       fst st = sumZ 0 k (fun x' => cellValidity g (x' + y * W))
       /\ length (snd st) = length buf
       /\ (forall x, 0 <= x < k ->
             zget 0 (snd st) (x + y * W) = rowPrefixSum g W x y)
       /\ (forall j, ~ (y * W <= j < y * W + k) -> zget 0 (snd st) j = zget 0 buf j)).
  assert (Hinv : Inv W (for_range 0 W (integralRowStep dm y) (0, buf))).
  { apply (for_range_invariant Inv); unfold Inv.
    - exact HW.
    - simpl. rewrite sumZ_nil by lia. repeat split; intros; lia || reflexivity.
    - intros k [s b] Hk (Hs & Hl & Hrow & Hout). simpl in Hs, Hl, Hrow, Hout.
      unfold integralRowStep. fold g. fold W.
      assert (Hsum : (if isValid (zget noHypothesis g (k + y * W))
                      then s + validity_counter (zget noHypothesis g (k + y * W))
                      else s)
                     = sumZ 0 (k + 1) (fun x' => cellValidity g (x' + y * W))).
      { rewrite sumZ_snoc by lia. rewrite <- Hs. unfold cellValidity.
        destruct (isValid (zget noHypothesis g (k + y * W))); lia. }
      rewrite Hsum. simpl. split; [reflexivity |].
      split; [rewrite length_zset; exact Hl |]. split.
      + intros x Hx. destruct (Z.eq_dec x k) as [-> | Hne].
        * rewrite zget_zset_eq by nia. reflexivity.
        * rewrite zget_zset_ne by lia. apply Hrow. lia.
      + intros j Hj. rewrite zget_zset_ne by lia. apply Hout. lia. }
  unfold Inv in Hinv. simpl in Hinv. destruct Hinv as (_ & Hl & Hrow & Hout).
  split; [exact Hl |]. split; [exact Hrow |].
  intros j Hj. apply Hout. lia.
Qed.

(** The row pass on all the rows. *)
Lemma buildRegIntegralBufferRow1_spec (dm : DepthMap) (buf : list Z) :
  0 <= width dm -> 0 <= height dm ->
  height dm * width dm <= Z.of_nat (length buf) ->
  let buf' := buildRegIntegralBufferRow1 dm 0 (height dm) buf in
  length buf' = length buf
  /\ forall x y, 0 <= x < width dm -> 0 <= y < height dm ->
       zget 0 buf' (x + y * width dm)
       = rowPrefixSum (currentDepthMap dm) (width dm) x y.
Proof.
  intros HW HH Hlen. cbv zeta. unfold buildRegIntegralBufferRow1.
  set (g := currentDepthMap dm). set (W := width dm) in *.
  pose (Inv := fun (k : Z) (b : list Z) =>
       length b = length buf
       /\ forall x y, 0 <= x < W -> 0 <= y < k ->
            zget 0 b (x + y * W) = rowPrefixSum g W x y).
  assert (Hinv : Inv (height dm)
      (for_range 0 (height dm)
         (fun buf y => snd (for_range 0 W (integralRowStep dm y) (0, buf))) buf)).
  { apply (for_range_invariant Inv); unfold Inv.
    - exact HH.
    - split; [reflexivity |]. intros; lia.
    - intros k b Hk (Hl & Hrows).
      destruct (integralRow_spec dm k b) as (Hl' & Hrow & Hout).
      + exact HW.
      + lia.
      + fold W. rewrite Hl. nia.
      + fold W in Hl', Hrow, Hout. fold g in Hrow.
        split; [congruence |].
        intros x y Hx Hy. destruct (Z.eq_dec y k) as [-> | Hne].
        * apply Hrow. exact Hx.
        * rewrite Hout by nia. apply Hrows; lia. }
  exact Hinv.
Qed.

(** The whole buffer: the entry of [(x, y)] is the sum over the rectangle
    of columns [0..x] and rows [0..y]. *)
Lemma buildRegIntegralBuffer_spec (dm : DepthMap) :
  0 < width dm -> 0 < height dm ->
  height dm * width dm <= Z.of_nat (length (validityIntegralBuffer dm)) ->
  forall x y, 0 <= x < width dm -> 0 <= y < height dm ->
    zget 0 (validityIntegralBuffer (buildRegIntegralBuffer dm)) (x + y * width dm)
    = rectPrefixSum (currentDepthMap dm) (width dm) x y.
Proof.
  intros HW HH Hlen. unfold buildRegIntegralBuffer. simpl.
  destruct (buildRegIntegralBufferRow1_spec dm (validityIntegralBuffer dm))
    as (Hl0 & Hrows); [lia | lia | exact Hlen |].
  set (buf0 := buildRegIntegralBufferRow1 dm 0 (height dm) (validityIntegralBuffer dm))
    in *.
  set (g := currentDepthMap dm) in *. set (W := width dm) in *.
  set (H := height dm) in *.
  pose (Inv := fun (k : Z) (b : list Z) =>
       length b = length buf0
       /\ forall x y, 0 <= x < W -> 0 <= y < H ->
            zget 0 b (x + y * W)
            = (if Z.ltb (x + y * W) k then rectPrefixSum g W x y
               else rowPrefixSum g W x y)).
  assert (Hinv : Inv (H * W) (for_range W (H * W) (integralColumnStep dm) buf0)).
  { apply (for_range_invariant Inv); unfold Inv.
    - nia.
    - split; [reflexivity |]. intros x y Hx Hy. rewrite Hrows by assumption.
      destruct (Z.ltb_spec (x + y * W) W) as [Hlt | Hge]; [| reflexivity].
      assert (y = 0) by nia. subst y. unfold rectPrefixSum.
      change (0 + 1) with (0 + 1). rewrite (sumZ_snoc 0 0) by lia.
      rewrite sumZ_nil by lia. reflexivity.
    - intros k b Hk (Hl & Hcells).
      unfold integralColumnStep. fold W.
      split; [rewrite length_zset; exact Hl |].
      set (x0 := k mod W). set (y0 := k / W).
      assert (Hk0 : k = x0 + y0 * W).
      { unfold x0, y0. rewrite (Z.div_mod k W) at 1 by lia. lia. }
      assert (Hx0 : 0 <= x0 < W) by (unfold x0; apply Z.mod_pos_bound; lia).
      assert (Hy0 : 1 <= y0 < H) by nia.
      intros x y Hx Hy. destruct (Z.eq_dec (x + y * W) k) as [Heq | Hne].
      + assert (Hyy : y = y0).
        { unfold y0. apply (Z.div_unique k W y x); [left; lia | lia]. }
        assert (Hxx : x = x0) by nia.
        subst x y.
        rewrite Heq. rewrite zget_zset_eq by (rewrite Hl, Hl0; nia).
        rewrite <- Heq at 1. rewrite (Hcells x0 y0) by lia.
        replace (k - W) with (x0 + (y0 - 1) * W) by lia.
        rewrite (Hcells x0 (y0 - 1)) by lia.
        destruct (Z.ltb_spec (x0 + y0 * W) k); [lia |].
        destruct (Z.ltb_spec (x0 + (y0 - 1) * W) k); [| lia].
        destruct (Z.ltb_spec k (k + 1)); [| lia].
        unfold rectPrefixSum. rewrite (sumZ_snoc 0 y0) by lia.
        replace (y0 - 1 + 1) with y0 by lia. lia.
      + rewrite zget_zset_ne by lia. rewrite Hcells by assumption.
        destruct (Z.ltb_spec (x + y * W) k), (Z.ltb_spec (x + y * W) (k + 1));
          (reflexivity || lia). }
  destruct Hinv as (_ & Hcells). intros x y Hx Hy.
  rewrite Hcells by assumption.
  destruct (Z.ltb_spec (x + y * W) (H * W)); [reflexivity | nia].
Qed.

(** The value read by the fill-holes loop is the direct sum over the 5x5
    window. *)
Lemma integralWindow_direct_sum (dm : DepthMap) (x y : Z) :
  let I := fun x' y' =>
    zget 0 (validityIntegralBuffer (buildRegIntegralBuffer dm)) (x' + y' * width dm) in
  height dm * width dm <= Z.of_nat (length (validityIntegralBuffer dm)) ->
  3 <= x < width dm - 2 ->
  3 <= y < height dm - 2 ->
  I (x + 2) (y + 2) - I (x - 3) (y + 2) - I (x + 2) (y - 3) + I (x - 3) (y - 3)
  = windowValiditySum (currentDepthMap dm) (width dm) x y
  /\ integralWindow (buildRegIntegralBuffer dm) (x + y * width dm)
     = windowValiditySum (currentDepthMap dm) (width dm) x y.
Proof.
  intros I Hlen Hx Hy.
  assert (HI : forall x' y', 0 <= x' < width dm -> 0 <= y' < height dm ->
                 I x' y' = rectPrefixSum (currentDepthMap dm) (width dm) x' y').
  { intros x' y' Hx' Hy'. unfold I.
    apply buildRegIntegralBuffer_spec; (lia || assumption). }
  assert (Hsum : I (x + 2) (y + 2) - I (x - 3) (y + 2) - I (x + 2) (y - 3)
                 + I (x - 3) (y - 3)
                 = windowValiditySum (currentDepthMap dm) (width dm) x y).
  { rewrite !HI by lia. apply rectPrefixSum_window; lia. }
  split; [exact Hsum |].
  rewrite <- Hsum. unfold integralWindow, I.
  change (width (buildRegIntegralBuffer dm)) with (width dm).
  replace (x + y * width dm + (2 + 2 * width dm))
    with (x + 2 + (y + 2) * width dm) by lia.
  replace (x + y * width dm + (2 - 3 * width dm))
    with (x + 2 + (y - 3) * width dm) by lia.
  replace (x + y * width dm + (-3 + 2 * width dm))
    with (x - 3 + (y + 2) * width dm) by lia.
  replace (x + y * width dm + (-3 - 3 * width dm))
    with (x - 3 + (y - 3) * width dm) by lia.
  lia.
Qed.

(** C10. After [buildRegIntegralBuffer], for every interior pixel [(x, y)]
    (that is [3 <= x < width - 2] and [3 <= y < height - 2], the pixels at
    which the buffer is read), the expression [I(x+2,y+2) - I(x-3,y+2) -
    I(x+2,y-3) + I(x-3,y-3)] over the integral buffer [I] equals the direct
    sum of [validity_counter] over the valid cells of the 5x5 window
    centred at [(x, y)]; the value [val] that the fill-holes loop reads at
    the pixel is this expression. *)
Theorem integral_window_is_direct_sum (dm : DepthMap) (x y : Z) :
  let I := fun x' y' =>
    zget 0 (validityIntegralBuffer (buildRegIntegralBuffer dm)) (x' + y' * width dm) in
  height dm * width dm <= Z.of_nat (length (validityIntegralBuffer dm)) ->
  3 <= x < width dm - 2 ->
  3 <= y < height dm - 2 ->
  I (x + 2) (y + 2) - I (x - 3) (y + 2) - I (x + 2) (y - 3) + I (x - 3) (y - 3)
  = windowValiditySum (currentDepthMap dm) (width dm) x y
  /\ integralWindow (buildRegIntegralBuffer dm) (x + y * width dm)
     = windowValiditySum (currentDepthMap dm) (width dm) x y.
Proof.
  intros I Hlen Hx Hy. apply integralWindow_direct_sum; assumption.
Qed.

(** ** Hole filling *)

Lemma UNZERO_comp (p q : Q) : (p == q)%Q -> (UNZERO p == UNZERO q)%Q.
Proof.
  intros Heq. unfold UNZERO.
  rewrite (Qltb_comp p q 0 0 Heq (Qeq_refl 0)).
  rewrite (Qltb_comp (- UNZERO_EPS cfg) (- UNZERO_EPS cfg) p q (Qeq_refl _) Heq).
  rewrite (Qltb_comp p q (UNZERO_EPS cfg) (UNZERO_EPS cfg) Heq (Qeq_refl _)).
  destruct (Qltb q 0), (Qltb (- UNZERO_EPS cfg) q), (Qltb q (UNZERO_EPS cfg));
    (exact Heq || reflexivity).
Qed.

Lemma UNZERO_positive (q : Q) :
  (0 < UNZERO_EPS cfg)%Q -> (0 <= q)%Q ->
  (0 < UNZERO q)%Q /\ (UNZERO q <= Qmax q (UNZERO_EPS cfg))%Q.
Proof.
  intros Heps Hq. unfold UNZERO.
  rewrite (proj2 (Qltb_false q 0) Hq).
  destruct (Qltb q (UNZERO_EPS cfg)) eqn:E.
  - split; [exact Heps | apply Q.le_max_r].
  - apply Qltb_false in E. split; [lra | apply Q.le_max_l].
Qed.

Lemma fold_left_flat_map {A B C : Type} (f : A -> C -> A) (g : B -> list C)
  (l : list B) (a : A) :
  fold_left f (flat_map g l) a = fold_left (fun a b => fold_left f (g b) a) l a.
Proof.
  revert a. induction l as [| b l IH]; intros a; simpl.
  - reflexivity.
  - rewrite fold_left_app. apply IH.
Qed.

(** The accumulation of the fill-holes loop over a list of cell indices,
    against the sums over the valid cells. *)
Lemma fillHolesAccumulate_sums (dm : DepthMap) (l : list Z) (a b : Q) (n : Z) :
  let valid :=
    filter (fun h => isValid h = true) (map (zget noHypothesis (otherDepthMap dm)) l) in
  let '(a', b', n') := fold_left (fillHolesAccumulate dm) l (a, b, n) in
  (a' == a + Qsum (map (fun h => idepth h / idepth_var h) valid))%Q
  /\ (b' == b + Qsum (map (fun h => 1 / idepth_var h) valid))%Q.
Proof.
  revert a b n. induction l as [| i l IH]; intros a b n.
  - simpl. split; ring.
  - cbn [fold_left map].
    destruct (isValid (zget noHypothesis (otherDepthMap dm) i)) eqn:E.
    + assert (Hstep : fillHolesAccumulate dm (a, b, n) i
                      = ((a + idepth (zget noHypothesis (otherDepthMap dm) i)
                              / idepth_var (zget noHypothesis (otherDepthMap dm) i))%Q,
                         (b + 1 / idepth_var (zget noHypothesis (otherDepthMap dm) i))%Q,
                         n + 1)).
      { unfold fillHolesAccumulate. rewrite E. reflexivity. }
      rewrite Hstep. rewrite filter_cons_True by exact E.
      specialize (IH (a + idepth (zget noHypothesis (otherDepthMap dm) i)
                          / idepth_var (zget noHypothesis (otherDepthMap dm) i))%Q
                     (b + 1 / idepth_var (zget noHypothesis (otherDepthMap dm) i))%Q
                     (n + 1)).
      cbv zeta in IH |- *.
      destruct (fold_left _ l _) as [[a' b'] n']. destruct IH as [Ha Hb].
      cbn [map Qsum]. split; [rewrite Ha | rewrite Hb]; ring.
    + assert (Hstep : fillHolesAccumulate dm (a, b, n) i = (a, b, n)).
      { unfold fillHolesAccumulate. rewrite E. reflexivity. }
      rewrite Hstep. rewrite filter_cons_False by (rewrite E; discriminate).
      apply IH.
Qed.

Lemma seqZ_5 (m : Z) : seqZ m 5 = [m; m + 1; m + 2; m + 3; m + 4].
Proof.
  do 5 (rewrite seqZ_cons by lia). rewrite seqZ_nil by lia.
  repeat (f_equal; try lia).
Qed.

Lemma fold_left_fmap {A B C : Type} (f : A -> C -> A) (h : B -> C) (l : list B) (a : A) :
  fold_left f (map h l) a = fold_left (fun a b => f a (h b)) l a.
Proof.
  revert a. induction l as [| b l IH]; intros a; [reflexivity |]. apply IH.
Qed.

Lemma fold_left_ext {A B : Type} (f g : A -> B -> A) (l : list B) (a : A) :
  (forall a b, f a b = g a b) -> fold_left f l a = fold_left g l a.
Proof.
  intros Hfg. revert a. induction l as [| b l IH]; intros a; [reflexivity |].
  cbn [fold_left]. rewrite Hfg. apply IH.
Qed.

(** The indices visited by the two pointer loops are those of the 5x5
    window, row by row. *)
Lemma fillHolesWindow_cells (dm : DepthMap) (x y : Z) :
  fillHolesWindow dm x y
  = fold_left (fillHolesAccumulate dm)
      (flat_map (fun y' => map (fun x' => x' + y' * width dm) (seqZ (x - 2) 5))
         (seqZ (y - 2) 5))
      (0%Q, 0%Q, 0).
Proof.
  unfold fillHolesWindow, for_range.
  rewrite fold_left_flat_map.
  assert (Hrows : seqZ (y - 2) 5 = map (fun k => y - 2 + k) (seqZ 0 (5 - 0))).
  { replace (5 - 0) with 5 by lia. rewrite !seqZ_5. cbn [map].
    repeat (f_equal; try lia). }
  rewrite Hrows. rewrite fold_left_fmap.
  apply fold_left_ext. intros st k. f_equal.
  replace (x - 2 + (y - 2) * width dm + k * width dm + 5
           - (x - 2 + (y - 2) * width dm + k * width dm)) with 5 by lia.
  rewrite !seqZ_5. cbn [map]. repeat (f_equal; try lia).
Qed.

Lemma window5x5_cells (g : list DepthMapPixelHypothesis) (W x y : Z) :
  window5x5 g W x y
  = map (zget noHypothesis g)
      (flat_map (fun y' => map (fun x' => x' + y' * W) (seqZ (x - 2) 5))
         (seqZ (y - 2) 5)).
Proof.
  unfold window5x5. induction (seqZ (y - 2) 5) as [| y' l IH]; cbn [flat_map].
  - reflexivity.
  - rewrite List.map_app, List.map_map. rewrite IH. reflexivity.
Qed.

(** What the fill-holes loops accumulate, against the weighted average of
    the valid cells of the window. *)
Lemma fillHolesWindow_weighted (dm : DepthMap) (x y : Z) :
  let '(sumIdepthObs, sumIVarObs, num) := fillHolesWindow dm x y in
  let valid :=
    filter (fun h => isValid h = true) (window5x5 (otherDepthMap dm) (width dm) x y) in
  (sumIdepthObs == Qsum (map (fun h => idepth h / idepth_var h) valid))%Q
  /\ (sumIVarObs == Qsum (map (fun h => 1 / idepth_var h) valid))%Q.
Proof.
  rewrite fillHolesWindow_cells, window5x5_cells.
  pose proof (fillHolesAccumulate_sums dm
                (flat_map (fun y' => map (fun x' => x' + y' * width dm) (seqZ (x - 2) 5))
                   (seqZ (y - 2) 5)) 0 0 0) as Hs.
  cbv zeta in Hs. destruct (fold_left _ _ _) as [[a b] n].
  destruct Hs as [Ha Hb]. cbv zeta. split; [rewrite Ha | rewrite Hb]; ring.
Qed.

Lemma fillHolesPixel_local : pixelLocal fillHolesPixel.
Proof.
  intros y dm x. unfold fillHolesPixel.
  destruct (isValid _); [apply pixelLocal_keep |].
  destruct (Qltb _ _); [apply pixelLocal_keep |].
  destruct (fillHolesCreates _ _); [| apply pixelLocal_keep].
  destruct (fillHolesWindow dm x y) as [[a b] n]. apply pixelLocal_store.
Qed.

Lemma fillHolesPixel_determined : cellDetermined fillHolesPixel.
Proof.
  intros y x dm dm' Hf Hl Hc. unfold fillHolesPixel.
  assert (Hw : width dm' = width dm) by (symmetry; apply frameOf_width; exact Hf).
  assert (Ho : otherDepthMap dm' = otherDepthMap dm)
    by (symmetry; apply frameOf_otherDepthMap; exact Hf).
  assert (Hk : activeKeyFrame dm' = activeKeyFrame dm)
    by (apply (f_equal activeKeyFrame) in Hf; symmetry; exact Hf).
  assert (Hi : integralWindow dm' (x + y * width dm) = integralWindow dm (x + y * width dm)).
  { unfold integralWindow. rewrite Hw.
    apply (f_equal validityIntegralBuffer) in Hf. simpl in Hf. rewrite Hf. reflexivity. }
  assert (Hfw : fillHolesWindow dm' x y = fillHolesWindow dm x y).
  { unfold fillHolesWindow, fillHolesAccumulate. rewrite Hw, Ho. reflexivity. }
  rewrite Hw, Ho, Hk, Hi, Hfw.
  destruct (isValid _); [exact Hc |].
  destruct (Qltb _ _); [exact Hc |].
  destruct (fillHolesCreates _ _); [| exact Hc].
  destruct (fillHolesWindow dm x y) as [[a b] n].
  apply storeCurrent_same_cell; assumption.
Qed.

Lemma fillHolesCreates_iff (dest : DepthMapPixelHypothesis) (val : Z) :
  fillHolesCreates dest val = true <->
  ((MIN_BLACKLIST cfg <= blacklisted dest /\ VAL_SUM_MIN_FOR_CREATE cfg < val)
   \/ VAL_SUM_MIN_FOR_UNBLACKLIST cfg < val).
Proof.
  unfold fillHolesCreates.
  rewrite orb_true_iff, andb_true_iff.
  rewrite Z.geb_le, !Z.gtb_lt. reflexivity.
Qed.

Lemma regularizeDepthMapFillHoles_pass (dm : DepthMap) :
  regularizeDepthMapFillHoles dm
  = pixelPass 3 2 fillHolesPixel 3 (height dm - 2) (fillHolesStart dm).
Proof. reflexivity. Qed.

(** The cell that the fill-holes pass leaves at an interior pixel. *)
Lemma regularizeDepthMapFillHoles_pixel (dm : DepthMap) (x y : Z) :
  3 <= x < width dm - 2 -> 3 <= y < height dm - 2 ->
  zget noHypothesis (currentDepthMap (regularizeDepthMapFillHoles dm))
    (x + y * width dm)
  = zget noHypothesis (currentDepthMap (fillHolesPixel y (fillHolesStart dm) x))
      (x + y * width dm).
Proof.
  intros Hx Hy. rewrite regularizeDepthMapFillHoles_pass.
  apply (pixelPass_cell fillHolesPixel fillHolesPixel_local 3 2
           fillHolesPixel_determined 3 (height dm - 2) (fillHolesStart dm) x y);
    (lia || exact Hx || exact Hy).
Qed.

(** C6, as the code has it.  In fill-holes, for every invalid cell at a
    pixel with [3 <= x < width - 2] and [3 <= y < height - 2] (the pixels
    the loops visit) whose key-frame max-gradient is at least
    [MIN_ABS_GRAD_DECREASE], a new hypothesis is created exactly when the
    5x5 validity-window sum exceeds [VAL_SUM_MIN_FOR_CREATE] and the cell is
    not blacklisted ([blacklisted >= MIN_BLACKLIST]), or the sum exceeds
    [VAL_SUM_MIN_FOR_UNBLACKLIST]; the created hypothesis has [idepth] equal
    to [UNZERO] of the variance-weighted average [sum (id/var) / sum (1/var)]
    over the valid cells of the 5x5 window, variance
    [VAR_RANDOM_INIT_INITIAL] and validity counter 0; otherwise the cell is
    left as it was.  The cells at other pixels are not touched. *)
Theorem regularizeDepthMapFillHoles_creates (dm : DepthMap) (x y : Z) :
  let idx := x + y * width dm in
  let dest := zget noHypothesis (currentDepthMap dm) idx in
  let val := windowValiditySum (currentDepthMap dm) (width dm) x y in
  let dest' :=
    zget noHypothesis (currentDepthMap (regularizeDepthMapFillHoles dm)) idx in
  let creates :=
    (MIN_BLACKLIST cfg <= blacklisted dest /\ VAL_SUM_MIN_FOR_CREATE cfg < val)
    \/ VAL_SUM_MIN_FOR_UNBLACKLIST cfg < val in
  (height dm * width dm <= Z.of_nat (length (validityIntegralBuffer dm)) ->
   height dm * width dm <= Z.of_nat (length (currentDepthMap dm)) ->
   3 <= x < width dm - 2 ->
   3 <= y < height dm - 2 ->
   isValid dest = false ->
   (MIN_ABS_GRAD_DECREASE cfg <= zget 0 (maxGradients (activeKeyFrame dm)) idx)%Q ->
   (creates ->
    isValid dest' = true
    /\ (idepth dest'
        == UNZERO (weightedIdepth (window5x5 (currentDepthMap dm) (width dm) x y)))%Q
    /\ idepth_var dest' = VAR_RANDOM_INIT_INITIAL cfg
    /\ validity_counter dest' = 0)
   /\ (~ creates -> dest' = dest))
  /\ (forall j : Z,
        (forall x' y' : Z, 3 <= x' < width dm - 2 -> 3 <= y' < height dm - 2 ->
           j <> x' + y' * width dm) ->
        zget noHypothesis (currentDepthMap (regularizeDepthMapFillHoles dm)) j
        = zget noHypothesis (currentDepthMap dm) j).
Proof.
  intros idx dest val dest' creates. split.
  2:{ intros j Hj. rewrite regularizeDepthMapFillHoles_pass.
      rewrite (pixelPass_untouched fillHolesPixel fillHolesPixel_local);
        [reflexivity |].
      intros x' y' Hy' Hx'. change (width (fillHolesStart dm)) with (width dm) in *.
      apply Hj; assumption. }
  intros Hbuf Hlen Hx Hy Hinvalid Hgrad.
  assert (Hcell : dest'
                  = zget noHypothesis
                      (currentDepthMap (fillHolesPixel y (fillHolesStart dm) x)) idx).
  { apply regularizeDepthMapFillHoles_pixel; assumption. }
  unfold fillHolesPixel in Hcell.
  change (width (fillHolesStart dm)) with (width dm) in Hcell.
  change (otherDepthMap (fillHolesStart dm)) with (currentDepthMap dm) in Hcell.
  change (activeKeyFrame (fillHolesStart dm)) with (activeKeyFrame dm) in Hcell.
  fold idx in Hcell. fold dest in Hcell. rewrite Hinvalid in Hcell.
  rewrite (proj2 (Qltb_false _ _) Hgrad) in Hcell.
  assert (Hval : integralWindow (fillHolesStart dm) idx = val).
  { change (integralWindow (fillHolesStart dm) idx)
      with (integralWindow (buildRegIntegralBuffer dm) idx).
    apply integralWindow_direct_sum; assumption. }
  rewrite Hval in Hcell.
  pose proof (fillHolesCreates_iff dest val) as Hiff. fold creates in Hiff.
  pose proof (fillHolesWindow_weighted (fillHolesStart dm) x y) as Hsums.
  change (width (fillHolesStart dm)) with (width dm) in Hsums.
  change (otherDepthMap (fillHolesStart dm)) with (currentDepthMap dm) in Hsums.
  split.
  - intros Hc. rewrite (proj2 Hiff Hc) in Hcell.
    destruct (fillHolesWindow (fillHolesStart dm) x y) as [[a b] n].
    cbv zeta in Hsums. destruct Hsums as [Ha Hb].
    change (currentDepthMap (storeCurrent (fillHolesStart dm) idx
                               (newHypothesis (UNZERO (a / b))
                                  (VAR_RANDOM_INIT_INITIAL cfg) 0)))
      with (zset (currentDepthMap dm) idx
              (newHypothesis (UNZERO (a / b)) (VAR_RANDOM_INIT_INITIAL cfg) 0))
      in Hcell.
    rewrite zget_zset_eq in Hcell by (unfold idx; nia).
    rewrite Hcell. simpl. repeat split.
    apply UNZERO_comp. unfold weightedIdepth. rewrite Ha, Hb. reflexivity.
  - intros Hc.
    assert (Hfalse : fillHolesCreates dest val = false).
    { destruct (fillHolesCreates dest val) eqn:E; [| reflexivity].
      exfalso. apply Hc. apply Hiff. reflexivity. }
    rewrite Hfalse in Hcell. exact Hcell.
Qed.

(** ** Which cells the passes write *)

Lemma flat_index_inj (W x y x' y' : Z) :
  0 <= x < W -> 0 <= x' < W -> x + y * W = x' + y' * W -> x = x' /\ y = y'.
Proof.
  intros Hx Hx' Heq.
  assert (Hy : y = y').
  { rewrite (Z.div_unique (x + y * W) W y x) by (try left; lia).
    rewrite (Z.div_unique (x + y * W) W y' x') by (try left; lia).
    reflexivity. }
  subst y'. split; [lia | reflexivity].
Qed.

Lemma observeDepthPixel_local : pixelLocal observeDepthPixel.
Proof.
  intros y dm x. unfold observeDepthPixel.
  destruct (_ && _); [apply pixelLocal_store |].
  destruct (_ || _); [apply pixelLocal_keep |].
  destruct (negb _).
  - unfold observeDepthCreate.
    destruct (negb (wasGoodDuringTracking _ _ _ _)); [apply pixelLocal_keep |].
    destruct (_ || _); apply pixelLocal_store.
  - unfold observeDepthUpdate.
    destruct (updateReferenceFrame _ _); [| apply pixelLocal_keep].
    destruct (negb (wasGoodDuringTracking _ _ _ _)); [apply pixelLocal_keep |].
    destruct (updateFromStereo _ _ _ _ _). apply pixelLocal_store.
Qed.

Lemma regularizePixel_local (removeOcclusions : bool) (validityTH : Z) :
  pixelLocal (regularizePixel removeOcclusions validityTH).
Proof.
  intros y dm x. unfold regularizePixel.
  destruct (negb _); [apply pixelLocal_keep |].
  destruct (Qltb _ _); [apply pixelLocal_store |].
  destruct (_ && _); apply pixelLocal_store.
Qed.

Lemma observeDepth_pass (dm : DepthMap) :
  observeDepth dm = pixelPass 3 3 observeDepthPixel 3 (height dm - 3) dm.
Proof. reflexivity. Qed.

Lemma regularizeDepthMap_pass (removeOcclusions : bool) (validityTH : Z) (dm : DepthMap) :
  regularizeDepthMap removeOcclusions validityTH dm
  = pixelPass 2 2 (regularizePixel removeOcclusions validityTH) 2 (height dm - 2)
      (set_otherDepthMap (currentDepthMap dm) dm).
Proof. reflexivity. Qed.

Lemma wipeDepthMap_invalid (g : list DepthMapPixelHypothesis) (j : Z) :
  isValid (zget noHypothesis (wipeDepthMap g) j) = false.
Proof.
  unfold zget, wipeDepthMap. destruct (Z.ltb j 0); [reflexivity |].
  rewrite list_lookup_fmap. destruct (g !! Z.to_nat j); reflexivity.
Qed.

Lemma inject_Z_minus_const (W c : Z) : (inject_Z (W - c) == inject_Z W - inject_Z c)%Q.
Proof.
  unfold Z.sub. rewrite inject_Z_plus, inject_Z_opp. reflexivity.
Qed.

(** The destination column and row of a propagated hypothesis. *)
Lemma propagated_index_range (u : Q) (W : Z) :
  ((21 # 10) < u)%Q -> (u < inject_Z W - (31 # 10))%Q ->
  2 <= float_to_int (u + (5 # 10)) <= W - 3.
Proof.
  intros Hlo Hhi. rewrite float_to_int_nonneg by lra. split.
  - rewrite <- (Qfloor_Z 2). apply Qfloor_resp_le.
    change (inject_Z 2) with 2%Q. lra.
  - assert (Hlt : Qfloor (u + (5 # 10)) < W - 2).
    { apply Qlt_inject_floor. rewrite (inject_Z_minus_const W 2).
      change (inject_Z 2) with 2%Q. lra. }
    lia.
Qed.

(** A cell that is not at a destination of the propagation is left as it
    was by the propagation of a source pixel. *)
Lemma propagatePixel_untouched (dm : DepthMap) (new_keyframe : Frame) (y : Z)
  (other : list DepthMapPixelHypothesis) (x : Z) (j : Z) :
  (forall ix iy, 2 <= ix <= width dm - 3 -> 2 <= iy <= height dm - 3 ->
     j <> ix + iy * width dm) ->
  zget noHypothesis (propagatePixel dm new_keyframe y other x) j
  = zget noHypothesis other j.
Proof.
  intros Hj. unfold propagatePixel.
  destruct (negb _); [reflexivity |].
  destruct (warpPixel _ _ _ _ _) as [[[pn new_idepth] u_new] v_new].
  destruct (withinNewImage dm u_new v_new) eqn:Ein; simpl negb; cbv iota;
    [| reflexivity].
  apply withinNewImage_true in Ein. destruct Ein as (Hu1 & Hv1 & Hu2 & Hv2).
  pose proof (propagated_index_range u_new (width dm) Hu1 Hu2) as Hix.
  pose proof (propagated_index_range v_new (height dm) Hv1 Hv2) as Hiy.
  specialize (Hj _ _ Hix Hiy).
  destruct (propagationGateDrops _ _ _ _ _ _ _); [reflexivity |].
  cbv zeta.
  destruct (_ && Qltb new_idepth _); [reflexivity |].
  destruct (negb _); apply zget_zset_ne; congruence.
Qed.

Lemma propagateDepth_untouched (dm : DepthMap) (new_keyframe : Frame) (j : Z) :
  (forall ix iy, 2 <= ix <= width dm - 3 -> 2 <= iy <= height dm - 3 ->
     j <> ix + iy * width dm) ->
  isValid (zget noHypothesis (currentDepthMap (propagateDepth new_keyframe dm)) j)
  = false.
Proof.
  intros Hj. unfold propagateDepth. simpl.
  apply (for_range_preserves
           (fun other => isValid (zget noHypothesis other j) = false)).
  - apply wipeDepthMap_invalid.
  - intros y other _ Hinv.
    apply (for_range_preserves
             (fun other => isValid (zget noHypothesis other j) = false)).
    + exact Hinv.
    + intros x other' _ Hinv'.
      rewrite propagatePixel_untouched by exact Hj. exact Hinv'.
Qed.

(** C7, as the code has it.  Border pixels of width 2 (those with [x < 2],
    [x >= W - 2], [y < 2] or [y >= H - 2]) are never marked valid by an
    operation of the pipeline: observation, hole filling and regularization
    leave such a cell invalid when it was invalid, and after propagation
    such a cell is always invalid. *)
Theorem border_never_marked_valid (dm : DepthMap) (new_keyframe : Frame)
  (removeOcclusions : bool) (validityTH : Z) (x y : Z) :
  let idx := x + y * width dm in
  0 <= x < width dm ->
  inBorder 2 (width dm) (height dm) x y ->
  (isValid (zget noHypothesis (currentDepthMap dm) idx) = false ->
   isValid (zget noHypothesis (currentDepthMap (observeDepth dm)) idx) = false
   /\ isValid (zget noHypothesis
                 (currentDepthMap (regularizeDepthMapFillHoles dm)) idx) = false
   /\ isValid (zget noHypothesis
                 (currentDepthMap
                    (regularizeDepthMap removeOcclusions validityTH dm)) idx) = false)
  /\ isValid (zget noHypothesis
                (currentDepthMap (propagateDepth new_keyframe dm)) idx) = false.
Proof.
  intros idx Hx Hborder. unfold inBorder in Hborder.
  assert (Hne : forall xlo xoff yMin yMax x' y',
            2 <= xlo -> 2 <= xoff -> 2 <= yMin -> yMax <= height dm - 2 ->
            yMin <= y' < yMax -> xlo <= x' < width dm - xoff ->
            idx <> x' + y' * width dm).
  { intros xlo xoff yMin yMax x' y' H1 H2 H3 H4 Hy' Hx' Heq.
    destruct (flat_index_inj (width dm) x y x' y') as [-> ->]; [lia | lia | exact Heq |].
    lia. }
  split.
  - intros Hinvalid. split; [| split].
    + rewrite observeDepth_pass.
      rewrite (pixelPass_untouched observeDepthPixel observeDepthPixel_local).
      * exact Hinvalid.
      * intros x' y'. apply (Hne 3 3 3 (height dm - 3)); lia.
    + rewrite regularizeDepthMapFillHoles_pass.
      rewrite (pixelPass_untouched fillHolesPixel fillHolesPixel_local).
      * exact Hinvalid.
      * intros x' y'. change (width (fillHolesStart dm)) with (width dm).
        apply (Hne 3 2 3 (height dm - 2)); lia.
    + rewrite regularizeDepthMap_pass.
      rewrite (pixelPass_untouched _ (regularizePixel_local removeOcclusions validityTH)).
      * exact Hinvalid.
      * intros x' y'. change (width (set_otherDepthMap _ dm)) with (width dm).
        apply (Hne 2 2 2 (height dm - 2)); lia.
  - apply propagateDepth_untouched. intros ix iy Hix Hiy Heq.
    destruct (flat_index_inj (width dm) x y ix iy) as [-> ->]; [lia | lia | exact Heq |].
    lia.
Qed.

(** ** The invariant of the valid hypotheses *)

Lemma zget_zset_cases {A : Type} (d : A) (buf : list A) (i j : Z) (a : A) :
  zget d (zset buf i a) j = a \/ zget d (zset buf i a) j = zget d buf j.
Proof.
  destruct (Z.eq_dec i j) as [-> | Hne].
  - destruct (Z.ltb_spec j 0) as [Hneg | Hpos].
    + right. unfold zset. destruct (Z.ltb_spec j 0); [reflexivity | lia].
    + destruct (Z.lt_ge_cases j (Z.of_nat (length buf))) as [Hin | Hout].
      * left. apply zget_zset_eq. lia.
      * right. unfold zset. destruct (Z.ltb_spec j 0); [lia |].
        rewrite list_insert_ge by lia. reflexivity.
  - right. apply zget_zset_ne. exact Hne.
Qed.

Lemma gridInvariant_store (dm : DepthMap) (idx : Z) (h : DepthMapPixelHypothesis) :
  gridInvariant (currentDepthMap dm) -> hypothesisInvariant h ->
  gridInvariant (currentDepthMap (storeCurrent dm idx h)).
Proof.
  intros Hg Hh j. simpl.
  destruct (zget_zset_cases noHypothesis (currentDepthMap dm) idx j h) as [-> | ->].
  - exact Hh.
  - apply Hg.
Qed.

Lemma gridInvariant_zset (g : list DepthMapPixelHypothesis) (idx : Z)
  (h : DepthMapPixelHypothesis) :
  gridInvariant g -> hypothesisInvariant h -> gridInvariant (zset g idx h).
Proof.
  intros Hg Hh j.
  destruct (zget_zset_cases noHypothesis g idx j h) as [-> | ->].
  - exact Hh.
  - apply Hg.
Qed.

Lemma gridInvariant_replicate (n : nat) : gridInvariant (replicate n noHypothesis).
Proof.
  intros j Hv. exfalso. revert Hv. unfold zget.
  destruct (Z.ltb j 0); [discriminate |].
  destruct (replicate n noHypothesis !! Z.to_nat j) as [h |] eqn:E; simpl.
  - apply lookup_replicate in E. destruct E as [-> _]. discriminate.
  - discriminate.
Qed.

Lemma hypothesisInvariant_invalid (h : DepthMapPixelHypothesis) :
  isValid h = false -> hypothesisInvariant h.
Proof. intros Hv Ht. rewrite Hv in Ht. discriminate Ht. Qed.

Lemma Qdiv_weight_range (a b : Q) :
  (0 < a)%Q -> (0 < b)%Q -> (0 < a / (a + b))%Q /\ (a / (a + b) < 1)%Q.
Proof.
  intros Ha Hb. split.
  - apply Qlt_shift_div_l; lra.
  - apply Qlt_shift_div_r; lra.
Qed.

Lemma UNZERO_in_range (q : Q) :
  (0 < UNZERO_EPS cfg)%Q -> (UNZERO_EPS cfg <= 1 / MIN_DEPTH cfg)%Q ->
  (0 <= q)%Q -> (q <= 1 / MIN_DEPTH cfg)%Q ->
  (0 < UNZERO q)%Q /\ (UNZERO q <= 1 / MIN_DEPTH cfg)%Q.
Proof.
  intros Heps Hepsb Hq Hqb.
  destruct (UNZERO_positive q Heps Hq) as [Hpos Hmax].
  split; [exact Hpos |].
  apply Qle_trans with (Qmax q (UNZERO_EPS cfg)); [exact Hmax |].
  apply Q.max_lub; assumption.
Qed.

(** The observation update of a cell keeps the invariant when the stereo
    result is in range. *)
Lemma updateFromStereo_invariant (dm : DepthMap) (target : DepthMapPixelHypothesis)
  (absGrad : Q) (refFrame : Frame) (r : StereoResult) :
  (0 < UNZERO_EPS cfg)%Q -> (UNZERO_EPS cfg <= 1 / MIN_DEPTH cfg)%Q ->
  (0 < SUCC_VAR_INC_FAC cfg)%Q -> (0 < FAIL_VAR_INC_FAC cfg)%Q ->
  stereoResultInRange r ->
  isValid target = true ->
  hypothesisInvariant target ->
  hypothesisInvariant (fst (updateFromStereo dm target absGrad refFrame r)).
Proof.
  intros Heps Hepsb Hsucc Hfail Hr Hvalid Hinv.
  destruct (Hinv Hvalid) as (Hid & Hvar & Hbound).
  unfold updateFromStereo.
  destruct (Qeq_bool (error r) (-5)) eqn:E5; [exact Hinv |].
  destruct (Qeq_bool (error r) (-1)) eqn:E1; [exact Hinv |].
  destruct (Qeq_bool (error r) (-2)) eqn:E2.
  { cbv zeta. simpl idepth_var.
    destruct (Qltb (MAX_VAR cfg) _); simpl fst.
    - apply hypothesisInvariant_invalid. reflexivity.
    - intros _. simpl. repeat split; try assumption.
      apply Qmult_lt_0_compat; assumption. }
  destruct (Qeq_bool (error r) (-3)) eqn:E3; [exact Hinv |].
  destruct (Qeq_bool (error r) (-4)) eqn:E4; [exact Hinv |].
  destruct (Qltb (result_var r + idepth_var_smoothed target) _).
  { cbv zeta. simpl idepth_var.
    destruct (Qltb (MAX_VAR cfg) _); simpl fst.
    - apply hypothesisInvariant_invalid. reflexivity.
    - intros _. simpl. repeat split; try assumption.
      apply Qmult_lt_0_compat; assumption. }
  destruct Hr as (Hr0 & Hrb & Hrv); [repeat split; assumption |].
  cbv zeta. simpl fst.
  set (id_var := (idepth_var target * SUCC_VAR_INC_FAC cfg)%Q).
  set (w := (result_var r / (result_var r + id_var))%Q).
  assert (Hidv : (0 < id_var)%Q) by (apply Qmult_lt_0_compat; assumption).
  destruct (Qdiv_weight_range (result_var r) id_var Hrv Hidv) as [Hw0 Hw1].
  fold w in Hw0, Hw1.
  assert (Hnew0 : (0 <= (1 - w) * result_idepth r + w * idepth target)%Q).
  { assert ((0 <= (1 - w) * result_idepth r)%Q) by (apply Qmult_le_0_compat; lra).
    assert ((0 < w * idepth target)%Q) by (apply Qmult_lt_0_compat; lra).
    lra. }
  assert (Hnewb : ((1 - w) * result_idepth r + w * idepth target
                   <= 1 / MIN_DEPTH cfg)%Q).
  { assert (((1 - w) * result_idepth r <= (1 - w) * (1 / MIN_DEPTH cfg))%Q).
    { rewrite !(Qmult_comm (1 - w)). apply Qmult_le_compat_r; lra. }
    assert ((w * idepth target <= w * (1 / MIN_DEPTH cfg))%Q).
    { rewrite !(Qmult_comm w). apply Qmult_le_compat_r; lra. }
    lra. }
  destruct (UNZERO_in_range _ Heps Hepsb Hnew0 Hnewb) as [Hu0 Hub].
  assert (Hvarw : (0 < id_var * w)%Q) by (apply Qmult_lt_0_compat; assumption).
  intros _.
  repeat match goal with
         | |- context [if ?b then _ else _] => destruct b
         end; simpl; repeat split; assumption.
Qed.

Lemma updateReferenceFrame_In (dm : DepthMap) (target : DepthMapPixelHypothesis)
  (refFrame : Frame) :
  updateReferenceFrame dm target = Some refFrame -> In refFrame (referenceFrames dm).
Proof.
  unfold updateReferenceFrame, referenceFrames.
  destruct (negb _).
  - destruct (Z.geb _ _); [discriminate |].
    destruct (Z.ltb _ 0) eqn:Ek.
    + intros [= <-]. left. reflexivity.
    + intros [= <-]. unfold zget. rewrite Ek.
      destruct (referenceFrameByID dm !! _) as [f |] eqn:El; simpl.
      * right. right. apply list_elem_of_In. apply list_elem_of_lookup. eauto.
      * left. reflexivity.
  - intros [= <-]. right. left. reflexivity.
Qed.

(** The observation of one pixel keeps the invariant. *)
Lemma observeDepthPixel_invariant (y : Z) (dm : DepthMap) (x : Z) :
  (0 < UNZERO_EPS cfg)%Q -> (UNZERO_EPS cfg <= 1 / MIN_DEPTH cfg)%Q ->
  (0 < SUCC_VAR_INC_FAC cfg)%Q -> (0 < FAIL_VAR_INC_FAC cfg)%Q ->
  (forall coord a p b f, In f (referenceFrames dm) ->
     stereoResultInRange
       (doLineStereo (withoutBuffers dm) coord a p b f
          (uninitialized, uninitialized, uninitialized))) ->
  gridInvariant (currentDepthMap dm) ->
  gridInvariant (currentDepthMap (observeDepthPixel y dm x)).
Proof.
  intros Heps Hepsb Hsucc Hfail Hstereo Hg. unfold observeDepthPixel.
  set (idx := x + y * width dm).
  set (target := zget noHypothesis (currentDepthMap dm) idx).
  destruct (_ && _).
  { apply gridInvariant_store; [exact Hg |].
    apply hypothesisInvariant_invalid. reflexivity. }
  destruct (_ || _); [exact Hg |].
  destruct (isValid target) eqn:Hvalid; simpl negb; cbv iota.
  - unfold observeDepthUpdate. fold target. cbn [fst snd].
    destruct (updateReferenceFrame dm target) as [refFrame |] eqn:Href; [| exact Hg].
    destruct (negb (wasGoodDuringTracking _ _ _ _)); [exact Hg |].
    pose proof (updateFromStereo_invariant dm target
                  (zget 0%Q (maxGradients (activeKeyFrame dm)) idx) refFrame
                  (updateStereo dm (x, y) target refFrame)
                  Heps Hepsb Hsucc Hfail) as Hupd.
    destruct (updateFromStereo _ _ _ _ _) as [target' success]. simpl.
    apply gridInvariant_store; [exact Hg |].
    apply Hupd.
    + apply Hstereo. apply (updateReferenceFrame_In dm target). exact Href.
    + exact Hvalid.
    + apply Hg.
  - unfold observeDepthCreate. fold target. cbn [fst snd].
    destruct (negb (wasGoodDuringTracking _ _ _ _)); [exact Hg |].
    set (refFrame := if activeKeyFrameIsReactivated dm
                     then newest_referenceFrame dm else oldest_referenceFrame dm).
    set (r := doLineStereo _ _ _ _ _ _ _).
    assert (Hr : stereoResultInRange r).
    { apply Hstereo. unfold refFrame, referenceFrames.
      destruct (activeKeyFrameIsReactivated dm); simpl;
        [right; left; reflexivity | left; reflexivity]. }
    destruct (Qltb (error r) 0) eqn:Eneg; simpl orb.
    { simpl. apply gridInvariant_store; [exact Hg |].
      apply hypothesisInvariant_invalid.
      destruct (_ || _); exact Hvalid. }
    apply Qltb_false in Eneg.
    destruct (Qltb (MAX_VAR cfg) (result_var r)); simpl.
    { apply gridInvariant_store; [exact Hg |].
      apply hypothesisInvariant_invalid.
      destruct (_ || _); exact Hvalid. }
    apply gridInvariant_store; [exact Hg |].
    destruct Hr as (Hr0 & Hrb & Hrv).
    { repeat split; apply Qeq_bool_neg_code; (exact Eneg || reflexivity). }
    destruct (UNZERO_in_range _ Heps Hepsb Hr0 Hrb) as [Hu0 Hub].
    intros _. simpl. repeat split; assumption.
Qed.

(** The smoothing of one pixel keeps the invariant. *)
Lemma regularizePixel_invariant (removeOcclusions : bool) (validityTH : Z)
  (y : Z) (dm : DepthMap) (x : Z) :
  gridInvariant (currentDepthMap dm) ->
  gridInvariant (currentDepthMap (regularizePixel removeOcclusions validityTH y dm x)).
Proof.
  intros Hg. unfold regularizePixel.
  destruct (negb _); [exact Hg |].
  destruct (Qltb _ _).
  { apply gridInvariant_store; [exact Hg |].
    apply hypothesisInvariant_invalid. reflexivity. }
  destruct (_ && _).
  { apply gridInvariant_store; [exact Hg |].
    apply hypothesisInvariant_invalid. reflexivity. }
  apply gridInvariant_store; [exact Hg |].
  exact (Hg (x + y * width dm)).
Qed.

Lemma sumZ_nonzero (lo hi : Z) (f : Z -> Z) :
  sumZ lo hi f <> 0 -> exists i, lo <= i < hi /\ f i <> 0.
Proof.
  destruct (Z.le_gt_cases lo hi) as [Hle | Hgt].
  - revert hi Hle.
    apply (range_ind lo
             (fun hi => sumZ lo hi f <> 0 -> exists i, lo <= i < hi /\ f i <> 0)).
    + rewrite sumZ_nil by lia. intros H. exfalso. apply H. reflexivity.
    + intros m Hm IH. rewrite sumZ_snoc by exact Hm. intros Hne.
      destruct (Z.eq_dec (f m) 0) as [Hfm | Hfm].
      * destruct IH as (i & Hi & Hfi); [lia |].
        exists i. split; [lia | exact Hfi].
      * exists m. split; [lia | exact Hfm].
  - rewrite sumZ_nil by lia. intros H. exfalso. apply H. reflexivity.
Qed.

(** A window whose validity sum is not zero contains a valid cell. *)
Lemma window_has_valid_cell (g : list DepthMapPixelHypothesis) (W x y : Z) :
  windowValiditySum g W x y <> 0 ->
  exists h, In h (window5x5 g W x y) /\ isValid h = true.
Proof.
  intros Hne. unfold windowValiditySum in Hne.
  apply sumZ_nonzero in Hne. destruct Hne as (y' & Hy' & Hrow).
  apply sumZ_nonzero in Hrow. destruct Hrow as (x' & Hx' & Hcell).
  exists (zget noHypothesis g (x' + y' * W)). split.
  - unfold window5x5. apply in_flat_map. exists y'. split.
    + apply list_elem_of_In. apply elem_of_seqZ. lia.
    + apply in_map_iff. exists x'. split; [reflexivity |].
      apply list_elem_of_In. apply elem_of_seqZ. lia.
  - unfold cellValidity in Hcell.
    destruct (isValid (zget noHypothesis g (x' + y' * W))); [reflexivity |].
    exfalso. apply Hcell. reflexivity.
Qed.

Lemma window5x5_from_grid (g : list DepthMapPixelHypothesis) (W x y : Z)
  (h : DepthMapPixelHypothesis) :
  In h (window5x5 g W x y) -> exists idx, h = zget noHypothesis g idx.
Proof.
  unfold window5x5. intros Hin. apply in_flat_map in Hin.
  destruct Hin as (y' & _ & Hin). apply in_map_iff in Hin.
  destruct Hin as (x' & Heq & _). exists (x' + y' * W). symmetry. exact Heq.
Qed.

(** The two sums of the weighted average over cells that satisfy the
    invariant. *)
Lemma weighted_sums_range (l : list DepthMapPixelHypothesis) :
  (forall h, In h l ->
     (0 < idepth h)%Q /\ (0 < idepth_var h)%Q /\ (idepth h <= 1 / MIN_DEPTH cfg)%Q) ->
  let a := Qsum (map (fun h => idepth h / idepth_var h)%Q l) in
  let b := Qsum (map (fun h => 1 / idepth_var h)%Q l) in
  (0 <= a)%Q /\ (0 <= b)%Q /\ (a <= 1 / MIN_DEPTH cfg * b)%Q
  /\ (l <> [] -> (0 < a)%Q /\ (0 < b)%Q).
Proof.
  induction l as [| h l IH]; intros Hall; cbn [map Qsum].
  - repeat split; try lra; exfalso; congruence.
  - destruct (Hall h (or_introl eq_refl)) as (Hid & Hvar & Hb).
    destruct IH as (Ha0 & Hb0 & Hab & _).
    { intros h' Hh'. apply Hall. right. exact Hh'. }
    assert (Hiv : (0 < 1 / idepth_var h)%Q) by (apply Qlt_shift_div_l; lra).
    assert (Hq : (idepth h / idepth_var h == idepth h * (1 / idepth_var h))%Q)
      by (field; lra).
    assert (Hq0 : (0 < idepth h / idepth_var h)%Q).
    { rewrite Hq. apply Qmult_lt_0_compat; assumption. }
    assert (Hqb : (idepth h / idepth_var h
                   <= 1 / MIN_DEPTH cfg * (1 / idepth_var h))%Q).
    { rewrite Hq. apply Qmult_le_compat_r; lra. }
    cbv zeta. repeat split; try lra.
Qed.

(** The hole filling of one pixel keeps the invariant, provided the value
    read from the integral buffer is the validity sum of the window. *)
Lemma fillHolesPixel_invariant (y : Z) (dm : DepthMap) (x : Z) :
  (0 < UNZERO_EPS cfg)%Q -> (UNZERO_EPS cfg <= 1 / MIN_DEPTH cfg)%Q ->
  (0 < VAR_RANDOM_INIT_INITIAL cfg)%Q ->
  0 <= VAL_SUM_MIN_FOR_CREATE cfg -> 0 <= VAL_SUM_MIN_FOR_UNBLACKLIST cfg ->
  gridInvariant (otherDepthMap dm) ->
  integralWindow dm (x + y * width dm)
  = windowValiditySum (otherDepthMap dm) (width dm) x y ->
  gridInvariant (currentDepthMap dm) ->
  gridInvariant (currentDepthMap (fillHolesPixel y dm x)).
Proof.
  intros Heps Hepsb Hinit Hcreate Hunbl Hother Hval Hg. unfold fillHolesPixel.
  destruct (isValid _); [exact Hg |].
  destruct (Qltb _ _); [exact Hg |].
  destruct (fillHolesCreates _ _) eqn:Ec; [| exact Hg].
  apply fillHolesCreates_iff in Ec. rewrite Hval in Ec.
  assert (Hne : windowValiditySum (otherDepthMap dm) (width dm) x y <> 0) by lia.
  destruct (window_has_valid_cell _ _ _ _ Hne) as (h0 & Hin0 & Hv0).
  set (valid := filter (fun h => isValid h = true)
                  (window5x5 (otherDepthMap dm) (width dm) x y)).
  assert (Hnonempty : valid <> []).
  { intros Hnil.
    assert (Hin : h0 ∈ valid).
    { apply list_elem_of_filter. split; [exact Hv0 |]. apply list_elem_of_In. exact Hin0. }
    rewrite Hnil in Hin. apply elem_of_nil in Hin. exact Hin. }
  assert (Hall : forall h, In h valid ->
            (0 < idepth h)%Q /\ (0 < idepth_var h)%Q
            /\ (idepth h <= 1 / MIN_DEPTH cfg)%Q).
  { intros h Hh. apply list_elem_of_In in Hh. apply list_elem_of_filter in Hh.
    destruct Hh as [Hv Hin]. apply list_elem_of_In in Hin.
    destruct (window5x5_from_grid _ _ _ _ _ Hin) as (idx & ->).
    apply (Hother idx). exact Hv. }
  destruct (weighted_sums_range valid Hall) as (_ & _ & Hab & Hpos).
  destruct (Hpos Hnonempty) as [Ha0 Hb0].
  pose proof (fillHolesWindow_weighted dm x y) as Hsums.
  destruct (fillHolesWindow dm x y) as [[a b] n]. cbv zeta in Hsums.
  fold valid in Hsums. destruct Hsums as [Ha Hb].
  apply gridInvariant_store; [exact Hg |].
  assert (Hq0 : (0 <= a / b)%Q).
  { apply Qle_shift_div_l; [rewrite Hb; exact Hb0 |]. rewrite Ha. lra. }
  assert (Hqb : (a / b <= 1 / MIN_DEPTH cfg)%Q).
  { apply Qle_shift_div_r; [rewrite Hb; exact Hb0 |]. rewrite Ha, Hb. exact Hab. }
  destruct (UNZERO_in_range _ Heps Hepsb Hq0 Hqb) as [Hu0 Hub].
  intros _. simpl. repeat split; assumption.
Qed.

(** C1, as the code has it.  The invariant "a valid cell has [idepth > 0],
    [idepth_var > 0] and [idepth <= 1/MIN_DEPTH]" is kept, for every cell of
    the grid, by the observation pass (creation and update) provided every
    stereo result that is accepted carries an inverse depth in
    [0, 1/MIN_DEPTH] and a positive variance, by hole filling and by
    regularization.  (Propagation, which installs [1 / p.z] without a test
    on its sign or size, and the rescaling, which multiplies [idepth] by the
    scale factor, are not covered.)  The constants are assumed sane:
    the epsilon of [UNZERO] positive and at most [1/MIN_DEPTH], the variance
    factors and the initial variance positive, the creation thresholds
    non-negative. *)
Theorem hypothesisInvariant_preserved (dm : DepthMap)
  (removeOcclusions : bool) (validityTH : Z) :
  (0 < UNZERO_EPS cfg)%Q -> (UNZERO_EPS cfg <= 1 / MIN_DEPTH cfg)%Q ->
  (0 < SUCC_VAR_INC_FAC cfg)%Q -> (0 < FAIL_VAR_INC_FAC cfg)%Q ->
  (0 < VAR_RANDOM_INIT_INITIAL cfg)%Q ->
  0 <= VAL_SUM_MIN_FOR_CREATE cfg -> 0 <= VAL_SUM_MIN_FOR_UNBLACKLIST cfg ->
  height dm * width dm <= Z.of_nat (length (validityIntegralBuffer dm)) ->
  (forall coord a p b f, In f (referenceFrames dm) ->
     stereoResultInRange
       (doLineStereo (withoutBuffers dm) coord a p b f
          (uninitialized, uninitialized, uninitialized))) ->
  gridInvariant (currentDepthMap dm) ->
  gridInvariant (currentDepthMap (observeDepth dm))
  /\ gridInvariant (currentDepthMap (regularizeDepthMapFillHoles dm))
  /\ gridInvariant
       (currentDepthMap (regularizeDepthMap removeOcclusions validityTH dm)).
Proof.
  intros Heps Hepsb Hsucc Hfail Hinit Hcreate Hunbl Hbuf Hstereo Hg.
  split; [| split].
  - rewrite observeDepth_pass.
    apply (pixelPass_invariant observeDepthPixel observeDepthPixel_local 3 3
             (fun d => gridInvariant (currentDepthMap d))).
    + exact Hg.
    + intros y x dm' Hy Hx Hf Hl Hg'.
      apply observeDepthPixel_invariant; try assumption.
      intros coord a p b f Hin.
      rewrite (frameOf_withoutBuffers dm' dm Hf). apply Hstereo.
      replace (referenceFrames dm) with (referenceFrames dm'); [exact Hin |].
      unfold referenceFrames.
      rewrite (f_equal oldest_referenceFrame Hf : oldest_referenceFrame dm' = _).
      rewrite (f_equal newest_referenceFrame Hf : newest_referenceFrame dm' = _).
      rewrite (f_equal referenceFrameByID Hf : referenceFrameByID dm' = _).
      reflexivity.
  - rewrite regularizeDepthMapFillHoles_pass.
    apply (pixelPass_invariant fillHolesPixel fillHolesPixel_local 3 2
             (fun d => gridInvariant (currentDepthMap d))).
    + exact Hg.
    + intros y x dm' Hy Hx Hf Hl Hg'.
      change (width (fillHolesStart dm)) with (width dm) in Hx.
      assert (Hw : width dm' = width dm) by (apply (frameOf_width _ _ Hf)).
      assert (Ho : otherDepthMap dm' = currentDepthMap dm)
        by (apply (frameOf_otherDepthMap _ _ Hf)).
      apply fillHolesPixel_invariant; try assumption.
      * rewrite Ho. exact Hg.
      * rewrite Ho, Hw.
        transitivity (integralWindow (buildRegIntegralBuffer dm) (x + y * width dm)).
        -- unfold integralWindow. rewrite Hw.
           rewrite (f_equal validityIntegralBuffer Hf
                    : validityIntegralBuffer dm' = _).
           reflexivity.
        -- apply integralWindow_direct_sum; (lia || assumption).
  - rewrite regularizeDepthMap_pass.
    apply (pixelPass_invariant _ (regularizePixel_local removeOcclusions validityTH)
             2 2 (fun d => gridInvariant (currentDepthMap d))).
    + exact Hg.
    + intros y x dm' _ _ _ _ Hg'. apply regularizePixel_invariant. exact Hg'.
Qed.

(** ** The rescaling of [createKeyFrame] *)









(** ** Row blocks: the order in which the rows are processed *)

Lemma sameCells_eq (g g' : list DepthMapPixelHypothesis) : sameCells g g' -> g = g'.
Proof.
  intros [Hl Hc]. apply list_eq. intros i.
  specialize (Hc (Z.of_nat i)). unfold zget in Hc.
  destruct (Z.ltb_spec (Z.of_nat i) 0) as [Hneg | _]; [lia |].
  rewrite Nat2Z.id in Hc.
  destruct (g !! i) as [h |] eqn:E; destruct (g' !! i) as [h' |] eqn:E'.
  - simpl in Hc. rewrite Hc. reflexivity.
  - exfalso. apply lookup_lt_Some in E. apply lookup_ge_None in E'. lia.
  - exfalso. apply lookup_lt_Some in E'. apply lookup_ge_None in E. lia.
  - reflexivity.
Qed.

Lemma depthMap_ext (dm dm' : DepthMap) :
  frameOf dm = frameOf dm' -> currentDepthMap dm = currentDepthMap dm' -> dm = dm'.
Proof.
  destruct dm, dm'. unfold frameOf, set_currentDepthMap. simpl.
  intros Hf Hg. inversion Hf. subst. reflexivity.
Qed.

Lemma for_range_split {St : Type} (lo mid hi : Z) (body : St -> Z -> St) (st : St) :
  lo <= mid <= hi ->
  for_range mid hi body (for_range lo mid body st) = for_range lo hi body st.
Proof.
  intros H. unfold for_range.
  replace (hi - lo) with ((mid - lo) + (hi - mid)) by lia.
  rewrite seqZ_app by lia. rewrite fold_left_app.
  replace (lo + (mid - lo)) with mid by lia. reflexivity.
Qed.

Section PixelPassOrder.

Variable body : Z -> DepthMap -> Z -> DepthMap.
Hypothesis body_local : pixelLocal body.
Hypothesis body_determined : cellDetermined body.
Variables xlo xoff : Z.
Hypothesis xlo_nonneg : 0 <= xlo.
Hypothesis xoff_nonneg : 0 <= xoff.

Lemma pixelPass_frame (yMin yMax : Z) (dm : DepthMap) :
  frameOf (pixelPass xlo xoff body yMin yMax dm) = frameOf dm
  /\ length (currentDepthMap (pixelPass xlo xoff body yMin yMax dm))
     = length (currentDepthMap dm).
Proof using body_local.
  apply (pixelPass_invariant body body_local xlo xoff (fun _ => True)).
  - exact I.
  - intros. exact I.
Qed.

(** Whether a cell index is that of a pixel of the pass. *)
Lemma pass_pixel_dec (W yMin yMax j : Z) :
  (exists x y, yMin <= y < yMax /\ xlo <= x < W - xoff /\ j = x + y * W)
  \/ (forall x y, yMin <= y < yMax -> xlo <= x < W - xoff -> j <> x + y * W).
Proof using xlo_nonneg xoff_nonneg.
  destruct (Z.le_gt_cases W 0) as [HW | HW].
  { right. intros x y _ Hx. lia. }
  set (x0 := j mod W). set (y0 := j / W).
  assert (Hj : j = x0 + y0 * W).
  { unfold x0, y0. rewrite (Z.div_mod j W) at 1 by lia. lia. }
  assert (Hx0 : 0 <= x0 < W) by (unfold x0; apply Z.mod_pos_bound; lia).
  destruct (Z_le_dec yMin y0); [| right].
  - destruct (Z_lt_dec y0 yMax); [| right].
    + destruct (Z_le_dec xlo x0); [| right].
      * destruct (Z_lt_dec x0 (W - xoff)); [left | right].
        -- exists x0, y0. repeat split; assumption || lia.
        -- intros x y Hy Hx Heq.
           destruct (flat_index_inj W x y x0 y0) as [-> ->]; [lia | lia | lia | lia].
      * intros x y Hy Hx Heq.
        destruct (flat_index_inj W x y x0 y0) as [-> ->]; [lia | lia | lia | lia].
    + intros x y Hy Hx Heq.
      destruct (flat_index_inj W x y x0 y0) as [-> ->]; [lia | lia | lia | lia].
  - intros x y Hy Hx Heq.
    destruct (flat_index_inj W x y x0 y0) as [-> ->]; [lia | lia | lia | lia].
Qed.

(** Two blocks of rows can be processed in either order. *)
Lemma pixelPass_blocks_commute (yMin yMid yMax : Z) (dm : DepthMap) :
  yMin <= yMid <= yMax ->
  pixelPass xlo xoff body yMin yMid (pixelPass xlo xoff body yMid yMax dm)
  = pixelPass xlo xoff body yMin yMax dm.
Proof using body_local body_determined xlo_nonneg xoff_nonneg.
  intros Hmid.
  set (A := pixelPass xlo xoff body yMid yMax dm).
  destruct (pixelPass_frame yMid yMax dm) as [HfA HlA]. fold A in HfA, HlA.
  destruct (pixelPass_frame yMin yMid A) as [HfB HlB].
  destruct (pixelPass_frame yMin yMax dm) as [HfC HlC].
  assert (HwA : width A = width dm) by (apply frameOf_width; exact HfA).
  apply depthMap_ext; [congruence |].
  apply sameCells_eq. split; [congruence |]. intros j.
  destruct (pass_pixel_dec (width dm) yMin yMax j)
    as [(x & y & Hy & Hx & Hj) | Hout].
  - rewrite Hj at 2.
    rewrite (pixelPass_cell body body_local xlo xoff body_determined
               yMin yMax dm x y) by assumption.
    destruct (Z_lt_dec y yMid) as [Hlow | Hhigh].
    + assert (HAj : zget noHypothesis (currentDepthMap A) j
                    = zget noHypothesis (currentDepthMap dm) j).
      { apply (pixelPass_untouched body body_local).
        intros x' y' Hy' Hx' Heq. rewrite Hj in Heq.
        destruct (flat_index_inj (width dm) x y x' y') as [_ Hyy];
          [lia | lia | exact Heq |]. lia. }
      rewrite Hj. rewrite <- HwA.
      rewrite (pixelPass_cell body body_local xlo xoff body_determined
                 yMin yMid A x y) by (rewrite ?HwA; lia).
      apply body_determined; [exact HfA | exact HlA |].
      rewrite HwA, <- Hj. exact HAj.
    + rewrite (pixelPass_untouched body body_local).
      * rewrite Hj. unfold A.
        apply (pixelPass_cell body body_local xlo xoff body_determined
                 yMid yMax dm x y); lia.
      * intros x' y' Hy' Hx' Heq. rewrite HwA in Hx', Heq. rewrite Hj in Heq.
        destruct (flat_index_inj (width dm) x y x' y') as [_ Hyy];
          [lia | lia | exact Heq |]. lia.
  - rewrite (pixelPass_untouched body body_local xlo xoff yMin yMid A j).
    + unfold A.
      rewrite (pixelPass_untouched body body_local xlo xoff yMid yMax dm j).
      * symmetry. apply (pixelPass_untouched body body_local). exact Hout.
      * intros x y Hy Hx. apply Hout; lia.
    + intros x y Hy Hx. rewrite HwA in *. apply Hout; lia.
Qed.

End PixelPassOrder.

Lemma updateFromStereo_frame (dm dm' : DepthMap) (target : DepthMapPixelHypothesis)
  (absGrad : Q) (refFrame : Frame) (r : StereoResult) :
  activeKeyFrame dm = activeKeyFrame dm' ->
  updateFromStereo dm target absGrad refFrame r
  = updateFromStereo dm' target absGrad refFrame r.
Proof. intros Hk. unfold updateFromStereo. rewrite Hk. reflexivity. Qed.

(** The observation of a pixel depends on the grid through the cell of the
    pixel only. *)
Lemma observeDepthPixel_determined : cellDetermined observeDepthPixel.
Proof.
  intros y x dm dm' Hf Hl Hc.
  assert (Hw : width dm' = width dm) by (symmetry; apply frameOf_width; exact Hf).
  assert (Hk : activeKeyFrame dm' = activeKeyFrame dm)
    by (apply (f_equal activeKeyFrame) in Hf; symmetry; exact Hf).
  assert (Hre : activeKeyFrameIsReactivated dm' = activeKeyFrameIsReactivated dm)
    by (apply (f_equal activeKeyFrameIsReactivated) in Hf; symmetry; exact Hf).
  assert (Hold : oldest_referenceFrame dm' = oldest_referenceFrame dm)
    by (apply (f_equal oldest_referenceFrame) in Hf; symmetry; exact Hf).
  assert (Hnew : newest_referenceFrame dm' = newest_referenceFrame dm)
    by (apply (f_equal newest_referenceFrame) in Hf; symmetry; exact Hf).
  assert (Hby : referenceFrameByID dm' = referenceFrameByID dm)
    by (apply (f_equal referenceFrameByID) in Hf; symmetry; exact Hf).
  assert (Hoff : referenceFrameByID_offset dm' = referenceFrameByID_offset dm)
    by (apply (f_equal referenceFrameByID_offset) in Hf; symmetry; exact Hf).
  assert (Hwb : withoutBuffers dm' = withoutBuffers dm)
    by (symmetry; apply frameOf_withoutBuffers; exact Hf).
  unfold observeDepthPixel. rewrite Hw, Hk.
  set (idx := x + y * width dm) in *.
  rewrite <- Hc.
  set (target := zget noHypothesis (currentDepthMap dm) idx) in *.
  destruct (_ && _); [apply storeCurrent_same_cell; assumption |].
  destruct (_ || _); [exact Hc |].
  destruct (negb (isValid target)).
  - unfold observeDepthCreate, wasGoodDuringTracking.
    rewrite Hw, Hk, Hre, Hold, Hnew, Hwb. fold idx. rewrite <- Hc. fold target.
    cbn [fst snd].
    destruct (negb _); [exact Hc |].
    destruct (_ || _); apply storeCurrent_same_cell; assumption.
  - unfold observeDepthUpdate, updateReferenceFrame, updateStereo,
      wasGoodDuringTracking.
    rewrite Hw, Hk, Hre, Hold, Hnew, Hby, Hoff, Hwb. fold idx. rewrite <- Hc.
    fold target. cbn [fst snd].
    destruct (if negb (activeKeyFrameIsReactivated dm) then _ else _)
      as [refFrame |]; [| exact Hc].
    destruct (negb _); [exact Hc |].
    rewrite (updateFromStereo_frame dm' dm) by exact Hk.
    destruct (updateFromStereo _ _ _ _ _) as [target' success].
    apply storeCurrent_same_cell; assumption.
Qed.

(** The smoothing of a pixel reads the snapshot of the grid and, of the grid
    itself, the cell of the pixel only. *)
Lemma regularizePixel_determined (removeOcclusions : bool) (validityTH : Z) :
  cellDetermined (regularizePixel removeOcclusions validityTH).
Proof.
  intros y x dm dm' Hf Hl Hc.
  assert (Hw : width dm' = width dm) by (symmetry; apply frameOf_width; exact Hf).
  assert (Ho : otherDepthMap dm' = otherDepthMap dm)
    by (symmetry; apply frameOf_otherDepthMap; exact Hf).
  assert (Hs : smoothWindow removeOcclusions dm' (x + y * width dm)
               = smoothWindow removeOcclusions dm (x + y * width dm)).
  { unfold smoothWindow, smoothAccumulate. rewrite Hw, Ho. reflexivity. }
  unfold regularizePixel. rewrite Hw, Ho, Hs, <- Hc.
  destruct (negb _); [exact Hc |].
  destruct (Qltb _ _); [apply storeCurrent_same_cell; assumption |].
  destruct (_ && _); apply storeCurrent_same_cell; assumption.
Qed.

(** X1.  The row blocks of the observation can be processed in any order:
    for [yMin <= yMid <= yMax], running [observeDepthRow] on the rows
    [yMid..yMax-1] first and on the rows [yMin..yMid-1] afterwards leaves
    the object exactly as running it on the rows [yMin..yMid-1] first, and
    both leave it as one call on the rows [yMin..yMax-1].  (The source hands
    the row blocks to worker threads; the result of the observation of a
    pixel depends on the cell of that pixel only.) *)
Theorem observeDepthRow_blocks_commute (yMin yMid yMax : Z) (dm : DepthMap) :
  yMin <= yMid <= yMax ->
  observeDepthRow yMin yMid (observeDepthRow yMid yMax dm)
  = observeDepthRow yMin yMax dm
  /\ observeDepthRow yMid yMax (observeDepthRow yMin yMid dm)
     = observeDepthRow yMin yMax dm.
Proof.
  intros Hmid. split.
  - apply (pixelPass_blocks_commute observeDepthPixel observeDepthPixel_local
             observeDepthPixel_determined 3 3); lia.
  - unfold observeDepthRow. apply for_range_split. exact Hmid.
Qed.

(** X2.  The same for the two passes of the regularizer: the row blocks of
    [regularizeDepthMapRow] and of [regularizeDepthMapFillHolesRow] can be
    processed in either order, with the result of one call on all the
    rows. *)
Theorem regularize_rows_blocks_commute (removeOcclusions : bool) (validityTH : Z)
  (yMin yMid yMax : Z) (dm : DepthMap) :
  yMin <= yMid <= yMax ->
  (regularizeDepthMapRow removeOcclusions validityTH yMin yMid
     (regularizeDepthMapRow removeOcclusions validityTH yMid yMax dm)
   = regularizeDepthMapRow removeOcclusions validityTH yMin yMax dm
   /\ regularizeDepthMapRow removeOcclusions validityTH yMid yMax
        (regularizeDepthMapRow removeOcclusions validityTH yMin yMid dm)
      = regularizeDepthMapRow removeOcclusions validityTH yMin yMax dm)
  /\ (regularizeDepthMapFillHolesRow yMin yMid
        (regularizeDepthMapFillHolesRow yMid yMax dm)
      = regularizeDepthMapFillHolesRow yMin yMax dm
      /\ regularizeDepthMapFillHolesRow yMid yMax
           (regularizeDepthMapFillHolesRow yMin yMid dm)
         = regularizeDepthMapFillHolesRow yMin yMax dm).
Proof.
  intros Hmid. split; split.
  - apply (pixelPass_blocks_commute (regularizePixel removeOcclusions validityTH)
             (regularizePixel_local removeOcclusions validityTH)
             (regularizePixel_determined removeOcclusions validityTH) 2 2); lia.
  - unfold regularizeDepthMapRow. apply for_range_split. exact Hmid.
  - apply (pixelPass_blocks_commute fillHolesPixel fillHolesPixel_local
             fillHolesPixel_determined 3 2); lia.
  - unfold regularizeDepthMapFillHolesRow. apply for_range_split. exact Hmid.
Qed.

(** ** The gates of the observation *)

Lemma frameOf_activeKeyFrame (dm dm' : DepthMap) :
  frameOf dm = frameOf dm' -> activeKeyFrame dm = activeKeyFrame dm'.
Proof. intros H. apply (f_equal activeKeyFrame) in H. exact H. Qed.

(** The cell that the observation leaves at a pixel it visits. *)
Lemma observeDepth_pixel (dm : DepthMap) (x y : Z) :
  3 <= x < width dm - 3 -> 3 <= y < height dm - 3 ->
  zget noHypothesis (currentDepthMap (observeDepth dm)) (x + y * width dm)
  = zget noHypothesis (currentDepthMap (observeDepthPixel y dm x)) (x + y * width dm).
Proof.
  intros Hx Hy. rewrite observeDepth_pass.
  apply (pixelPass_cell observeDepthPixel observeDepthPixel_local 3 3
           observeDepthPixel_determined 3 (height dm - 3) dm x y);
    (lia || exact Hx || exact Hy).
Qed.

(** X3.  What the observation never touches: a cell whose key-frame
    max-gradient is below [MIN_ABS_GRAD_CREATE] or whose blacklist counter
    is below [MIN_BLACKLIST] is left exactly as it was by [observeDepth],
    unless it is a valid cell with a gradient below [MIN_ABS_GRAD_DECREASE]
    (which is invalidated).  In particular no hypothesis is created, and
    none is updated, at a blacklisted or weakly textured pixel. *)
Theorem observeDepth_gate_keeps_cell (dm : DepthMap) (idx : Z) :
  let cell := zget noHypothesis (currentDepthMap dm) idx in
  let grad := zget 0%Q (maxGradients (activeKeyFrame dm)) idx in
  (isValid cell = false \/ (MIN_ABS_GRAD_DECREASE cfg <= grad)%Q) ->
  ((grad < MIN_ABS_GRAD_CREATE cfg)%Q \/ blacklisted cell < MIN_BLACKLIST cfg) ->
  zget noHypothesis (currentDepthMap (observeDepth dm)) idx = cell.
Proof.
  intros cell grad Hkeep Hgate. rewrite observeDepth_pass.
  apply (pixelPass_invariant observeDepthPixel observeDepthPixel_local 3 3
           (fun d => zget noHypothesis (currentDepthMap d) idx = cell)).
  - reflexivity.
  - intros y x dm' Hy Hx Hf Hl HP.
    destruct (Z.eq_dec idx (x + y * width dm')) as [Heq | Hne].
    + unfold observeDepthPixel. rewrite <- Heq, HP.
      rewrite (frameOf_activeKeyFrame _ _ Hf). fold grad.
      assert (H1 : isValid cell && Qltb grad (MIN_ABS_GRAD_DECREASE cfg) = false).
      { destruct Hkeep as [Hv | Hg].
        - rewrite Hv. reflexivity.
        - rewrite (proj2 (Qltb_false _ _) Hg). apply andb_false_r. }
      assert (H2 : Qltb grad (MIN_ABS_GRAD_CREATE cfg)
                   || Z.ltb (blacklisted cell) (MIN_BLACKLIST cfg) = true).
      { destruct Hgate as [Hg | Hb].
        - rewrite (proj2 (Qltb_true _ _) Hg). reflexivity.
        - rewrite (proj2 (Z.ltb_lt _ _) Hb). apply orb_true_r. }
      rewrite H1, H2. exact HP.
    + destruct (observeDepthPixel_local y dm' x) as (_ & _ & Hother).
      rewrite Hother by exact Hne. exact HP.
Qed.

(** X4.  A valid hypothesis at a pixel that the observation visits
    ([3 <= x < width - 3], [3 <= y < height - 3]) whose key-frame
    max-gradient is below [MIN_ABS_GRAD_DECREASE] is invalidated by
    [observeDepth]; its other fields, the blacklist counter included, are
    kept. *)
Theorem observeDepth_low_gradient_invalidates (dm : DepthMap) (x y : Z) :
  let idx := x + y * width dm in
  let cell := zget noHypothesis (currentDepthMap dm) idx in
  height dm * width dm <= Z.of_nat (length (currentDepthMap dm)) ->
  3 <= x < width dm - 3 ->
  3 <= y < height dm - 3 ->
  isValid cell = true ->
  (zget 0 (maxGradients (activeKeyFrame dm)) idx < MIN_ABS_GRAD_DECREASE cfg)%Q ->
  zget noHypothesis (currentDepthMap (observeDepth dm)) idx = set_isValid false cell.
Proof.
  intros idx cell Hlen Hx Hy Hvalid Hgrad.
  unfold idx. rewrite observeDepth_pixel by assumption. fold idx.
  unfold observeDepthPixel. fold idx. fold cell.
  rewrite Hvalid, (proj2 (Qltb_true _ _) Hgrad). simpl andb. cbv iota.
  simpl. apply zget_zset_eq. unfold idx. nia.
Qed.

(** ** Two invariants of the valid hypotheses *)

Lemma varianceCapped_store (dm : DepthMap) (idx : Z) (h : DepthMapPixelHypothesis) :
  varianceCapped (currentDepthMap dm) ->
  (isValid h = true -> (idepth_var h <= MAX_VAR cfg)%Q) ->
  varianceCapped (currentDepthMap (storeCurrent dm idx h)).
Proof.
  intros Hg Hh j. simpl.
  destruct (zget_zset_cases noHypothesis (currentDepthMap dm) idx j h) as [-> | ->].
  - exact Hh.
  - apply Hg.
Qed.

Lemma validityNonNegative_store (dm : DepthMap) (idx : Z)
  (h : DepthMapPixelHypothesis) :
  validityNonNegative (currentDepthMap dm) ->
  (isValid h = true -> 0 <= validity_counter h) ->
  validityNonNegative (currentDepthMap (storeCurrent dm idx h)).
Proof.
  intros Hg Hh j. simpl.
  destruct (zget_zset_cases noHypothesis (currentDepthMap dm) idx j h) as [-> | ->].
  - exact Hh.
  - apply Hg.
Qed.

(** The update of a valid cell keeps its variance at or below [MAX_VAR]. *)
Lemma updateFromStereo_variance (dm : DepthMap) (target : DepthMapPixelHypothesis)
  (absGrad : Q) (refFrame : Frame) (r : StereoResult) :
  (idepth_var target <= MAX_VAR cfg)%Q ->
  let target' := fst (updateFromStereo dm target absGrad refFrame r) in
  isValid target' = true -> (idepth_var target' <= MAX_VAR cfg)%Q.
Proof.
  intros Hvar. unfold updateFromStereo.
  destruct (Qeq_bool (error r) (-5)); [intros _; exact Hvar |].
  destruct (Qeq_bool (error r) (-1)); [intros _; exact Hvar |].
  destruct (Qeq_bool (error r) (-2)).
  { cbv zeta. simpl idepth_var.
    destruct (Qltb (MAX_VAR cfg) _) eqn:E; simpl; [discriminate |].
    intros _. apply Qltb_false. exact E. }
  destruct (Qeq_bool (error r) (-3)); [intros _; exact Hvar |].
  destruct (Qeq_bool (error r) (-4)); [intros _; exact Hvar |].
  destruct (Qltb (result_var r + idepth_var_smoothed target) _).
  { cbv zeta. simpl idepth_var.
    destruct (Qltb (MAX_VAR cfg) _) eqn:E; simpl; [discriminate |].
    intros _. apply Qltb_false. exact E. }
  cbv zeta. simpl fst. intros _.
  set (id_var := (idepth_var target * SUCC_VAR_INC_FAC cfg
                  * (result_var r
                     / (result_var r + idepth_var target * SUCC_VAR_INC_FAC cfg)))%Q).
  destruct (Qltb id_var _) eqn:E.
  - apply Qltb_true in E. simpl in E.
    destruct (Qltb (result_eplLength r) (MIN_EPL_LENGTH_CROP cfg)); simpl;
      apply Qle_trans with (idepth_var target); (exact Hvar || apply Qlt_le_weak; exact E).
  - destruct (Qltb (result_eplLength r) (MIN_EPL_LENGTH_CROP cfg)); simpl; exact Hvar.
Qed.

(** The update of a valid cell keeps its validity counter from becoming
    negative. *)
Lemma updateFromStereo_validity (dm : DepthMap) (target : DepthMapPixelHypothesis)
  (absGrad : Q) (refFrame : Frame) (r : StereoResult) :
  0 <= VALIDITY_COUNTER_INC cfg ->
  (0 <= VALIDITY_COUNTER_MAX cfg
        + absGrad * VALIDITY_COUNTER_MAX_VARIABLE cfg / 255)%Q ->
  0 <= validity_counter target ->
  0 <= validity_counter (fst (updateFromStereo dm target absGrad refFrame r)).
Proof.
  intros Hinc Hbound Hvc. unfold updateFromStereo.
  destruct (Qeq_bool (error r) (-5)); [exact Hvc |].
  destruct (Qeq_bool (error r) (-1)); [exact Hvc |].
  destruct (Qeq_bool (error r) (-2)).
  { cbv zeta. simpl idepth_var.
    destruct (Qltb (MAX_VAR cfg) _); simpl;
      destruct (Z.ltb_spec (validity_counter target - VALIDITY_COUNTER_DEC cfg) 0);
      lia. }
  destruct (Qeq_bool (error r) (-3)); [exact Hvc |].
  destruct (Qeq_bool (error r) (-4)); [exact Hvc |].
  destruct (Qltb (result_var r + idepth_var_smoothed target) _).
  { cbv zeta. simpl idepth_var. destruct (Qltb (MAX_VAR cfg) _); simpl; exact Hvc. }
  cbv zeta. simpl fst.
  assert (Hfloor : 0 <= float_to_int
                          (VALIDITY_COUNTER_MAX cfg
                           + absGrad * VALIDITY_COUNTER_MAX_VARIABLE cfg / 255)).
  { rewrite float_to_int_nonneg by exact Hbound.
    rewrite <- (Qfloor_Z 0). apply Qfloor_resp_le. exact Hbound. }
  destruct (Qltb _ (idepth_var _));
    destruct (Qltb (result_eplLength r) (MIN_EPL_LENGTH_CROP cfg)); simpl;
    destruct (Qltb _ (inject_Z _)); simpl; lia.
Qed.

Lemma observeDepthPixel_variance (y : Z) (dm : DepthMap) (x : Z) :
  varianceCapped (currentDepthMap dm) ->
  varianceCapped (currentDepthMap (observeDepthPixel y dm x)).
Proof.
  intros Hg. unfold observeDepthPixel.
  set (idx := x + y * width dm).
  set (target := zget noHypothesis (currentDepthMap dm) idx).
  destruct (_ && _).
  { apply varianceCapped_store; [exact Hg | discriminate]. }
  destruct (_ || _); [exact Hg |].
  destruct (isValid target) eqn:Hvalid; simpl negb; cbv iota.
  - unfold observeDepthUpdate. fold target. cbn [fst snd].
    destruct (updateReferenceFrame dm target) as [refFrame |]; [| exact Hg].
    destruct (negb (wasGoodDuringTracking _ _ _ _)); [exact Hg |].
    pose proof (updateFromStereo_variance dm target
                  (zget 0%Q (maxGradients (activeKeyFrame dm)) idx) refFrame
                  (updateStereo dm (x, y) target refFrame)
                  (Hg idx Hvalid)) as Hupd.
    destruct (updateFromStereo _ _ _ _ _) as [target' success]. simpl.
    apply varianceCapped_store; [exact Hg | exact Hupd].
  - unfold observeDepthCreate. fold target. cbn [fst snd].
    destruct (negb (wasGoodDuringTracking _ _ _ _)); [exact Hg |].
    set (r := doLineStereo _ _ _ _ _ _ _).
    destruct (Qltb (error r) 0); simpl orb.
    { simpl. apply varianceCapped_store; [exact Hg |].
      destruct (_ || _); simpl; rewrite Hvalid; discriminate. }
    destruct (Qltb (MAX_VAR cfg) (result_var r)) eqn:E; simpl.
    { apply varianceCapped_store; [exact Hg |].
      destruct (_ || _); simpl; rewrite Hvalid; discriminate. }
    apply varianceCapped_store; [exact Hg |].
    intros _. simpl. apply Qltb_false. exact E.
Qed.

Lemma observeDepthPixel_validity (y : Z) (dm : DepthMap) (x : Z) :
  0 <= VALIDITY_COUNTER_INC cfg ->
  0 <= VALIDITY_COUNTER_INITIAL_OBSERVE cfg ->
  (0 <= VALIDITY_COUNTER_MAX cfg)%Q ->
  (0 <= VALIDITY_COUNTER_MAX_VARIABLE cfg)%Q ->
  (forall idx, (0 <= zget 0 (maxGradients (activeKeyFrame dm)) idx)%Q) ->
  validityNonNegative (currentDepthMap dm) ->
  validityNonNegative (currentDepthMap (observeDepthPixel y dm x)).
Proof.
  intros Hinc Hinit Hmax Hmaxv Hgrad Hg. unfold observeDepthPixel.
  set (idx := x + y * width dm).
  set (target := zget noHypothesis (currentDepthMap dm) idx).
  destruct (_ && _).
  { apply validityNonNegative_store; [exact Hg | discriminate]. }
  destruct (_ || _); [exact Hg |].
  destruct (isValid target) eqn:Hvalid; simpl negb; cbv iota.
  - unfold observeDepthUpdate. fold target. cbn [fst snd].
    destruct (updateReferenceFrame dm target) as [refFrame |]; [| exact Hg].
    destruct (negb (wasGoodDuringTracking _ _ _ _)); [exact Hg |].
    assert (Hbound : (0 <= VALIDITY_COUNTER_MAX cfg
                           + zget 0 (maxGradients (activeKeyFrame dm)) idx
                             * VALIDITY_COUNTER_MAX_VARIABLE cfg / 255)%Q).
    { assert (H0 : (0 <= zget 0 (maxGradients (activeKeyFrame dm)) idx
                         * VALIDITY_COUNTER_MAX_VARIABLE cfg)%Q)
        by (apply Qmult_le_0_compat; [apply Hgrad | exact Hmaxv]).
      assert (H1 : (0 <= zget 0 (maxGradients (activeKeyFrame dm)) idx
                         * VALIDITY_COUNTER_MAX_VARIABLE cfg / 255)%Q)
        by (apply Qle_shift_div_l; [reflexivity | lra]).
      lra. }
    pose proof (updateFromStereo_validity dm target
                  (zget 0%Q (maxGradients (activeKeyFrame dm)) idx) refFrame
                  (updateStereo dm (x, y) target refFrame)
                  Hinc Hbound (Hg idx Hvalid)) as Hupd.
    destruct (updateFromStereo _ _ _ _ _) as [target' success]. simpl.
    apply validityNonNegative_store; [exact Hg | intros _; exact Hupd].
  - unfold observeDepthCreate. fold target. cbn [fst snd].
    destruct (negb (wasGoodDuringTracking _ _ _ _)); [exact Hg |].
    set (r := doLineStereo _ _ _ _ _ _ _).
    destruct (Qltb (error r) 0); simpl orb.
    { simpl. apply validityNonNegative_store; [exact Hg |].
      destruct (_ || _); simpl; rewrite Hvalid; discriminate. }
    destruct (Qltb (MAX_VAR cfg) (result_var r)); simpl.
    { apply validityNonNegative_store; [exact Hg |].
      destruct (_ || _); simpl; rewrite Hvalid; discriminate. }
    apply validityNonNegative_store; [exact Hg |].
    intros _. simpl. exact Hinit.
Qed.

Lemma fillHolesPixel_variance (y : Z) (dm : DepthMap) (x : Z) :
  (VAR_RANDOM_INIT_INITIAL cfg <= MAX_VAR cfg)%Q ->
  varianceCapped (currentDepthMap dm) ->
  varianceCapped (currentDepthMap (fillHolesPixel y dm x)).
Proof.
  intros Hinit Hg. unfold fillHolesPixel.
  destruct (isValid _); [exact Hg |].
  destruct (Qltb _ _); [exact Hg |].
  destruct (fillHolesCreates _ _); [| exact Hg].
  destruct (fillHolesWindow dm x y) as [[a b] n].
  apply varianceCapped_store; [exact Hg |]. intros _. exact Hinit.
Qed.

Lemma fillHolesPixel_validity (y : Z) (dm : DepthMap) (x : Z) :
  validityNonNegative (currentDepthMap dm) ->
  validityNonNegative (currentDepthMap (fillHolesPixel y dm x)).
Proof.
  intros Hg. unfold fillHolesPixel.
  destruct (isValid _); [exact Hg |].
  destruct (Qltb _ _); [exact Hg |].
  destruct (fillHolesCreates _ _); [| exact Hg].
  destruct (fillHolesWindow dm x y) as [[a b] n].
  apply validityNonNegative_store; [exact Hg |]. intros _. simpl. lia.
Qed.

Lemma regularizePixel_variance (removeOcclusions : bool) (validityTH : Z)
  (y : Z) (dm : DepthMap) (x : Z) :
  varianceCapped (currentDepthMap dm) ->
  varianceCapped (currentDepthMap (regularizePixel removeOcclusions validityTH y dm x)).
Proof.
  intros Hg. unfold regularizePixel.
  destruct (negb _); [exact Hg |].
  destruct (Qltb _ _).
  { apply varianceCapped_store; [exact Hg | discriminate]. }
  destruct (_ && _).
  { apply varianceCapped_store; [exact Hg | discriminate]. }
  apply varianceCapped_store; [exact Hg |].
  exact (Hg (x + y * width dm)).
Qed.

Lemma regularizePixel_validity (removeOcclusions : bool) (validityTH : Z)
  (y : Z) (dm : DepthMap) (x : Z) :
  validityNonNegative (currentDepthMap dm) ->
  validityNonNegative
    (currentDepthMap (regularizePixel removeOcclusions validityTH y dm x)).
Proof.
  intros Hg. unfold regularizePixel.
  destruct (negb _); [exact Hg |].
  destruct (Qltb _ _).
  { apply validityNonNegative_store; [exact Hg | discriminate]. }
  destruct (_ && _).
  { apply validityNonNegative_store; [exact Hg | discriminate]. }
  apply validityNonNegative_store; [exact Hg |].
  exact (Hg (x + y * width dm)).
Qed.

(** A property of the current grid that every pixel body keeps is kept by
    the three passes. *)
Lemma passes_keep (P : list DepthMapPixelHypothesis -> Prop) (dm : DepthMap) :
  (forall y d x, frameOf d = frameOf dm ->
     P (currentDepthMap d) -> P (currentDepthMap (observeDepthPixel y d x))) ->
  P (currentDepthMap dm) ->
  P (currentDepthMap (observeDepth dm)).
Proof.
  intros Hstep HP. rewrite observeDepth_pass.
  apply (pixelPass_invariant observeDepthPixel observeDepthPixel_local 3 3
           (fun d => P (currentDepthMap d))).
  - exact HP.
  - intros y x d _ _ Hf _ Hd. apply Hstep; assumption.
Qed.

Lemma fillHoles_keeps (P : list DepthMapPixelHypothesis -> Prop) (dm : DepthMap) :
  (forall y d x,
     P (currentDepthMap d) -> P (currentDepthMap (fillHolesPixel y d x))) ->
  P (currentDepthMap dm) ->
  P (currentDepthMap (regularizeDepthMapFillHoles dm)).
Proof.
  intros Hstep HP. rewrite regularizeDepthMapFillHoles_pass.
  apply (pixelPass_invariant fillHolesPixel fillHolesPixel_local 3 2
           (fun d => P (currentDepthMap d))).
  - exact HP.
  - intros y x d _ _ _ _ Hd. apply Hstep; assumption.
Qed.

Lemma regularize_keeps (P : list DepthMapPixelHypothesis -> Prop)
  (removeOcclusions : bool) (validityTH : Z) (dm : DepthMap) :
  (forall y d x,
     P (currentDepthMap d) ->
     P (currentDepthMap (regularizePixel removeOcclusions validityTH y d x))) ->
  P (currentDepthMap dm) ->
  P (currentDepthMap (regularizeDepthMap removeOcclusions validityTH dm)).
Proof.
  intros Hstep HP. rewrite regularizeDepthMap_pass.
  apply (pixelPass_invariant _ (regularizePixel_local removeOcclusions validityTH) 2 2
           (fun d => P (currentDepthMap d))).
  - exact HP.
  - intros y x d _ _ _ _ Hd. apply Hstep; assumption.
Qed.

Lemma currentDepthMap_updateKeyframe (referenceFrames : list Frame) (dm : DepthMap) :
  currentDepthMap (updateKeyframe referenceFrames dm)
  = currentDepthMap
      (regularizeDepthMap false (VAL_SUM_MIN_FOR_KEEP cfg)
         (regularizeDepthMapFillHoles
            (observeDepth (setReferenceFrames referenceFrames dm)))).
Proof. unfold updateKeyframe, countMapping. cbv zeta. reflexivity. Qed.

(** X5.  The cap on the variance is an invariant of the mapping steps:
    if every valid cell has [idepth_var <= MAX_VAR] and
    [VAR_RANDOM_INIT_INITIAL <= MAX_VAR], then the same holds after
    [updateKeyframe] (observation, hole filling, regularization), for any
    reference frames and whatever the stereo search returns, and after
    [finalizeKeyFrame]. *)
Theorem variance_cap_preserved (referenceFrames : list Frame) (dm : DepthMap) :
  (VAR_RANDOM_INIT_INITIAL cfg <= MAX_VAR cfg)%Q ->
  varianceCapped (currentDepthMap dm) ->
  varianceCapped (currentDepthMap (updateKeyframe referenceFrames dm))
  /\ varianceCapped (currentDepthMap (finalizeKeyFrame dm)).
Proof.
  intros Hinit Hg. split.
  - rewrite currentDepthMap_updateKeyframe.
    apply regularize_keeps; [intros; apply regularizePixel_variance; assumption |].
    apply fillHoles_keeps; [intros; apply fillHolesPixel_variance; assumption |].
    apply passes_keep; [intros; apply observeDepthPixel_variance; assumption |].
    exact Hg.
  - unfold finalizeKeyFrame. cbv zeta.
    apply regularize_keeps; [intros; apply regularizePixel_variance; assumption |].
    apply fillHoles_keeps; [intros; apply fillHolesPixel_variance; assumption |].
    exact Hg.
Qed.

(** X6.  The validity counter of a valid cell never becomes negative: if
    this holds of the current grid, the constants
    [VALIDITY_COUNTER_INC], [VALIDITY_COUNTER_INITIAL_OBSERVE],
    [VALIDITY_COUNTER_MAX] and [VALIDITY_COUNTER_MAX_VARIABLE] are not
    negative and no max-gradient of the key frame is negative, then it holds
    after [updateKeyframe] and after [finalizeKeyFrame]. *)
Theorem validity_counter_never_negative (referenceFrames : list Frame)
  (dm : DepthMap) :
  0 <= VALIDITY_COUNTER_INC cfg ->
  0 <= VALIDITY_COUNTER_INITIAL_OBSERVE cfg ->
  (0 <= VALIDITY_COUNTER_MAX cfg)%Q ->
  (0 <= VALIDITY_COUNTER_MAX_VARIABLE cfg)%Q ->
  (forall idx, (0 <= zget 0 (maxGradients (activeKeyFrame dm)) idx)%Q) ->
  validityNonNegative (currentDepthMap dm) ->
  validityNonNegative (currentDepthMap (updateKeyframe referenceFrames dm))
  /\ validityNonNegative (currentDepthMap (finalizeKeyFrame dm)).
Proof.
  intros Hinc Hinit0 Hmax Hmaxv Hgrad Hg. split.
  - rewrite currentDepthMap_updateKeyframe.
    apply regularize_keeps; [intros; apply regularizePixel_validity; assumption |].
    apply fillHoles_keeps; [intros; apply fillHolesPixel_validity; assumption |].
    apply passes_keep; [| exact Hg].
    intros y d x Hf Hd. apply observeDepthPixel_validity; try assumption.
    rewrite (frameOf_activeKeyFrame _ _ Hf). exact Hgrad.
  - unfold finalizeKeyFrame. cbv zeta.
    apply regularize_keeps; [intros; apply regularizePixel_validity; assumption |].
    apply fillHoles_keeps; [intros; apply fillHolesPixel_validity; assumption |].
    exact Hg.
Qed.

(** ** What the regularizer changes *)

(** The cell that the smoothing pass leaves at a pixel it visits. *)
Lemma regularizeDepthMap_pixel (removeOcclusions : bool) (validityTH : Z)
  (dm : DepthMap) (x y : Z) :
  2 <= x < width dm - 2 -> 2 <= y < height dm - 2 ->
  zget noHypothesis
    (currentDepthMap (regularizeDepthMap removeOcclusions validityTH dm))
    (x + y * width dm)
  = zget noHypothesis
      (currentDepthMap
         (regularizePixel removeOcclusions validityTH y
            (set_otherDepthMap (currentDepthMap dm) dm) x))
      (x + y * width dm).
Proof.
  intros Hx Hy. rewrite regularizeDepthMap_pass.
  apply (pixelPass_cell _ (regularizePixel_local removeOcclusions validityTH) 2 2
           (regularizePixel_determined removeOcclusions validityTH)
           2 (height dm - 2) (set_otherDepthMap (currentDepthMap dm) dm) x y);
    (lia || exact Hx || exact Hy).
Qed.

Lemma zget_zset_out {A : Type} (d : A) (buf : list A) (i : Z) (a : A) :
  ~ 0 <= i < Z.of_nat (length buf) -> zget d (zset buf i a) i = zget d buf i.
Proof.
  intros Hout. unfold zset. destruct (Z.ltb_spec i 0) as [Hneg | Hpos];
    [reflexivity |].
  rewrite list_insert_ge by lia. reflexivity.
Qed.

(** The cell of a pixel after a store at that pixel. *)
Lemma storeCurrent_cell (dm : DepthMap) (idx : Z) (h : DepthMapPixelHypothesis) :
  (0 <= idx < Z.of_nat (length (currentDepthMap dm))
   /\ zget noHypothesis (currentDepthMap (storeCurrent dm idx h)) idx = h)
  \/ zget noHypothesis (currentDepthMap (storeCurrent dm idx h)) idx
     = zget noHypothesis (currentDepthMap dm) idx.
Proof.
  unfold storeCurrent. cbn [currentDepthMap set_currentDepthMap].
  destruct (Z.ltb_spec idx 0) as [Hneg | Hpos].
  - right. unfold zset. destruct (Z.ltb_spec idx 0); [reflexivity | lia].
  - destruct (Z.lt_ge_cases idx (Z.of_nat (length (currentDepthMap dm))))
      as [Hin | Hout].
    + left. split; [lia |]. apply zget_zset_eq. lia.
    + right. unfold zset. destruct (Z.ltb_spec idx 0); [lia |].
      rewrite list_insert_ge by lia. reflexivity.
Qed.

(** The cell that the smoothing of a pixel leaves at that pixel. *)
Lemma regularizePixel_cases (removeOcclusions : bool) (validityTH : Z)
  (y : Z) (dm : DepthMap) (x : Z) :
  let idx := x + y * width dm in
  let dest := zget noHypothesis (currentDepthMap dm) idx in
  let destRead := zget noHypothesis (otherDepthMap dm) idx in
  let acc := smoothWindow removeOcclusions dm idx in
  let cell' :=
    zget noHypothesis
      (currentDepthMap (regularizePixel removeOcclusions validityTH y dm x)) idx in
  (cell' = dest
   /\ (isValid destRead = false
       \/ ~ 0 <= idx < Z.of_nat (length (currentDepthMap dm))))
  \/ (isValid destRead = true
      /\ (cell' = set_blacklisted (blacklisted dest - 1) (set_isValid false dest)
          \/ cell' = set_isValid false dest
          \/ cell' = set_idepth_var_smoothed (1 / acc_sumIvar acc)%Q
                       (set_idepth_smoothed
                          (UNZERO (acc_sum acc / acc_sumIvar acc)) dest))).
Proof.
  intros idx dest destRead acc cell'. unfold cell', regularizePixel.
  fold idx. fold dest. fold destRead. fold acc.
  destruct (isValid destRead); simpl negb; cbv iota;
    [| left; split; [reflexivity | left; reflexivity]].
  destruct (Z_le_dec 0 idx) as [Hlo | Hlo].
  2:{ left. split; [| right; lia].
      destruct (Qltb _ _); [| destruct (_ && _)];
        unfold storeCurrent; cbn [currentDepthMap set_currentDepthMap];
        apply zget_zset_out; lia. }
  destruct (Z_lt_dec idx (Z.of_nat (length (currentDepthMap dm)))) as [Hhi | Hhi].
  2:{ left. split; [| right; lia].
      destruct (Qltb _ _); [| destruct (_ && _)];
        unfold storeCurrent; cbn [currentDepthMap set_currentDepthMap];
        apply zget_zset_out; lia. }
  right. split; [reflexivity |].
  destruct (Qltb _ _); [| destruct (_ && _)];
    unfold storeCurrent; cbn [currentDepthMap set_currentDepthMap];
    rewrite zget_zset_eq by lia; auto.
Qed.

(** The cell that [regularizeDepthMap] leaves at any index: the cell as it
    was, or one of the three results of the smoothing of a valid cell. *)
Lemma regularizeDepthMap_cases (removeOcclusions : bool) (validityTH : Z)
  (dm : DepthMap) (idx : Z) :
  let dm0 := set_otherDepthMap (currentDepthMap dm) dm in
  let cell := zget noHypothesis (currentDepthMap dm) idx in
  let acc := smoothWindow removeOcclusions dm0 idx in
  let cell' :=
    zget noHypothesis
      (currentDepthMap (regularizeDepthMap removeOcclusions validityTH dm)) idx in
  cell' = cell
  \/ (isValid cell = true
      /\ (cell' = set_blacklisted (blacklisted cell - 1) (set_isValid false cell)
          \/ cell' = set_isValid false cell
          \/ cell' = set_idepth_var_smoothed (1 / acc_sumIvar acc)%Q
                       (set_idepth_smoothed
                          (UNZERO (acc_sum acc / acc_sumIvar acc)) cell))).
Proof.
  intros dm0 cell acc cell'.
  destruct (pass_pixel_dec 2 2 ltac:(lia) ltac:(lia) (width dm) 2 (height dm - 2) idx)
    as [(x & y & Hy & Hx & Hj) | Hout].
  - pose proof (regularizePixel_cases removeOcclusions validityTH y dm0 x) as Hc.
    cbv zeta in Hc.
    assert (Hidx : x + y * width dm0 = idx) by (rewrite Hj; reflexivity).
    rewrite Hidx in Hc.
    assert (Hcell : cell'
                    = zget noHypothesis
                        (currentDepthMap
                           (regularizePixel removeOcclusions validityTH y dm0 x)) idx).
    { unfold cell'. rewrite Hj. apply regularizeDepthMap_pixel; assumption. }
    rewrite <- Hcell in Hc.
    destruct Hc as [[E _] | Hc]; [left; exact E | right; exact Hc].
  - left. unfold cell'. rewrite regularizeDepthMap_pass.
    apply (pixelPass_untouched _ (regularizePixel_local removeOcclusions validityTH)).
    exact Hout.
Qed.

(** X7.  The smoothing pass never alters a posterior and never creates a
    hypothesis: for every cell, [regularizeDepthMap] leaves [idepth],
    [idepth_var], [validity_counter] and [nextStereoFrameMinID] as they
    were; a cell that is valid afterwards was valid before; an invalid cell
    is left exactly as it was; and the blacklist counter is kept or
    decremented by one. *)
Theorem regularizeDepthMap_keeps_posterior (removeOcclusions : bool)
  (validityTH : Z) (dm : DepthMap) (idx : Z) :
  let cell := zget noHypothesis (currentDepthMap dm) idx in
  let cell' :=
    zget noHypothesis
      (currentDepthMap (regularizeDepthMap removeOcclusions validityTH dm)) idx in
  samePosterior cell cell'
  /\ (isValid cell' = true -> isValid cell = true)
  /\ (isValid cell = false -> cell' = cell)
  /\ (blacklisted cell' = blacklisted cell
      \/ blacklisted cell' = blacklisted cell - 1).
Proof.
  intros cell cell'.
  destruct (regularizeDepthMap_cases removeOcclusions validityTH dm idx)
    as [E | (Hv & [E | [E | E]])];
    fold cell in E, Hv || fold cell in E; fold cell' in E; rewrite E.
  - repeat split; auto.
  - repeat split; simpl; auto; try discriminate.
    intros Hf. rewrite Hf in Hv. discriminate.
  - repeat split; simpl; auto; try discriminate.
    intros Hf. rewrite Hf in Hv. discriminate.
  - repeat split; simpl; auto.
    intros Hf. rewrite Hf in Hv. discriminate.
Qed.

(** X8.  Hole filling only adds hypotheses: [regularizeDepthMapFillHoles]
    leaves every valid cell exactly as it was, and a cell that it changes
    was invalid, lies at a pixel whose key-frame max-gradient is at least
    [MIN_ABS_GRAD_DECREASE], and becomes a valid hypothesis with variance
    [VAR_RANDOM_INIT_INITIAL] and validity counter 0. *)
Theorem regularizeDepthMapFillHoles_only_adds (dm : DepthMap) (idx : Z) :
  let cell := zget noHypothesis (currentDepthMap dm) idx in
  let cell' :=
    zget noHypothesis (currentDepthMap (regularizeDepthMapFillHoles dm)) idx in
  cell' = cell
  \/ (isValid cell = false
      /\ (MIN_ABS_GRAD_DECREASE cfg
          <= zget 0 (maxGradients (activeKeyFrame dm)) idx)%Q
      /\ isValid cell' = true
      /\ idepth_var cell' = VAR_RANDOM_INIT_INITIAL cfg
      /\ validity_counter cell' = 0).
Proof.
  intros cell cell'.
  destruct (pass_pixel_dec 3 2 ltac:(lia) ltac:(lia) (width dm) 3 (height dm - 2) idx)
    as [(x & y & Hy & Hx & Hj) | Hout].
  - assert (Hcell : cell'
                    = zget noHypothesis
                        (currentDepthMap (fillHolesPixel y (fillHolesStart dm) x))
                        idx).
    { unfold cell'. rewrite Hj.
      apply regularizeDepthMapFillHoles_pixel; assumption. }
    unfold fillHolesPixel in Hcell.
    change (width (fillHolesStart dm)) with (width dm) in Hcell.
    change (otherDepthMap (fillHolesStart dm)) with (currentDepthMap dm) in Hcell.
    change (activeKeyFrame (fillHolesStart dm)) with (activeKeyFrame dm) in Hcell.
    rewrite <- Hj in Hcell. fold cell in Hcell.
    destruct (isValid cell) eqn:Hvalid; [left; exact Hcell |].
    destruct (Qltb _ _) eqn:Egrad; [left; exact Hcell |].
    apply Qltb_false in Egrad.
    destruct (fillHolesCreates _ _); [| left; exact Hcell].
    destruct (fillHolesWindow (fillHolesStart dm) x y) as [[a b] n].
    change (currentDepthMap (storeCurrent (fillHolesStart dm) idx ?h))
      with (zset (currentDepthMap dm) idx h) in Hcell.
    destruct (zget_zset_cases noHypothesis (currentDepthMap dm) idx idx
                (newHypothesis (UNZERO (a / b)) (VAR_RANDOM_INIT_INITIAL cfg) 0))
      as [E | E]; rewrite E in Hcell.
    + right. rewrite Hcell. repeat split. exact Egrad.
    + left. exact Hcell.
  - left. unfold cell'. rewrite regularizeDepthMapFillHoles_pass.
    apply (pixelPass_untouched fillHolesPixel fillHolesPixel_local).
    exact Hout.
Qed.

(** The two sums of the weighted average over cells whose inverse depths
    lie in an interval. *)
Lemma weighted_sums_between (lo hi : Q) (l : list DepthMapPixelHypothesis) :
  (forall h, In h l ->
     (0 < idepth_var h)%Q /\ (lo <= idepth h)%Q /\ (idepth h <= hi)%Q) ->
  let a := Qsum (map (fun h => idepth h / idepth_var h)%Q l) in
  let b := Qsum (map (fun h => 1 / idepth_var h)%Q l) in
  (0 <= b)%Q /\ (lo * b <= a)%Q /\ (a <= hi * b)%Q /\ (l <> [] -> (0 < b)%Q).
Proof.
  induction l as [| h l IH]; intros Hall; cbn [map Qsum].
  - repeat split; try lra. intros Hne. exfalso. apply Hne. reflexivity.
  - destruct (Hall h (or_introl eq_refl)) as (Hvar & Hlo & Hhi).
    destruct IH as (Hb0 & Hab & Hba & _).
    { intros h' Hh'. apply Hall. right. exact Hh'. }
    assert (Hiv : (0 < 1 / idepth_var h)%Q) by (apply Qlt_shift_div_l; lra).
    assert (Hq : (idepth h / idepth_var h == idepth h * (1 / idepth_var h))%Q)
      by (field; lra).
    assert (Hq1 : (lo * (1 / idepth_var h) <= idepth h / idepth_var h)%Q).
    { rewrite Hq. apply Qmult_le_compat_r; lra. }
    assert (Hq2 : (idepth h / idepth_var h <= hi * (1 / idepth_var h))%Q).
    { rewrite Hq. apply Qmult_le_compat_r; lra. }
    cbv zeta. repeat split; try lra.
Qed.

Lemma UNZERO_above (q : Q) : (UNZERO_EPS cfg <= q)%Q -> (0 < UNZERO_EPS cfg)%Q ->
  UNZERO q = q.
Proof.
  intros Hq Heps. unfold UNZERO.
  rewrite (proj2 (Qltb_false q 0)) by lra.
  rewrite (proj2 (Qltb_false q (UNZERO_EPS cfg))) by exact Hq. reflexivity.
Qed.

(** X9.  A hypothesis created by hole filling lies between its neighbours:
    at a pixel visited by the fill-holes loops, if the cell was invalid and
    is valid after [regularizeDepthMapFillHoles], the two creation
    thresholds are not negative, and every valid cell of the 5x5 window has
    a positive variance and an inverse depth in [[lo, hi]] with
    [0 < UNZERO_EPS <= lo], then the inverse depth of the new hypothesis is
    in [[lo, hi]] too. *)
Theorem fillHoles_idepth_between_neighbours (dm : DepthMap) (x y : Z) (lo hi : Q) :
  let idx := x + y * width dm in
  let dest := zget noHypothesis (currentDepthMap dm) idx in
  let dest' :=
    zget noHypothesis (currentDepthMap (regularizeDepthMapFillHoles dm)) idx in
  height dm * width dm <= Z.of_nat (length (validityIntegralBuffer dm)) ->
  height dm * width dm <= Z.of_nat (length (currentDepthMap dm)) ->
  3 <= x < width dm - 2 ->
  3 <= y < height dm - 2 ->
  0 <= VAL_SUM_MIN_FOR_CREATE cfg ->
  0 <= VAL_SUM_MIN_FOR_UNBLACKLIST cfg ->
  (0 < UNZERO_EPS cfg)%Q ->
  (UNZERO_EPS cfg <= lo)%Q ->
  (forall h, In h (window5x5 (currentDepthMap dm) (width dm) x y) ->
     isValid h = true ->
     (0 < idepth_var h)%Q /\ (lo <= idepth h)%Q /\ (idepth h <= hi)%Q) ->
  isValid dest = false ->
  isValid dest' = true ->
  (lo <= idepth dest')%Q /\ (idepth dest' <= hi)%Q.
Proof.
  intros idx dest dest' Hbuf Hlen Hx Hy Hc0 Hu0 Heps Hlo Hwin Hinvalid Hvalid'.
  assert (Hcell : dest'
                  = zget noHypothesis
                      (currentDepthMap (fillHolesPixel y (fillHolesStart dm) x)) idx).
  { apply regularizeDepthMapFillHoles_pixel; assumption. }
  unfold fillHolesPixel in Hcell.
  change (width (fillHolesStart dm)) with (width dm) in Hcell.
  change (otherDepthMap (fillHolesStart dm)) with (currentDepthMap dm) in Hcell.
  change (activeKeyFrame (fillHolesStart dm)) with (activeKeyFrame dm) in Hcell.
  fold idx in Hcell. fold dest in Hcell. rewrite Hinvalid in Hcell.
  assert (Hkept : dest' = dest -> (lo <= idepth dest')%Q /\ (idepth dest' <= hi)%Q).
  { intros E. exfalso. rewrite E, Hinvalid in Hvalid'. discriminate. }
  destruct (Qltb _ _); [apply Hkept; exact Hcell |].
  assert (Hval : integralWindow (fillHolesStart dm) idx
                 = windowValiditySum (currentDepthMap dm) (width dm) x y).
  { change (integralWindow (fillHolesStart dm) idx)
      with (integralWindow (buildRegIntegralBuffer dm) idx).
    apply integralWindow_direct_sum; assumption. }
  rewrite Hval in Hcell.
  destruct (fillHolesCreates _ _) eqn:Ecreate; [| apply Hkept; exact Hcell].
  apply fillHolesCreates_iff in Ecreate.
  assert (Hpos : windowValiditySum (currentDepthMap dm) (width dm) x y <> 0) by lia.
  destruct (window_has_valid_cell _ _ _ _ Hpos) as (h0 & Hin0 & Hv0).
  pose proof (fillHolesWindow_weighted (fillHolesStart dm) x y) as Hsums.
  change (width (fillHolesStart dm)) with (width dm) in Hsums.
  change (otherDepthMap (fillHolesStart dm)) with (currentDepthMap dm) in Hsums.
  destruct (fillHolesWindow (fillHolesStart dm) x y) as [[a b] n].
  cbv zeta in Hsums. destruct Hsums as [Ha Hb].
  set (valid := filter (fun h => isValid h = true)
                  (window5x5 (currentDepthMap dm) (width dm) x y)) in *.
  destruct (weighted_sums_between lo hi valid) as (Hb0 & Hab & Hba & Hbpos).
  { intros h Hh. apply list_elem_of_In in Hh. apply list_elem_of_filter in Hh.
    destruct Hh as [Hv Hh]. apply list_elem_of_In in Hh. apply Hwin; assumption. }
  assert (Hne : valid <> []).
  { intros E. assert (Hin : In h0 valid).
    { apply list_elem_of_In. apply list_elem_of_filter. split; [exact Hv0 |].
      apply list_elem_of_In. exact Hin0. }
    rewrite E in Hin. exact Hin. }
  specialize (Hbpos Hne). rewrite <- Ha in Hab, Hba. rewrite <- Hb in Hab, Hba, Hbpos.
  assert (Hq1 : (lo <= a / b)%Q) by (apply Qle_shift_div_l; [exact Hbpos | exact Hab]).
  assert (Hq2 : (a / b <= hi)%Q) by (apply Qle_shift_div_r; [exact Hbpos | exact Hba]).
  change (currentDepthMap (storeCurrent (fillHolesStart dm) idx ?h))
    with (zset (currentDepthMap dm) idx h) in Hcell.
  rewrite zget_zset_eq in Hcell by (unfold idx; nia).
  rewrite Hcell. simpl. rewrite UNZERO_above by lra. split; assumption.
Qed.

(** ** The smoothed variance *)

(** What one step of the smoothing loops does to the sum of the inverse
    variances: it never decreases, and the centre of the window, a valid
    cell, contributes its own inverse variance. *)
Lemma smoothAccumulate_sumIvar (removeOcclusions : bool) (dm : DepthMap)
  (idx dx dy : Z) (acc : SmoothAcc) :
  (0 <= REG_DIST_VAR cfg)%Q ->
  (forall j, isValid (zget noHypothesis (otherDepthMap dm) j) = true ->
     (0 < idepth_var (zget noHypothesis (otherDepthMap dm) j))%Q) ->
  isValid (zget noHypothesis (otherDepthMap dm) idx) = true ->
  let acc' := smoothAccumulate removeOcclusions dm idx dx acc dy in
  (acc_sumIvar acc <= acc_sumIvar acc')%Q
  /\ (dx = 0 -> dy = 0 ->
      (acc_sumIvar acc + 1 / idepth_var (zget noHypothesis (otherDepthMap dm) idx)
       <= acc_sumIvar acc')%Q).
Proof.
  intros Hreg Hvars Hvalid. unfold smoothAccumulate.
  set (destRead := zget noHypothesis (otherDepthMap dm) idx) in *.
  set (source := zget noHypothesis (otherDepthMap dm) (idx + dx + dy * width dm)).
  cbv zeta.
  assert (Hcentre : dx = 0 -> dy = 0 -> source = destRead).
  { intros -> ->. unfold source, destRead. f_equal. lia. }
  destruct (isValid source) eqn:Hs; simpl negb; cbv iota.
  2:{ split; [lra |]. intros Hx0 Hy0. exfalso.
      rewrite (Hcentre Hx0 Hy0) in Hs. rewrite Hvalid in Hs. discriminate. }
  pose proof (Hvars _ Hs) as Hsvar. fold source in Hsvar.
  destruct (Qltb (idepth_var source + idepth_var destRead) _) eqn:Eincons.
  { assert (Hnot : ~ (dx = 0 /\ dy = 0)).
    { intros [Hx0 Hy0]. apply Qltb_true in Eincons.
      rewrite (Hcentre Hx0 Hy0) in Eincons.
      pose proof (Hvars _ Hvalid) as Hd. fold destRead in Hd.
      assert (Hz : (DIFF_FAC_SMOOTHING cfg * (idepth destRead - idepth destRead)
                    * (idepth destRead - idepth destRead) == 0)%Q) by ring.
      rewrite Hz in Eincons. lra. }
    destruct (removeOcclusions && _); simpl; (split; [lra |]);
      intros Hx0 Hy0; exfalso; apply Hnot; split; assumption. }
  simpl.
  assert (Hdist : (0 <= inject_Z (dx * dx + dy * dy) * REG_DIST_VAR cfg)%Q).
  { apply Qmult_le_0_compat; [| exact Hreg].
    change 0%Q with (inject_Z 0). rewrite <- Zle_Qle. nia. }
  assert (Hiv : (0 < 1 / (idepth_var source
                          + inject_Z (dx * dx + dy * dy) * REG_DIST_VAR cfg))%Q)
    by (apply Qlt_shift_div_l; lra).
  split; [lra |].
  intros Hx0 Hy0. rewrite (Hcentre Hx0 Hy0) in *. subst dx dy.
  assert (Hz : (idepth_var destRead
                + inject_Z (0 * 0 + 0 * 0) * REG_DIST_VAR cfg
                == idepth_var destRead)%Q).
  { change (inject_Z (0 * 0 + 0 * 0)) with 0%Q. ring. }
  rewrite Hz. lra.
Qed.

Lemma smoothWindow_sumIvar (removeOcclusions : bool) (dm : DepthMap) (idx : Z) :
  (0 <= REG_DIST_VAR cfg)%Q ->
  (forall j, isValid (zget noHypothesis (otherDepthMap dm) j) = true ->
     (0 < idepth_var (zget noHypothesis (otherDepthMap dm) j))%Q) ->
  isValid (zget noHypothesis (otherDepthMap dm) idx) = true ->
  (1 / idepth_var (zget noHypothesis (otherDepthMap dm) idx)
   <= acc_sumIvar (smoothWindow removeOcclusions dm idx))%Q.
Proof.
  intros Hreg Hvars Hvalid.
  set (c := (1 / idepth_var (zget noHypothesis (otherDepthMap dm) idx))%Q).
  pose (Inv := fun (k : Z) (acc : SmoothAcc) =>
                 (0 <= acc_sumIvar acc)%Q
                 /\ (0 < k -> (c <= acc_sumIvar acc)%Q)).
  assert (Hc0 : (0 < c)%Q).
  { unfold c. apply Qlt_shift_div_l; [apply Hvars; exact Hvalid | lra]. }
  assert (Hinv : Inv (2 + 1) (smoothWindow removeOcclusions dm idx)).
  { unfold smoothWindow. cbv zeta.
    apply (for_range_invariant Inv); unfold Inv.
    - lia.
    - simpl. split; [lra | lia].
    - intros dx acc Hdx [Hacc0 Haccc].
      pose (Inv2 := fun (k : Z) (a : SmoothAcc) =>
                      (0 <= acc_sumIvar a)%Q
                      /\ (0 < dx \/ (dx = 0 /\ 0 < k) -> (c <= acc_sumIvar a)%Q)).
      assert (Hin : Inv2 (2 + 1)
                      (for_range (- (2)) (2 + 1)
                         (smoothAccumulate removeOcclusions dm idx dx) acc)).
      { apply (for_range_invariant Inv2); unfold Inv2.
        - lia.
        - split; [exact Hacc0 |]. intros [H | [_ H]]; [apply Haccc; exact H | lia].
        - intros dy a Hdy [Ha0 Hac].
          destruct (smoothAccumulate_sumIvar removeOcclusions dm idx dx dy a
                      Hreg Hvars Hvalid) as [Hmono Hcentre].
          split; [lra |].
          intros Hcase.
          destruct (Z.eq_dec dx 0) as [Hx0 | Hx0].
          + destruct (Z.eq_dec dy 0) as [Hy0 | Hy0].
            * specialize (Hcentre Hx0 Hy0). fold c in Hcentre. lra.
            * assert (Hprev : (c <= acc_sumIvar a)%Q) by (apply Hac; lia). lra.
          + assert (Hprev : (c <= acc_sumIvar a)%Q) by (apply Hac; lia). lra. }
      unfold Inv2 in Hin. destruct Hin as [Hin0 Hinc].
      split; [exact Hin0 |]. intros Hk. apply Hinc. lia. }
  unfold Inv in Hinv. apply Hinv. lia.
Qed.

(** X10.  Smoothing never loses confidence: at a pixel visited by the
    smoothing loops ([2 <= x < width - 2], [2 <= y < height - 2]), if the
    cell is valid after [regularizeDepthMap], then its smoothed variance is
    positive and at most its own variance [idepth_var], provided
    [REG_DIST_VAR] is not negative and every valid cell of the grid has a
    positive variance.  (The cell itself is part of its 5x5 window and is
    always consistent with itself.) *)
Theorem regularizeDepthMap_smoothed_variance (removeOcclusions : bool)
  (validityTH : Z) (dm : DepthMap) (x y : Z) :
  let idx := x + y * width dm in
  let cell := zget noHypothesis (currentDepthMap dm) idx in
  let cell' :=
    zget noHypothesis
      (currentDepthMap (regularizeDepthMap removeOcclusions validityTH dm)) idx in
  height dm * width dm <= Z.of_nat (length (currentDepthMap dm)) ->
  2 <= x < width dm - 2 ->
  2 <= y < height dm - 2 ->
  (0 <= REG_DIST_VAR cfg)%Q ->
  (forall j, isValid (zget noHypothesis (currentDepthMap dm) j) = true ->
     (0 < idepth_var (zget noHypothesis (currentDepthMap dm) j))%Q) ->
  isValid cell' = true ->
  (0 < idepth_var_smoothed cell')%Q
  /\ (idepth_var_smoothed cell' <= idepth_var cell)%Q.
Proof.
  intros idx cell cell' Hlen Hx Hy Hreg Hvars Hvalid'.
  set (dm0 := set_otherDepthMap (currentDepthMap dm) dm).
  assert (Hcell : cell'
                  = zget noHypothesis
                      (currentDepthMap
                         (regularizePixel removeOcclusions validityTH y dm0 x)) idx).
  { apply regularizeDepthMap_pixel; assumption. }
  pose proof (regularizePixel_cases removeOcclusions validityTH y dm0 x) as Hc.
  cbv zeta in Hc.
  assert (Hidx : x + y * width dm0 = idx) by reflexivity.
  rewrite Hidx in Hc. rewrite <- Hcell in Hc. clear Hcell.
  assert (Hother : zget noHypothesis (otherDepthMap dm0) idx = cell) by reflexivity.
  assert (Hcur : zget noHypothesis (currentDepthMap dm0) idx = cell) by reflexivity.
  assert (Hl0 : length (currentDepthMap dm0) = length (currentDepthMap dm))
    by reflexivity.
  rewrite Hother, Hcur, Hl0 in Hc.
  destruct Hc as [[E [Hv | Hout]] | (Hv & [E | [E | E]])].
  - exfalso. rewrite E, Hv in Hvalid'. discriminate.
  - exfalso. apply Hout. unfold idx. nia.
  - exfalso. rewrite E in Hvalid'. discriminate.
  - exfalso. rewrite E in Hvalid'. discriminate.
  - pose proof (smoothWindow_sumIvar removeOcclusions dm0 idx Hreg Hvars) as Hsum.
    rewrite Hother in Hsum. specialize (Hsum Hv).
    pose proof (Hvars idx Hv) as Hvar. fold cell in Hvar.
    rewrite E. simpl.
    set (s := acc_sumIvar (smoothWindow removeOcclusions dm0 idx)) in *.
    assert (Hc : (0 < 1 / idepth_var cell)%Q) by (apply Qlt_shift_div_l; lra).
    assert (Hs : (0 < s)%Q) by lra.
    split.
    + apply Qlt_shift_div_l; lra.
    + apply Qle_shift_div_r; [exact Hs |].
      assert (H1 : (idepth_var cell * (1 / idepth_var cell) == 1)%Q) by (field; lra).
      assert (H2 : (idepth_var cell * (1 / idepth_var cell) <= idepth_var cell * s)%Q).
      { rewrite !(Qmult_comm (idepth_var cell)). apply Qmult_le_compat_r; lra. }
      lra.
Qed.

(** ** Propagation: two hypotheses on one destination cell *)

(** The destination of a source pixel that is still within the image is a
    cell of the grid. *)
Lemma propagated_index_in_grid (dm : DepthMap) (u_new v_new : Q) (n : nat) :
  height dm * width dm <= Z.of_nat n ->
  withinNewImage dm u_new v_new = true ->
  0 <= float_to_int (u_new + (5 # 10)) + float_to_int (v_new + (5 # 10)) * width dm
    < Z.of_nat n.
Proof.
  intros Hlen Hin. apply withinNewImage_true in Hin.
  destruct Hin as (Hu1 & Hv1 & Hu2 & Hv2).
  pose proof (propagated_index_range u_new (width dm) Hu1 Hu2) as Hix.
  pose proof (propagated_index_range v_new (height dm) Hv1 Hv2) as Hiy.
  nia.
Qed.

(** X11.  Occlusion during propagation.  When a propagated hypothesis
    passes the gates and lands on a destination cell that already holds a
    valid hypothesis whose inverse depth is inconsistent with it
    ([DIFF_FAC_PROP_MERGE * diff^2 > new_var + idepth_var]), the nearer of
    the two survives: if the new inverse depth is smaller (the point is
    farther away), the destination is left as it was; otherwise the
    destination is replaced by the new hypothesis, with the propagated
    inverse depth, the variance [(id'/idepth_smoothed)^4 * idepth_var] and the
    validity counter of the source. *)
Theorem propagatePixel_occlusion (dm : DepthMap) (new_keyframe : Frame)
  (y : Z) (other : list DepthMapPixelHypothesis) (x : Z) :
  let source := zget noHypothesis (currentDepthMap dm) (x + y * width dm) in
  let warped := warpPixel dm new_keyframe source x y in
  let new_idepth := snd (fst (fst warped)) in
  let u_new := snd (fst warped) in
  let v_new := snd warped in
  let newIDX :=
    float_to_int (u_new + (5 # 10)) + float_to_int (v_new + (5 # 10)) * width dm in
  let ratio := (new_idepth / idepth_smoothed source)%Q in
  let new_var := (ratio * ratio * (ratio * ratio) * idepth_var source)%Q in
  let target := zget noHypothesis other newIDX in
  let target' :=
    zget noHypothesis (propagatePixel dm new_keyframe y other x) newIDX in
  let diff := (idepth target - new_idepth)%Q in
  height dm * width dm <= Z.of_nat (length other) ->
  isValid source = true ->
  withinNewImage dm u_new v_new = true ->
  propagationGateDrops dm new_keyframe x y u_new v_new newIDX = false ->
  isValid target = true ->
  (new_var + idepth_var target < DIFF_FAC_PROP_MERGE cfg * diff * diff)%Q ->
  ((new_idepth < idepth target)%Q -> target' = target)
  /\ ((idepth target <= new_idepth)%Q ->
      target' = newHypothesis new_idepth new_var (validity_counter source)).
Proof.
  intros source warped new_idepth u_new v_new newIDX ratio new_var target target'
    diff Hlen Hvalid Hin Hgate Htarget Hincons.
  pose proof (propagated_index_in_grid dm u_new v_new (length other) Hlen Hin) as Hidx.
  fold newIDX in Hidx.
  unfold target', propagatePixel. fold source. rewrite Hvalid. simpl negb. cbv iota.
  fold warped.
  destruct warped as [[[pn ni] u] v] eqn:Ew.
  cbn [fst snd] in new_idepth, u_new, v_new.
  subst new_idepth u_new v_new.
  rewrite Hin. simpl negb. cbv iota. fold newIDX. rewrite Hgate. cbv zeta.
  fold target. fold ratio. fold new_var. fold diff.
  rewrite Htarget. rewrite (proj2 (Qltb_true _ _) Hincons). simpl andb.
  split.
  - intros Hfar. rewrite (proj2 (Qltb_true _ _) Hfar). reflexivity.
  - intros Hnear. rewrite (proj2 (Qltb_false _ _) Hnear). simpl negb. cbv iota.
    apply zget_zset_eq. exact Hidx.
Qed.

(** The precision-weighted fusion of two values. *)
Lemma fusion_between (a b va vb : Q) :
  (0 < va)%Q -> (0 < vb)%Q ->
  let w := (vb / (va + vb))%Q in
  (Qmin a b <= w * a + (1 - w) * b)%Q /\ (w * a + (1 - w) * b <= Qmax a b)%Q.
Proof.
  intros Ha Hb w.
  destruct (Qdiv_weight_range vb va Hb Ha) as [Hw0 Hw1].
  assert (Hw : (vb / (vb + va) == w)%Q).
  { unfold w. apply Qdiv_comp; [reflexivity | ring]. }
  rewrite Hw in Hw0, Hw1.
  assert (Hmin_a : (Qmin a b <= a)%Q) by apply Q.le_min_l.
  assert (Hmin_b : (Qmin a b <= b)%Q) by apply Q.le_min_r.
  assert (Hmax_a : (a <= Qmax a b)%Q) by apply Q.le_max_l.
  assert (Hmax_b : (b <= Qmax a b)%Q) by apply Q.le_max_r.
  split.
  - assert (H1 : (w * Qmin a b <= w * a)%Q).
    { rewrite !(Qmult_comm w). apply Qmult_le_compat_r; lra. }
    assert (H2 : ((1 - w) * Qmin a b <= (1 - w) * b)%Q).
    { rewrite !(Qmult_comm (1 - w)). apply Qmult_le_compat_r; lra. }
    lra.
  - assert (H1 : (w * a <= w * Qmax a b)%Q).
    { rewrite !(Qmult_comm w). apply Qmult_le_compat_r; lra. }
    assert (H2 : ((1 - w) * b <= (1 - w) * Qmax a b)%Q).
    { rewrite !(Qmult_comm (1 - w)). apply Qmult_le_compat_r; lra. }
    lra.
Qed.

(** The variance of the fusion is below both variances. *)
Lemma fusion_variance (va vb : Q) :
  (0 < va)%Q -> (0 < vb)%Q ->
  (0 < 1 / (1 / va + 1 / vb))%Q
  /\ (1 / (1 / va + 1 / vb) < va)%Q /\ (1 / (1 / va + 1 / vb) < vb)%Q.
Proof.
  intros Ha Hb.
  assert (Hia : (0 < 1 / va)%Q) by (apply Qlt_shift_div_l; lra).
  assert (Hib : (0 < 1 / vb)%Q) by (apply Qlt_shift_div_l; lra).
  assert (Ha1 : (va * (1 / va) == 1)%Q) by (field; lra).
  assert (Hb1 : (vb * (1 / vb) == 1)%Q) by (field; lra).
  assert (Hab : (0 < va * (1 / vb))%Q) by (apply Qmult_lt_0_compat; assumption).
  assert (Hba : (0 < vb * (1 / va))%Q) by (apply Qmult_lt_0_compat; assumption).
  split; [apply Qlt_shift_div_l; lra |].
  split; (apply Qlt_shift_div_r; [lra |]).
  - rewrite Qmult_plus_distr_r. lra.
  - rewrite Qmult_plus_distr_r. lra.
Qed.

(** X12.  Fusion during propagation.  When a propagated hypothesis passes
    the gates and lands on a destination cell that holds a valid hypothesis
    consistent with it ([DIFF_FAC_PROP_MERGE * diff^2 <= new_var +
    idepth_var]), and both variances are positive, the destination becomes
    a valid hypothesis whose inverse depth lies between the two inverse
    depths, whose variance [1 / (1/idepth_var + 1/new_var)] is positive and
    smaller than both variances, and whose validity counter is the sum of
    the two counters, replaced by the truncation of
    [VALIDITY_COUNTER_MAX + VALIDITY_COUNTER_MAX_VARIABLE] when it exceeds
    this bound. *)
Theorem propagatePixel_fusion (dm : DepthMap) (new_keyframe : Frame)
  (y : Z) (other : list DepthMapPixelHypothesis) (x : Z) :
  let source := zget noHypothesis (currentDepthMap dm) (x + y * width dm) in
  let warped := warpPixel dm new_keyframe source x y in
  let new_idepth := snd (fst (fst warped)) in
  let u_new := snd (fst warped) in
  let v_new := snd warped in
  let newIDX :=
    float_to_int (u_new + (5 # 10)) + float_to_int (v_new + (5 # 10)) * width dm in
  let ratio := (new_idepth / idepth_smoothed source)%Q in
  let new_var := (ratio * ratio * (ratio * ratio) * idepth_var source)%Q in
  let target := zget noHypothesis other newIDX in
  let target' :=
    zget noHypothesis (propagatePixel dm new_keyframe y other x) newIDX in
  let diff := (idepth target - new_idepth)%Q in
  let cap := (VALIDITY_COUNTER_MAX cfg + VALIDITY_COUNTER_MAX_VARIABLE cfg)%Q in
  let total := validity_counter source + validity_counter target in
  height dm * width dm <= Z.of_nat (length other) ->
  isValid source = true ->
  withinNewImage dm u_new v_new = true ->
  propagationGateDrops dm new_keyframe x y u_new v_new newIDX = false ->
  isValid target = true ->
  (0 < new_var)%Q ->
  (0 < idepth_var target)%Q ->
  (DIFF_FAC_PROP_MERGE cfg * diff * diff <= new_var + idepth_var target)%Q ->
  isValid target' = true
  /\ (Qmin (idepth target) new_idepth <= idepth target')%Q
  /\ (idepth target' <= Qmax (idepth target) new_idepth)%Q
  /\ (0 < idepth_var target')%Q
  /\ (idepth_var target' < idepth_var target)%Q
  /\ (idepth_var target' < new_var)%Q
  /\ validity_counter target'
     = (if Qltb cap (inject_Z total) then float_to_int cap else total).
Proof.
  intros source warped new_idepth u_new v_new newIDX ratio new_var target target'
    diff cap total Hlen Hvalid Hin Hgate Htarget Hnv Htv Hcons.
  pose proof (propagated_index_in_grid dm u_new v_new (length other) Hlen Hin) as Hidx.
  fold newIDX in Hidx.
  assert (Hcell : target'
                  = newHypothesis
                      (new_var / (idepth_var target + new_var) * idepth target
                       + (1 - new_var / (idepth_var target + new_var)) * new_idepth)
                      (1 / (1 / idepth_var target + 1 / new_var))
                      (if Qltb cap (inject_Z total) then float_to_int cap else total)).
  { unfold target', propagatePixel. fold source. rewrite Hvalid. simpl negb. cbv iota.
    fold warped.
    destruct warped as [[[pn ni] u] v] eqn:Ew.
    cbn [fst snd] in new_idepth, u_new, v_new.
    subst new_idepth u_new v_new.
    rewrite Hin. simpl negb. cbv iota. fold newIDX. rewrite Hgate. cbv zeta.
    fold target. fold ratio. fold new_var. fold diff.
    rewrite Htarget. rewrite (proj2 (Qltb_false _ _) Hcons). simpl andb. cbv iota.
    rewrite Htarget. simpl negb. cbv iota.
    apply zget_zset_eq. exact Hidx. }
  rewrite Hcell. simpl.
  destruct (fusion_between (idepth target) new_idepth (idepth_var target) new_var
              Htv Hnv) as [Hlo Hhi].
  destruct (fusion_variance (idepth_var target) new_var Htv Hnv) as (Hv0 & Hv1 & Hv2).
  repeat split; assumption.
Qed.

(** ** Propagation: the number of hypotheses *)

Lemma sumZ_shift (d lo hi : Z) (f : Z -> Z) :
  sumZ (lo + d) (hi + d) f = sumZ lo hi (fun i => f (i + d)).
Proof.
  destruct (Z.le_gt_cases lo hi) as [Hle | Hgt].
  - revert hi Hle.
    apply (range_ind lo
             (fun hi => sumZ (lo + d) (hi + d) f = sumZ lo hi (fun i => f (i + d)))).
    + rewrite !sumZ_nil by lia. reflexivity.
    + intros m Hm IH. replace (m + 1 + d) with (m + d + 1) by lia.
      rewrite !sumZ_snoc by lia. rewrite IH. reflexivity.
  - rewrite !sumZ_nil by lia. reflexivity.
Qed.

Lemma sumZ_const_zero (lo hi : Z) : sumZ lo hi (fun _ => 0) = 0.
Proof.
  destruct (Z.le_gt_cases lo hi) as [Hle | Hgt].
  - revert hi Hle. apply (range_ind lo (fun hi => sumZ lo hi (fun _ => 0) = 0)).
    + apply sumZ_nil. lia.
    + intros m Hm IH. rewrite sumZ_snoc by lia. lia.
  - apply sumZ_nil. lia.
Qed.

Lemma numValid_cons (h : DepthMapPixelHypothesis) (g : list DepthMapPixelHypothesis) :
  numValid (h :: g) = (if isValid h then 1 else 0) + numValid g.
Proof.
  unfold numValid. rewrite filter_cons.
  destruct (decide (isValid h = true)) as [E | E].
  - rewrite E. cbn [length]. lia.
  - destruct (isValid h); [exfalso; apply E; reflexivity |]. lia.
Qed.

Lemma numValid_insert (g : list DepthMapPixelHypothesis) (i : nat)
  (h : DepthMapPixelHypothesis) :
  numValid (<[i := h]> g) <= numValid g + 1.
Proof.
  revert i. induction g as [| a g IH]; intros i.
  - replace (<[i := h]> ([] : list DepthMapPixelHypothesis))
      with ([] : list DepthMapPixelHypothesis) by (destruct i; reflexivity).
    lia.
  - destruct i as [| i].
    + change (<[0%nat := h]> (a :: g)) with (h :: g).
      rewrite !numValid_cons. destruct (isValid h), (isValid a); lia.
    + change (<[S i := h]> (a :: g)) with (a :: <[i := h]> g).
      rewrite !numValid_cons. specialize (IH i). lia.
Qed.

Lemma numValid_zset (g : list DepthMapPixelHypothesis) (i : Z)
  (h : DepthMapPixelHypothesis) :
  numValid (zset g i h) <= numValid g + 1.
Proof.
  unfold zset. destruct (Z.ltb i 0); [lia | apply numValid_insert].
Qed.

Lemma numValid_wipe (g : list DepthMapPixelHypothesis) : numValid (wipeDepthMap g) = 0.
Proof.
  induction g as [| a g IH]; [reflexivity |].
  unfold wipeDepthMap in *. cbn [map]. rewrite numValid_cons. simpl. exact IH.
Qed.

(** One source pixel adds at most one hypothesis, and none when its cell is
    not valid. *)
Lemma propagatePixel_numValid (dm : DepthMap) (new_keyframe : Frame) (y : Z)
  (other : list DepthMapPixelHypothesis) (x : Z) :
  numValid (propagatePixel dm new_keyframe y other x)
  <= numValid other + cellCount (currentDepthMap dm) (x + y * width dm).
Proof.
  unfold propagatePixel, cellCount.
  destruct (isValid (zget noHypothesis (currentDepthMap dm) (x + y * width dm)));
    simpl negb; cbv iota; [| lia].
  destruct (warpPixel _ _ _ _ _) as [[[pn new_idepth] u_new] v_new].
  destruct (negb _); [lia |].
  destruct (propagationGateDrops _ _ _ _ _ _ _); [lia |].
  cbv zeta.
  destruct (_ && Qltb new_idepth _); [lia |].
  destruct (negb _); apply numValid_zset.
Qed.

(** The number of valid cells among the first [n] cells of a grid. *)
Lemma cellCount_prefix (g : list DepthMapPixelHypothesis) (n : Z) :
  0 <= n -> sumZ 0 n (cellCount g) <= numValid g.
Proof.
  intros Hn.
  assert (Hgen : forall (l : list DepthMapPixelHypothesis) (k : nat),
            sumZ 0 (Z.of_nat k) (cellCount l) <= numValid l).
  { induction l as [| a l IH]; intros k.
    - induction k as [| k IHk].
      + rewrite sumZ_nil by lia. unfold numValid. simpl. lia.
      + rewrite Nat2Z.inj_succ. unfold Z.succ. rewrite sumZ_snoc by lia.
        assert (E : cellCount [] (Z.of_nat k) = 0).
        { unfold cellCount, zget. destruct (Z.ltb _ 0); reflexivity. }
        rewrite E. lia.
    - destruct k as [| k].
      + rewrite sumZ_nil by lia. unfold numValid. lia.
      + rewrite numValid_cons.
        rewrite Nat2Z.inj_succ. unfold Z.succ.
        rewrite (sumZ_split 0 1 (Z.of_nat k + 1)) by lia.
        rewrite (sumZ_snoc 0 0) by lia. rewrite sumZ_nil by lia.
        assert (E0 : cellCount (a :: l) 0 = (if isValid a then 1 else 0))
          by reflexivity.
        rewrite E0.
        assert (Eshift : sumZ 1 (Z.of_nat k + 1) (cellCount (a :: l))
                         = sumZ 0 (Z.of_nat k) (cellCount l)).
        { transitivity (sumZ 0 (Z.of_nat k) (fun i => cellCount (a :: l) (i + 1)));
            [exact (sumZ_shift 1 0 (Z.of_nat k) (cellCount (a :: l))) |].
          apply sumZ_ext. intros i Hi. unfold cellCount, zget.
          destruct (Z.ltb_spec (i + 1) 0); [lia |].
          destruct (Z.ltb_spec i 0); [lia |].
          replace (Z.to_nat (i + 1)) with (S (Z.to_nat i)) by lia. reflexivity. }
        rewrite Eshift. specialize (IH k). lia. }
  specialize (Hgen g (Z.to_nat n)). rewrite Z2Nat.id in Hgen by lia. exact Hgen.
Qed.

(** The cells of the pixels of an image of width [W], row by row, are the
    first [H * W] cells. *)
Lemma sumZ_rows (f : Z -> Z) (W H : Z) :
  0 <= W -> 0 <= H ->
  sumZ 0 H (fun y => sumZ 0 W (fun x => f (x + y * W))) = sumZ 0 (H * W) f.
Proof.
  intros HW. revert H.
  apply (range_ind 0
           (fun H => sumZ 0 H (fun y => sumZ 0 W (fun x => f (x + y * W)))
                     = sumZ 0 (H * W) f)).
  - rewrite sumZ_nil by lia. rewrite sumZ_nil by lia. reflexivity.
  - intros k Hk IH. rewrite sumZ_snoc by lia. rewrite IH.
    rewrite (sumZ_split 0 (k * W) ((k + 1) * W) f) by nia.
    f_equal.
    transitivity (sumZ (0 + k * W) (W + k * W) f);
      [symmetry; apply sumZ_shift | f_equal; lia].
Qed.

(** X13.  Propagation never creates more hypotheses than it is given: the
    number of valid cells of the grid after [propagateDepth] is at most the
    number of valid cells before.  In particular an empty depth map stays
    empty. *)
Theorem propagateDepth_never_adds_hypotheses (new_keyframe : Frame) (dm : DepthMap) :
  numValid (currentDepthMap (propagateDepth new_keyframe dm))
  <= numValid (currentDepthMap dm).
Proof.
  unfold propagateDepth. cbn [currentDepthMap set_currentDepthMap set_otherDepthMap].
  set (g := currentDepthMap dm). set (W := width dm). set (H := height dm).
  assert (Hrow : forall y other,
            numValid (for_range 0 W (propagatePixel dm new_keyframe y) other)
            <= numValid other
               + sumZ 0 (Z.max 0 W) (fun x => cellCount g (x + y * W))).
  { intros y other.
    destruct (Z.le_gt_cases W 0) as [Hneg | Hpos].
    { rewrite for_range_nil by lia. rewrite sumZ_nil by lia. lia. }
    rewrite Z.max_r by lia.
    pose (Inv := fun (k : Z) (o : list DepthMapPixelHypothesis) =>
                   numValid o
                   <= numValid other + sumZ 0 k (fun x => cellCount g (x + y * W))).
    apply (for_range_invariant Inv); unfold Inv.
    - lia.
    - rewrite sumZ_nil by lia. lia.
    - intros x o Hx Ho. rewrite sumZ_snoc by lia.
      pose proof (propagatePixel_numValid dm new_keyframe y o x) as Hstep.
      fold g W in Hstep. lia. }
  assert (Hall : numValid
                   (for_range 0 H
                      (fun other y =>
                         for_range 0 W (propagatePixel dm new_keyframe y) other)
                      (wipeDepthMap (otherDepthMap dm)))
                 <= sumZ 0 (Z.max 0 H)
                      (fun y => sumZ 0 (Z.max 0 W) (fun x => cellCount g (x + y * W)))).
  { destruct (Z.le_gt_cases H 0) as [Hneg | Hpos].
    { rewrite for_range_nil by lia. rewrite numValid_wipe.
      rewrite sumZ_nil by lia. lia. }
    rewrite (Z.max_r 0 H) by lia.
    pose (Inv := fun (k : Z) (o : list DepthMapPixelHypothesis) =>
                   numValid o
                   <= sumZ 0 k
                        (fun y =>
                           sumZ 0 (Z.max 0 W) (fun x => cellCount g (x + y * W)))).
    apply (for_range_invariant Inv); unfold Inv.
    - lia.
    - rewrite numValid_wipe. rewrite sumZ_nil by lia. lia.
    - intros y o Hy Ho. rewrite sumZ_snoc by lia.
      specialize (Hrow y o). lia. }
  destruct (Z.le_gt_cases W 0) as [HW | HW].
  - assert (Hzero : sumZ 0 (Z.max 0 H)
                      (fun y => sumZ 0 (Z.max 0 W) (fun x => cellCount g (x + y * W)))
                    = sumZ 0 (Z.max 0 H) (fun _ => 0)).
    { apply sumZ_ext. intros y _. apply sumZ_nil. lia. }
    rewrite Hzero in Hall. rewrite sumZ_const_zero in Hall.
    assert (0 <= numValid g) by (unfold numValid; lia). lia.
  - rewrite (Z.max_r 0 W) in Hall by lia.
    rewrite (sumZ_rows (cellCount g) W (Z.max 0 H)) in Hall by lia.
    pose proof (cellCount_prefix g (Z.max 0 H * W) ltac:(nia)). lia.
Qed.

(** ** The end of the stereo search *)

(** A ratio [a / (a - b)] of two numbers of different sign is in [[0, 1]]. *)
Lemma sign_change_ratio (a b : Q) :
  xorb (Qltb b 0) (Qltb a 0) = true ->
  (0 <= a / (a - b))%Q /\ (a / (a - b) <= 1)%Q.
Proof.
  intros Hx.
  destruct (Qltb b 0) eqn:Eb; destruct (Qltb a 0) eqn:Ea; try discriminate Hx.
  - apply Qltb_true in Eb. apply Qltb_false in Ea.
    split; [apply Qle_shift_div_l; lra | apply Qle_shift_div_r; lra].
  - apply Qltb_false in Eb. apply Qltb_true in Ea.
    assert (Hq : (a / (a - b) == (- a) / (b - a))%Q) by (field; lra).
    rewrite Hq.
    split; [apply Qle_shift_div_l; lra | apply Qle_shift_div_r; lra].
Qed.

Lemma subpixelSide_cases (s : EplScan) :
  let grad_prev_prev := (- (prev_error s - prev_diff s))%Q in
  let grad_prev_curr := (min_error s - prev_diff s)%Q in
  let grad_next_curr := (- (min_error s - next_diff s))%Q in
  let grad_next_next := (next_error s - next_diff s)%Q in
  subpixelSide s = (false, false)
  \/ (subpixelSide s = (true, false)
      /\ xorb (Qltb grad_prev_prev 0) (Qltb grad_prev_curr 0) = true)
  \/ (subpixelSide s = (false, true)
      /\ xorb (Qltb grad_next_next 0) (Qltb grad_next_curr 0) = true).
Proof.
  cbv zeta. unfold subpixelSide.
  destruct (enablePrintDebugInfo cfg && _); [left; reflexivity |].
  destruct (xorb (Qltb (- (min_error s - next_diff s)) 0) _); [left; reflexivity |].
  destruct (xorb (Qltb (- (prev_error s - prev_diff s)) 0) _) eqn:Ep.
  - destruct (xorb (Qltb (next_error s - next_diff s) 0) _); [left; reflexivity |].
    right. left. split; reflexivity.
  - destruct (xorb (Qltb (next_error s - next_diff s) 0) _) eqn:En;
      [| left; reflexivity].
    right. right. split; reflexivity.
Qed.

(** X14.  Sub-pixel refinement stays within one search step: when
    [doLineStereo] accepts a match after its scan, the refined match point
    is either the best sample itself or the best sample moved by [d] times
    the search step, backwards or forwards along the epipolar line, with
    [0 <= d <= 1]. *)
Theorem refineMatch_within_one_step (s : EplScan) (m : RefinedMatch) :
  refineMatch s = inr m ->
  refined_point_ref m = argmin_point_ref s
  \/ exists d : Q,
       (0 <= d)%Q /\ (d <= 1)%Q
       /\ (refined_point_ref m
           = (fst (argmin_point_ref s) - d * fst (ref_search_step s),
              snd (argmin_point_ref s) - d * snd (ref_search_step s))%Q
           \/ refined_point_ref m
              = (fst (argmin_point_ref s) + d * fst (ref_search_step s),
                 snd (argmin_point_ref s) + d * snd (ref_search_step s))%Q).
Proof.
  unfold refineMatch.
  destruct (Qltb (4 * MAX_ERROR_STEREO cfg) (min_error s)); [discriminate |].
  destruct (_ && _); [discriminate |].
  cbv zeta.
  assert (Hside : (if useSubpixelStereo cfg then subpixelSide s else (false, false))
                  = (false, false)
                  \/ ((if useSubpixelStereo cfg then subpixelSide s else (false, false))
                      = (true, false)
                      /\ xorb (Qltb (- (prev_error s - prev_diff s)) 0)
                           (Qltb (min_error s - prev_diff s) 0) = true)
                  \/ ((if useSubpixelStereo cfg then subpixelSide s else (false, false))
                      = (false, true)
                      /\ xorb (Qltb (next_error s - next_diff s) 0)
                           (Qltb (- (min_error s - next_diff s)) 0) = true)).
  { destruct (useSubpixelStereo cfg); [apply subpixelSide_cases | left; reflexivity]. }
  destruct Hside as [E | [[E Hx] | [E Hx]]]; rewrite E; cbv iota beta zeta.
  - destruct (Qltb (MAX_ERROR_STEREO cfg + _) _); [intros Hd; discriminate Hd |].
    intros [= <-]. left. reflexivity.
  - destruct (Qltb (MAX_ERROR_STEREO cfg + _) _); [intros Hd; discriminate Hd |]. intros [= <-]. right.
    exists ((min_error s - prev_diff s)
            / (min_error s - prev_diff s - - (prev_error s - prev_diff s)))%Q.
    destruct (sign_change_ratio _ _ Hx) as [H0 H1].
    split; [exact H0 |]. split; [exact H1 |]. left. reflexivity.
  - destruct (Qltb (MAX_ERROR_STEREO cfg + _) _); [intros Hd; discriminate Hd |]. intros [= <-]. right.
    exists ((- (min_error s - next_diff s))
            / (- (min_error s - next_diff s) - (next_error s - next_diff s)))%Q.
    destruct (sign_change_ratio _ _ Hx) as [H0 H1].
    split; [exact H0 |]. split; [exact H1 |]. right. reflexivity.
Qed.

Lemma Qsquare_nonneg (q : Q) : (0 <= q * q)%Q.
Proof.
  destruct (Qlt_le_dec q 0) as [Hneg | Hpos].
  - assert (Hq : (q * q == (- q) * (- q))%Q) by ring.
    rewrite Hq. apply Qmult_le_0_compat; lra.
  - apply Qmult_le_0_compat; assumption.
Qed.

Lemma calc_grad_along_line_loop_nonneg (intensities : list Q) (acc : Q) :
  (0 <= acc)%Q -> (0 <= calc_grad_along_line_loop intensities acc)%Q.
Proof.
  revert acc. induction intensities as [| a rest IH]; intros acc Hacc; [exact Hacc |].
  destruct rest as [| b rest']; [exact Hacc |].
  cbn [calc_grad_along_line_loop]. apply IH.
  pose proof (Qsquare_nonneg (b - a)). lra.
Qed.

Lemma Qdiv_nonneg (a b : Q) : (0 <= a)%Q -> (0 <= b)%Q -> (0 <= a / b)%Q.
Proof.
  intros Ha Hb. destruct (Qlt_le_dec 0 b) as [Hpos | Hneg].
  - apply Qle_shift_div_l; lra.
  - assert (Hb0 : (b == 0)%Q) by lra.
    unfold Qdiv. rewrite Hb0.
    assert (Hinv : (/ 0 == 0)%Q) by reflexivity.
    rewrite Hinv. lra.
Qed.

Lemma calc_grad_along_line_nonneg (intensities : list Q) (interval : Q) :
  (0 <= calc_grad_along_line intensities interval)%Q.
Proof.
  unfold calc_grad_along_line. apply Qdiv_nonneg.
  - apply calc_grad_along_line_loop_nonneg. lra.
  - apply Qsquare_nonneg.
Qed.

Lemma calc_geometric_disparity_error_nonneg (g e : Vec2) (res : Q) :
  (0 <= calc_geometric_disparity_error g e res)%Q.
Proof.
  unfold calc_geometric_disparity_error. cbv zeta. apply Qdiv_nonneg.
  - apply Qmult_le_0_compat; [apply Qsquare_nonneg |].
    pose proof (Qsquare_nonneg (fst g)). pose proof (Qsquare_nonneg (snd g)). lra.
  - apply Qsquare_nonneg.
Qed.

Lemma refineMatch_gradAlongLine (s : EplScan) (m : RefinedMatch) :
  refineMatch s = inr m ->
  gradAlongLine m = calc_grad_along_line (key_intensities s) (key_sample_distance s).
Proof.
  unfold refineMatch.
  destruct (Qltb (4 * MAX_ERROR_STEREO cfg) (min_error s)); [discriminate |].
  destruct (_ && _); [discriminate |].
  cbv zeta.
  destruct (if useSubpixelStereo cfg then subpixelSide s else (false, false))
    as [ip inx].
  destruct ip; [| destruct inx];
    (destruct (Qltb _ _); [discriminate |]); intros [= <-]; reflexivity.
Qed.

(** X15.  The variance returned by a successful stereo search is never
    negative, and it is positive when the factor [alpha] from disparity to
    inverse depth is not zero: for a scan that ends in an accepted match
    whose inverse depth is not rejected as negative, [doLineStereo] returns
    the refined residual and a variance [alpha^2 * (...)] with these
    properties, provided [cameraPixelNoise2] and [DIVISION_EPS] are
    positive. *)
Theorem doLineStereo_variance_not_negative (dm : DepthMap) (coord : Z * Z)
  (min_idepth prior_idepth max_idepth : Q) (referenceFrame : Frame) (out0 : Q * Q * Q)
  (s : EplScan) (m : RefinedMatch) :
  let r :=
    doLineStereo dm coord min_idepth prior_idepth max_idepth referenceFrame out0 in
  let idnew_best_match := fst (bestMatchDepth dm referenceFrame s m) in
  let alpha := snd (bestMatchDepth dm referenceFrame s m) in
  epipolarLineSearch dm coord min_idepth prior_idepth max_idepth referenceFrame
  = SearchDone s ->
  refineMatch s = inr m ->
  (allowNegativeIdepths cfg = true \/ (0 <= idnew_best_match)%Q) ->
  (0 < cameraPixelNoise2 cfg)%Q ->
  (0 < DIVISION_EPS cfg)%Q ->
  error r = refined_error m
  /\ result_idepth r = idnew_best_match
  /\ (0 <= result_var r)%Q
  /\ (~ (alpha == 0)%Q -> (0 < result_var r)%Q).
Proof.
  intros r idnew_best_match alpha Hsearch Hrefine Hsign Hnoise Heps.
  unfold r, doLineStereo. rewrite Hsearch, Hrefine.
  unfold idnew_best_match, alpha in *.
  destruct (bestMatchDepth dm referenceFrame s m) as [idnew al]. cbn [fst snd] in *.
  assert (Hgate : Qltb idnew 0 && negb (allowNegativeIdepths cfg) = false).
  { destruct Hsign as [Hallow | Hpos].
    - rewrite Hallow. apply andb_false_r.
    - rewrite (proj2 (Qltb_false _ _) Hpos). reflexivity. }
  rewrite Hgate. cbn [error result_idepth result_var].
  split; [reflexivity |]. split; [reflexivity |].
  unfold stereoVariance. cbv zeta.
  set (geo := calc_geometric_disparity_error _ _ _).
  assert (Hgeo : (0 <= geo)%Q) by apply calc_geometric_disparity_error_nonneg.
  assert (Hgrad : (0 <= gradAlongLine m)%Q).
  { rewrite (refineMatch_gradAlongLine s m Hrefine).
    apply calc_grad_along_line_nonneg. }
  assert (Hphoto : (0 < 4 * cameraPixelNoise2 cfg / (gradAlongLine m + DIVISION_EPS cfg))%Q)
    by (apply Qlt_shift_div_l; lra).
  set (photo := (4 * cameraPixelNoise2 cfg / (gradAlongLine m + DIVISION_EPS cfg))%Q) in *.
  assert (Hcoeff : (0 <= (if interpolated m then 5 # 100 else 5 # 10)
                         * key_sample_distance s * key_sample_distance s)%Q).
  { rewrite <- Qmult_assoc. apply Qmult_le_0_compat; [| apply Qsquare_nonneg].
    destruct (interpolated m); lra. }
  set (samp := ((if interpolated m then 5 # 100 else 5 # 10)
                * key_sample_distance s * key_sample_distance s)%Q) in *.
  assert (Hbracket : (0 < samp + geo + photo)%Q) by lra.
  pose proof (Qsquare_nonneg al) as Hsq.
  split.
  - apply Qmult_le_0_compat; lra.
  - intros Hal. apply Qmult_lt_0_compat; [| exact Hbracket].
    destruct (Qlt_le_dec 0 (al * al)) as [Hpos | Hle]; [exact Hpos |].
    exfalso. apply Hal.
    assert (Hz : (al * al == 0)%Q) by lra.
    apply Qmult_integral in Hz. destruct Hz; assumption.
Qed.

(** ** The samples of the key-frame descriptor *)

Lemma is_in_image_range_true (keypoint : Vec2) (image_size : Z * Z) (padding : Z) :
  is_in_image_range keypoint image_size padding = true <->
  (inject_Z padding <= fst keypoint
   /\ inject_Z padding <= snd keypoint
   /\ fst keypoint <= inject_Z (fst image_size - 1 - padding)
   /\ snd keypoint <= inject_Z (snd image_size - 1 - padding))%Q.
Proof.
  unfold is_in_image_range. rewrite !andb_true_iff, !Qle_bool_iff.
  split; [intros [[[H1 H2] H3] H4] | intros (H1 & H2 & H3 & H4)];
    repeat split; assumption.
Qed.

(** X16.  The key-frame descriptor is sampled inside the image:
    [doLineStereo] tests with [search_range_is_in_image_area] only the two
    end points [center - 2*step] and [center + 2*step] of the segment that
    [intensities_along_line] samples; when the test succeeds, each of the
    five sample points is in the image with a border of 2 pixels. *)
Theorem search_range_covers_line_samples (center_coordinate step : Vec2)
  (image_size : Z * Z) :
  search_range_is_in_image_area
    (fst center_coordinate - 2 * fst step, snd center_coordinate - 2 * snd step)%Q
    (fst center_coordinate + 2 * fst step, snd center_coordinate + 2 * snd step)%Q
    image_size = true ->
  forall p, In p (linePoints center_coordinate step) ->
    is_in_image_range p image_size 2 = true.
Proof.
  unfold search_range_is_in_image_area. rewrite andb_true_iff.
  rewrite !is_in_image_range_true. cbn [fst snd].
  intros [(A1 & A2 & A3 & A4) (B1 & B2 & B3 & B4)] p Hp.
  apply is_in_image_range_true.
  unfold linePoints in Hp. cbn [In] in Hp.
  destruct Hp as [<- | [<- | [<- | [<- | [<- | []]]]]]; cbn [fst snd];
    repeat split; lra.
Qed.

(** ** The table of reference frames *)

Lemma zget_app_l {A : Type} (d : A) (a b : list A) (k : Z) :
  k < Z.of_nat (length a) -> zget d (a ++ b) k = zget d a k.
Proof.
  intros Hk. unfold zget. destruct (Z.ltb_spec k 0); [reflexivity |].
  rewrite lookup_app_l by lia. reflexivity.
Qed.

Lemma zget_app_replicate {A : Type} (d : A) (a : list A) (n : nat) (f : A) (k : Z) :
  Z.of_nat (length a) <= k < Z.of_nat (length a) + Z.of_nat n ->
  zget d (a ++ replicate n f) k = f.
Proof.
  intros Hk. unfold zget. destruct (Z.ltb_spec k 0); [lia |].
  rewrite lookup_app_r by lia.
  rewrite lookup_replicate_2 by lia. reflexivity.
Qed.

Lemma idsIncreaseFrom_above (last : Z) (frames : list Frame) (g : Frame) :
  idsIncreaseFrom last frames -> In g frames -> last < frame_id g.
Proof.
  revert last. induction frames as [| f rest IH]; intros last Hinc Hin; [destruct Hin |].
  destruct Hinc as [Hf Hrest]. destruct Hin as [<- | Hin]; [exact Hf |].
  specialize (IH (frame_id f) Hrest Hin). lia.
Qed.

Lemma last_cons_default (f d : Frame) (rest : list Frame) :
  List.last (f :: rest) d = List.last rest f.
Proof.
  revert f d. induction rest as [| g rest IH]; intros f d; [reflexivity |].
  change (List.last (f :: g :: rest) d) with (List.last (g :: rest) d).
  rewrite (IH g d), (IH g f). reflexivity.
Qed.

(** The loops of [updateKeyframe] over the rest of the deque, from a table
    that is right for the frames processed so far. *)
Lemma referenceWindow_fold (offset : Z) (d : Frame) (rest : list Frame) :
  forall (processed acc : list Frame) (prev : Frame),
    idsIncreaseFrom (frame_id prev) rest ->
    Z.of_nat (length acc) = frame_id prev - offset + 1 ->
    (forall g, In g processed -> frame_id g <= frame_id prev) ->
    (forall k, 0 <= k < Z.of_nat (length acc) ->
       oldestNotBefore (processed ++ rest) (offset + k) (zget d acc k)) ->
    (forall g, In g processed -> zget d acc (frame_id g - offset) = g) ->
    let byID := fold_left (pushReferenceFrame offset) rest acc in
    Z.of_nat (length byID) = frame_id (List.last rest prev) - offset + 1
    /\ (forall k, 0 <= k < Z.of_nat (length byID) ->
          oldestNotBefore (processed ++ rest) (offset + k) (zget d byID k))
    /\ (forall g, In g (processed ++ rest) -> zget d byID (frame_id g - offset) = g).
Proof.
  induction rest as [| f rest IH]; intros processed acc prev Hinc Hlen Hproc Hent Hlook.
  - cbn [fold_left List.last]. split; [exact Hlen |]. split; [exact Hent |].
    intros g Hg. rewrite app_nil_r in Hg. apply Hlook. exact Hg.
  - destruct Hinc as [Hf Hrest]. cbn [fold_left].
    set (n := Z.to_nat (frame_id f + 1 - offset - Z.of_nat (length acc))).
    assert (Hn : Z.of_nat n = frame_id f - frame_id prev) by (unfold n; lia).
    set (acc' := pushReferenceFrame offset acc f).
    assert (Hacc' : acc' = acc ++ replicate n f) by reflexivity.
    assert (Hlen' : Z.of_nat (length acc') = frame_id f - offset + 1).
    { rewrite Hacc', length_app, length_replicate. lia. }
    assert (Happ : (processed ++ [f]) ++ rest = processed ++ f :: rest).
    { rewrite <- app_assoc. reflexivity. }
    specialize (IH (processed ++ [f]) acc' f Hrest Hlen').
    rewrite Happ in IH.
    rewrite last_cons_default.
    apply IH.
    + intros g Hg. apply in_app_or in Hg. destruct Hg as [Hg | [<- | []]]; [| lia].
      specialize (Hproc g Hg). lia.
    + intros k Hk. rewrite Hacc'.
      destruct (Z_lt_dec k (Z.of_nat (length acc))) as [Hold | Hnew].
      * rewrite zget_app_l by exact Hold. apply Hent. lia.
      * rewrite zget_app_replicate by lia.
        split; [apply in_or_app; right; left; reflexivity |].
        split; [lia |].
        intros g Hg Hge. apply in_app_or in Hg. destruct Hg as [Hg | [<- | Hg]].
        -- specialize (Hproc g Hg). lia.
        -- lia.
        -- pose proof (idsIncreaseFrom_above _ _ g Hrest Hg). lia.
    + intros g Hg. rewrite Hacc'. apply in_app_or in Hg.
      destruct Hg as [Hg | [<- | []]].
      * rewrite zget_app_l by (specialize (Hproc g Hg); lia). apply Hlook. exact Hg.
      * apply zget_app_replicate. lia.
Qed.

(** The table that [updateKeyframe] builds for a deque of frames with
    increasing identifiers. *)
Lemma setReferenceFrames_window (referenceFrames : list Frame) (dm : DepthMap) :
  referenceFrames <> [] ->
  idsIncrease referenceFrames ->
  let dm' := setReferenceFrames referenceFrames dm in
  let offset := referenceFrameByID_offset dm' in
  offset = frame_id (oldest_referenceFrame dm')
  /\ In (oldest_referenceFrame dm') referenceFrames
  /\ (forall g, In g referenceFrames -> offset <= frame_id g)
  /\ Z.of_nat (length (referenceFrameByID dm'))
     = frame_id (newest_referenceFrame dm') - offset + 1
  /\ (forall k, 0 <= k < Z.of_nat (length (referenceFrameByID dm')) ->
        oldestNotBefore referenceFrames (offset + k)
          (zget (oldest_referenceFrame dm') (referenceFrameByID dm') k))
  /\ (forall g, In g referenceFrames ->
        zget (oldest_referenceFrame dm') (referenceFrameByID dm')
          (frame_id g - offset) = g).
Proof.
  intros Hne Hinc. destruct referenceFrames as [| f0 rest]; [congruence |].
  cbv zeta. unfold setReferenceFrames.
  cbn [referenceFrameByID_offset oldest_referenceFrame newest_referenceFrame
       referenceFrameByID hd fold_left].
  rewrite last_cons_default.
  assert (Hpush : pushReferenceFrame (frame_id f0) [] f0 = [f0]).
  { unfold pushReferenceFrame. cbn [length app].
    replace (Z.to_nat (frame_id f0 + 1 - frame_id f0 - Z.of_nat 0)) with 1%nat by lia.
    reflexivity. }
  rewrite Hpush.
  split; [reflexivity |]. split; [left; reflexivity |].
  split.
  { intros g [<- | Hg]; [lia |].
    pose proof (idsIncreaseFrom_above _ _ g Hinc Hg). lia. }
  apply (referenceWindow_fold (frame_id f0) f0 rest [f0] [f0] f0).
  - exact Hinc.
  - cbn [length]. lia.
  - intros g [<- | []]. lia.
  - intros k Hk. cbn [length] in Hk. assert (k = 0) by lia. subst k.
    change (zget f0 [f0] 0) with f0.
    split; [left; reflexivity |]. split; [lia |].
    intros g [<- | Hg] _; [lia |].
    pose proof (idsIncreaseFrom_above _ _ g Hinc Hg). lia.
  - intros g [<- | []]. replace (frame_id f0 - frame_id f0) with 0 by lia. reflexivity.
Qed.

(** X17.  The table [referenceFrameByID] that [updateKeyframe] builds from a
    non-empty deque of frames with strictly increasing identifiers: its
    offset is the identifier of the oldest frame, it has one entry for each
    identifier from that of the oldest to that of the newest frame, the
    entry at [id - offset] of a frame of the deque is that frame, and the
    entry at any position [k] is the oldest frame of the deque whose
    identifier is at least [offset + k]. *)
Theorem referenceFrameByID_lookup (referenceFrames : list Frame) (dm : DepthMap) :
  referenceFrames <> [] ->
  idsIncrease referenceFrames ->
  let dm' := setReferenceFrames referenceFrames dm in
  let offset := referenceFrameByID_offset dm' in
  offset = frame_id (oldest_referenceFrame dm')
  /\ Z.of_nat (length (referenceFrameByID dm'))
     = frame_id (newest_referenceFrame dm') - offset + 1
  /\ (forall g, In g referenceFrames ->
        zget (oldest_referenceFrame dm') (referenceFrameByID dm')
          (frame_id g - offset) = g)
  /\ (forall k, 0 <= k < Z.of_nat (length (referenceFrameByID dm')) ->
        oldestNotBefore referenceFrames (offset + k)
          (zget (oldest_referenceFrame dm') (referenceFrameByID dm') k)).
Proof.
  intros Hne Hinc.
  destruct (setReferenceFrames_window referenceFrames dm Hne Hinc)
    as (Hoff & _ & _ & Hlen & Hent & Hlook).
  cbv zeta. split; [exact Hoff |]. split; [exact Hlen |].
  split; [exact Hlook | exact Hent].
Qed.

Lemma uint_to_int_small (v : Z) : 0 <= v < 2 ^ 31 -> uint_to_int v = v.
Proof.
  intros Hv. unfold uint_to_int.
  rewrite Z.mod_small by lia.
  destruct (Z.ltb_spec v (2 ^ 31)); [reflexivity | lia].
Qed.

(** X18.  The skip logic is honoured.  After [updateKeyframe] has set up
    the reference frames (a non-empty deque with strictly increasing
    identifiers, key frame not reactivated), the reference frame that
    [observeDepthUpdate] selects for a cell is the oldest frame of the deque
    whose identifier is at least the [nextStereoFrameMinID] of the cell; when
    no frame of the deque is that recent, that is when the newest frame is
    older than [nextStereoFrameMinID], the cell is skipped. *)
Theorem updateReferenceFrame_respects_skip (referenceFrames : list Frame)
  (dm : DepthMap) (target : DepthMapPixelHypothesis) :
  referenceFrames <> [] ->
  idsIncrease referenceFrames ->
  activeKeyFrameIsReactivated dm = false ->
  0 <= nextStereoFrameMinID target < 2 ^ 31 ->
  let dm' := setReferenceFrames referenceFrames dm in
  (frame_id (newest_referenceFrame dm') < nextStereoFrameMinID target ->
   updateReferenceFrame dm' target = None)
  /\ (nextStereoFrameMinID target <= frame_id (newest_referenceFrame dm') ->
      exists f, updateReferenceFrame dm' target = Some f
                /\ oldestNotBefore referenceFrames (nextStereoFrameMinID target) f).
Proof.
  intros Hne Hinc Hreact Hid.
  destruct (setReferenceFrames_window referenceFrames dm Hne Hinc)
    as (Hoff & Hold & Hmin & Hlen & Hent & Hlook).
  cbv zeta in *.
  set (dm' := setReferenceFrames referenceFrames dm) in *.
  assert (Hre' : activeKeyFrameIsReactivated dm' = false) by exact Hreact.
  unfold updateReferenceFrame. rewrite Hre'. simpl negb. cbv iota zeta.
  rewrite (uint_to_int_small _ Hid).
  set (k := nextStereoFrameMinID target - referenceFrameByID_offset dm') in *.
  split.
  - intros Hlate.
    destruct (Z.geb_spec k (Z.of_nat (length (referenceFrameByID dm'))));
      [reflexivity | lia].
  - intros Hearly.
    destruct (Z.geb_spec k (Z.of_nat (length (referenceFrameByID dm')))); [lia |].
    destruct (Z.ltb_spec k 0) as [Hneg | Hpos].
    + exists (oldest_referenceFrame dm'). split; [reflexivity |].
      split; [exact Hold |]. split; [lia |].
      intros g Hg _. specialize (Hmin g Hg). lia.
    + eexists. split; [reflexivity |].
      specialize (Hent k ltac:(lia)).
      replace (referenceFrameByID_offset dm' + k) with (nextStereoFrameMinID target)
        in Hent by (unfold k; lia).
      exact Hent.
Qed.

(** ** Loading a key frame: [setFromExistingKF] *)

Lemma loadPixel_local (ids vars : list Q) (vals : list Z) :
  pixelLocal (loadPixel ids vars vals).
Proof.
  intros y dm x. unfold loadPixel. cbv zeta.
  destruct (Qltb 0 _); apply pixelLocal_store.
Qed.

Lemma loadPixel_determined (ids vars : list Q) (vals : list Z) :
  cellDetermined (loadPixel ids vars vals).
Proof.
  intros y x dm dm' Hf Hl Hc.
  assert (Hw : width dm' = width dm) by (symmetry; apply frameOf_width; exact Hf).
  unfold loadPixel. cbv zeta. rewrite Hw, <- Hc.
  destruct (Qltb 0 _); apply storeCurrent_same_cell; assumption.
Qed.

Lemma setFromExistingKF_pass (kf : Frame) (ids vars : list Q) (vals : list Z)
  (dm : DepthMap) :
  setFromExistingKF kf ids vars vals dm
  = regularizeDepthMap false (VAL_SUM_MIN_FOR_KEEP cfg)
      (pixelPass 0 0 (loadPixel ids vars vals) 0 (height dm) (reactivate kf dm)).
Proof.
  unfold setFromExistingKF. cbv zeta. f_equal.
  unfold pixelPass, for_range. apply fold_left_ext.
  intros d y. rewrite !Z.sub_0_r. reflexivity.
Qed.

(** X19.  What [setFromExistingKF] loads.  For every pixel of the image,
    with [idepthVar] the persisted variance of the pixel: if [idepthVar] is
    not positive the cell is invalid afterwards, and its blacklist counter
    is [MIN_BLACKLIST - 1] (so that the observation never creates a
    hypothesis there) when [idepthVar] is -2 and 0 otherwise; if
    [idepthVar] is positive the cell carries the persisted inverse depth,
    variance and validity counter (the regularization that ends the
    function may still invalidate it). *)
Theorem setFromExistingKF_loads (kf : Frame) (idepth_reAct idepthVar_reAct : list Q)
  (validity_reAct : list Z) (dm : DepthMap) (x y : Z) :
  let idx := x + y * width dm in
  let idepthVar := zget 0%Q idepthVar_reAct idx in
  let cell' :=
    zget noHypothesis
      (currentDepthMap
         (setFromExistingKF kf idepth_reAct idepthVar_reAct validity_reAct dm)) idx in
  height dm * width dm <= Z.of_nat (length (currentDepthMap dm)) ->
  0 <= x < width dm ->
  0 <= y < height dm ->
  ((idepthVar <= 0)%Q ->
   isValid cell' = false
   /\ blacklisted cell'
      = (if Qeq_bool idepthVar (-2) then MIN_BLACKLIST cfg - 1 else 0))
  /\ ((0 < idepthVar)%Q ->
      idepth cell' = zget 0%Q idepth_reAct idx
      /\ idepth_var cell' = idepthVar
      /\ validity_counter cell' = zget 0 validity_reAct idx).
Proof.
  intros idx idepthVar cell' Hlen Hx Hy.
  set (dm0 := reactivate kf dm).
  set (dm1 := pixelPass 0 0 (loadPixel idepth_reAct idepthVar_reAct validity_reAct)
                0 (height dm) dm0).
  assert (Hidx : 0 <= idx < Z.of_nat (length (currentDepthMap dm))) by (unfold idx; nia).
  (* the cell after the loading loops *)
  assert (Hload : zget noHypothesis (currentDepthMap dm1) idx
                  = zget noHypothesis
                      (currentDepthMap
                         (loadPixel idepth_reAct idepthVar_reAct validity_reAct
                            y dm0 x)) idx).
  { apply (pixelPass_cell _ (loadPixel_local idepth_reAct idepthVar_reAct validity_reAct)
             0 0 (loadPixel_determined idepth_reAct idepthVar_reAct validity_reAct)
             0 (height dm) dm0 x y); [lia | lia | exact Hy |].
    change (width dm0) with (width dm). lia. }
  unfold loadPixel in Hload. cbv zeta in Hload.
  change (width dm0) with (width dm) in Hload. fold idx in Hload.
  fold idepthVar in Hload.
  (* the regularization *)
  pose proof (regularizeDepthMap_cases false (VAL_SUM_MIN_FOR_KEEP cfg) dm1 idx) as Hreg.
  cbv zeta in Hreg.
  assert (Hfinal : zget noHypothesis
                     (currentDepthMap
                        (regularizeDepthMap false (VAL_SUM_MIN_FOR_KEEP cfg) dm1)) idx
                   = cell').
  { unfold cell'. rewrite setFromExistingKF_pass. reflexivity. }
  rewrite Hfinal in Hreg.
  set (cell1 := zget noHypothesis (currentDepthMap dm1) idx) in *.
  split.
  - intros Hvar. rewrite (proj2 (Qltb_false _ _) Hvar) in Hload.
    change (currentDepthMap (storeCurrent dm0 idx ?h))
      with (zset (currentDepthMap dm) idx h) in Hload.
    rewrite zget_zset_eq in Hload by exact Hidx.
    assert (Hinv : isValid cell1 = false) by (rewrite Hload; reflexivity).
    destruct Hreg as [E | (Hv & _)]; [| rewrite Hinv in Hv; discriminate].
    rewrite E, Hload. split; reflexivity.
  - intros Hvar. rewrite (proj2 (Qltb_true _ _) Hvar) in Hload.
    change (currentDepthMap (storeCurrent dm0 idx ?h))
      with (zset (currentDepthMap dm) idx h) in Hload.
    rewrite zget_zset_eq in Hload by exact Hidx.
    destruct Hreg as [E | (_ & [E | [E | E]])]; rewrite E, Hload;
      repeat split; reflexivity.
Qed.

(** ** The border through the mapping steps *)

Lemma observeDepth_size (dm : DepthMap) :
  width (observeDepth dm) = width dm /\ height (observeDepth dm) = height dm.
Proof.
  rewrite observeDepth_pass.
  destruct (pixelPass_frame observeDepthPixel observeDepthPixel_local 3 3
              3 (height dm - 3) dm) as [Hf _].
  split; [apply (f_equal width) in Hf | apply (f_equal height) in Hf]; exact Hf.
Qed.

Lemma regularizeDepthMapFillHoles_size (dm : DepthMap) :
  width (regularizeDepthMapFillHoles dm) = width dm
  /\ height (regularizeDepthMapFillHoles dm) = height dm.
Proof.
  rewrite regularizeDepthMapFillHoles_pass.
  destruct (pixelPass_frame fillHolesPixel fillHolesPixel_local 3 2
              3 (height dm - 2) (fillHolesStart dm)) as [Hf _].
  split; [apply (f_equal width) in Hf | apply (f_equal height) in Hf]; exact Hf.
Qed.

(** A cell that is not the cell of a pixel with [2 <= x < width - 2] and
    [2 <= y < height - 2] is left as it was by each of the three passes. *)
Lemma passes_leave_cell (dm : DepthMap) (idx : Z) :
  (forall x y, 2 <= y < height dm - 2 -> 2 <= x < width dm - 2 ->
     idx <> x + y * width dm) ->
  zget noHypothesis (currentDepthMap (observeDepth dm)) idx
  = zget noHypothesis (currentDepthMap dm) idx
  /\ zget noHypothesis (currentDepthMap (regularizeDepthMapFillHoles dm)) idx
     = zget noHypothesis (currentDepthMap dm) idx
  /\ forall removeOcclusions validityTH,
       zget noHypothesis
         (currentDepthMap (regularizeDepthMap removeOcclusions validityTH dm)) idx
       = zget noHypothesis (currentDepthMap dm) idx.
Proof.
  intros Hout. split; [| split].
  - rewrite observeDepth_pass.
    apply (pixelPass_untouched observeDepthPixel observeDepthPixel_local).
    intros x y Hy Hx. apply Hout; lia.
  - rewrite regularizeDepthMapFillHoles_pass.
    rewrite (pixelPass_untouched fillHolesPixel fillHolesPixel_local);
      [reflexivity |].
    intros x y Hy Hx. change (width (fillHolesStart dm)) with (width dm) in *.
    apply Hout; lia.
  - intros removeOcclusions validityTH. rewrite regularizeDepthMap_pass.
    rewrite (pixelPass_untouched _ (regularizePixel_local removeOcclusions validityTH));
      [reflexivity |].
    intros x y Hy Hx.
    change (width (set_otherDepthMap (currentDepthMap dm) dm)) with (width dm) in *.
    apply Hout; lia.
Qed.

(** X20.  The mapping steps never write the border: a cell less than 2
    pixels away from an edge of the image is left exactly as it was, valid
    or not, by [updateKeyframe] and by [finalizeKeyFrame]. *)
Theorem mapping_leaves_border_untouched (referenceFrames : list Frame)
  (dm : DepthMap) (x y : Z) :
  let idx := x + y * width dm in
  0 <= x < width dm ->
  inBorder 2 (width dm) (height dm) x y ->
  zget noHypothesis (currentDepthMap (updateKeyframe referenceFrames dm)) idx
  = zget noHypothesis (currentDepthMap dm) idx
  /\ zget noHypothesis (currentDepthMap (finalizeKeyFrame dm)) idx
     = zget noHypothesis (currentDepthMap dm) idx.
Proof.
  intros idx Hx Hborder. unfold inBorder in Hborder.
  assert (Hout : forall x' y', 2 <= y' < height dm - 2 -> 2 <= x' < width dm - 2 ->
                   idx <> x' + y' * width dm).
  { intros x' y' Hy' Hx' Heq.
    destruct (flat_index_inj (width dm) x y x' y') as [-> ->]; [lia | lia | exact Heq |].
    lia. }
  split.
  - rewrite currentDepthMap_updateKeyframe.
    set (d0 := setReferenceFrames referenceFrames dm).
    set (d1 := observeDepth d0). set (d2 := regularizeDepthMapFillHoles d1).
    destruct (observeDepth_size d0) as [Hw1 Hh1]. fold d1 in Hw1, Hh1.
    destruct (regularizeDepthMapFillHoles_size d1) as [Hw2 Hh2]. fold d2 in Hw2, Hh2.
    change (width d0) with (width dm) in Hw1. change (height d0) with (height dm) in Hh1.
    destruct (passes_leave_cell d2 idx) as (_ & _ & H3).
    { rewrite Hw2, Hh2, Hw1, Hh1. exact Hout. }
    destruct (passes_leave_cell d1 idx) as (_ & H2 & _).
    { rewrite Hw1, Hh1. exact Hout. }
    destruct (passes_leave_cell d0 idx) as (H1 & _ & _); [exact Hout |].
    rewrite H3. unfold d2. rewrite H2. unfold d1. rewrite H1. reflexivity.
  - unfold finalizeKeyFrame. cbv zeta.
    set (d1 := regularizeDepthMapFillHoles dm).
    destruct (regularizeDepthMapFillHoles_size dm) as [Hw1 Hh1]. fold d1 in Hw1, Hh1.
    destruct (passes_leave_cell d1 idx) as (_ & _ & H3).
    { rewrite Hw1, Hh1. exact Hout. }
    destruct (passes_leave_cell dm idx) as (_ & H2 & _); [exact Hout |].
    rewrite H3. exact H2.
Qed.

(** ** The integral buffer *)

(** X21.  [buildRegIntegralBuffer] computes the two-dimensional prefix sums
    of the validity counters: in an image with a buffer of at least
    [width * height] entries, the entry at [(x, y)] becomes the sum of the
    validity counters of the valid cells [(x', y')] with [x' <= x] and
    [y' <= y]; the two grids are left as they were. *)
Theorem buildRegIntegralBuffer_prefix_sums (dm : DepthMap) (x y : Z) :
  height dm * width dm <= Z.of_nat (length (validityIntegralBuffer dm)) ->
  0 <= x < width dm ->
  0 <= y < height dm ->
  zget 0 (validityIntegralBuffer (buildRegIntegralBuffer dm)) (x + y * width dm)
  = sumZ 0 (y + 1)
      (fun y' => sumZ 0 (x + 1)
         (fun x' => cellValidity (currentDepthMap dm) (x' + y' * width dm)))
  /\ currentDepthMap (buildRegIntegralBuffer dm) = currentDepthMap dm
  /\ otherDepthMap (buildRegIntegralBuffer dm) = otherDepthMap dm.
Proof.
  intros Hlen Hx Hy. split; [| split; reflexivity].
  apply (buildRegIntegralBuffer_spec dm); (lia || assumption).
Qed.

(** ** The smoothed inverse depth *)

(** One step of the smoothing loops keeps the weighted sum between [lo] and
    [hi] times the sum of the weights. *)
Lemma smoothAccumulate_range (removeOcclusions : bool) (dm : DepthMap)
  (idx dx dy : Z) (acc : SmoothAcc) (lo hi : Q) :
  (0 <= REG_DIST_VAR cfg)%Q ->
  (forall j, isValid (zget noHypothesis (otherDepthMap dm) j) = true ->
     (0 < idepth_var (zget noHypothesis (otherDepthMap dm) j))%Q
     /\ (lo <= idepth (zget noHypothesis (otherDepthMap dm) j))%Q
     /\ (idepth (zget noHypothesis (otherDepthMap dm) j) <= hi)%Q) ->
  (lo * acc_sumIvar acc <= acc_sum acc)%Q /\ (acc_sum acc <= hi * acc_sumIvar acc)%Q ->
  let acc' := smoothAccumulate removeOcclusions dm idx dx acc dy in
  (lo * acc_sumIvar acc' <= acc_sum acc')%Q /\ (acc_sum acc' <= hi * acc_sumIvar acc')%Q.
Proof.
  intros Hreg Hcells Hacc. unfold smoothAccumulate. cbv zeta.
  set (source := zget noHypothesis (otherDepthMap dm) (idx + dx + dy * width dm)).
  destruct (isValid source) eqn:Hs; simpl negb; cbv iota; [| exact Hacc].
  destruct (Hcells _ Hs) as (Hvar & Hlo & Hhi). fold source in Hvar, Hlo, Hhi.
  destruct (Qltb _ _).
  { destruct (removeOcclusions && _); simpl; exact Hacc. }
  simpl.
  assert (Hdist : (0 <= inject_Z (dx * dx + dy * dy) * REG_DIST_VAR cfg)%Q).
  { apply Qmult_le_0_compat; [| exact Hreg].
    change 0%Q with (inject_Z 0). rewrite <- Zle_Qle. nia. }
  set (ivar := (1 / (idepth_var source
                     + inject_Z (dx * dx + dy * dy) * REG_DIST_VAR cfg))%Q).
  assert (Hiv : (0 < ivar)%Q) by (apply Qlt_shift_div_l; lra).
  assert (H1 : (lo * ivar <= idepth source * ivar)%Q)
    by (apply Qmult_le_compat_r; lra).
  assert (H2 : (idepth source * ivar <= hi * ivar)%Q)
    by (apply Qmult_le_compat_r; lra).
  destruct Hacc as [Ha Hb]. split; lra.
Qed.

Lemma smoothWindow_range (removeOcclusions : bool) (dm : DepthMap) (idx : Z)
  (lo hi : Q) :
  (0 <= REG_DIST_VAR cfg)%Q ->
  (forall j, isValid (zget noHypothesis (otherDepthMap dm) j) = true ->
     (0 < idepth_var (zget noHypothesis (otherDepthMap dm) j))%Q
     /\ (lo <= idepth (zget noHypothesis (otherDepthMap dm) j))%Q
     /\ (idepth (zget noHypothesis (otherDepthMap dm) j) <= hi)%Q) ->
  let acc := smoothWindow removeOcclusions dm idx in
  (lo * acc_sumIvar acc <= acc_sum acc)%Q /\ (acc_sum acc <= hi * acc_sumIvar acc)%Q.
Proof.
  intros Hreg Hcells. cbv zeta. unfold smoothWindow. cbv zeta.
  apply (for_range_preserves
           (fun acc => (lo * acc_sumIvar acc <= acc_sum acc)%Q
                       /\ (acc_sum acc <= hi * acc_sumIvar acc)%Q)).
  - simpl. split; lra.
  - intros dx acc _ Hacc.
    apply (for_range_preserves
             (fun acc => (lo * acc_sumIvar acc <= acc_sum acc)%Q
                         /\ (acc_sum acc <= hi * acc_sumIvar acc)%Q)).
    + exact Hacc.
    + intros dy acc' _ Hacc'.
      apply (smoothAccumulate_range removeOcclusions dm idx dx dy acc' lo hi);
        assumption.
Qed.

(** X22.  Smoothing keeps the inverse depths within the range of the map:
    if every valid cell of the grid has a positive variance and an inverse
    depth in [[lo, hi]], with [0 < UNZERO_EPS <= lo], and [REG_DIST_VAR] is
    not negative, then every cell at a pixel visited by the smoothing loops
    that is valid after [regularizeDepthMap] has its smoothed inverse depth
    in [[lo, hi]]; in particular it is positive, as the propagation, which
    divides by it, needs. *)
Theorem regularizeDepthMap_smoothed_idepth_in_range (removeOcclusions : bool)
  (validityTH : Z) (dm : DepthMap) (x y : Z) (lo hi : Q) :
  let idx := x + y * width dm in
  let cell' :=
    zget noHypothesis
      (currentDepthMap (regularizeDepthMap removeOcclusions validityTH dm)) idx in
  height dm * width dm <= Z.of_nat (length (currentDepthMap dm)) ->
  2 <= x < width dm - 2 ->
  2 <= y < height dm - 2 ->
  (0 <= REG_DIST_VAR cfg)%Q ->
  (0 < UNZERO_EPS cfg)%Q ->
  (UNZERO_EPS cfg <= lo)%Q ->
  (forall j, isValid (zget noHypothesis (currentDepthMap dm) j) = true ->
     (0 < idepth_var (zget noHypothesis (currentDepthMap dm) j))%Q
     /\ (lo <= idepth (zget noHypothesis (currentDepthMap dm) j))%Q
     /\ (idepth (zget noHypothesis (currentDepthMap dm) j) <= hi)%Q) ->
  isValid cell' = true ->
  (lo <= idepth_smoothed cell')%Q /\ (idepth_smoothed cell' <= hi)%Q.
Proof.
  intros idx cell' Hlen Hx Hy Hreg Heps Hlo Hcells Hvalid'.
  set (cell := zget noHypothesis (currentDepthMap dm) idx).
  set (dm0 := set_otherDepthMap (currentDepthMap dm) dm).
  assert (Hcell : cell'
                  = zget noHypothesis
                      (currentDepthMap
                         (regularizePixel removeOcclusions validityTH y dm0 x)) idx).
  { apply regularizeDepthMap_pixel; assumption. }
  pose proof (regularizePixel_cases removeOcclusions validityTH y dm0 x) as Hc.
  cbv zeta in Hc.
  assert (Hidx : x + y * width dm0 = idx) by reflexivity.
  rewrite Hidx in Hc. rewrite <- Hcell in Hc. clear Hcell.
  assert (Hother : zget noHypothesis (otherDepthMap dm0) idx = cell) by reflexivity.
  assert (Hcur : zget noHypothesis (currentDepthMap dm0) idx = cell) by reflexivity.
  assert (Hl0 : length (currentDepthMap dm0) = length (currentDepthMap dm))
    by reflexivity.
  rewrite Hother, Hcur, Hl0 in Hc.
  destruct Hc as [[E [Hv | Hout]] | (Hv & [E | [E | E]])].
  - exfalso. rewrite E, Hv in Hvalid'. discriminate.
  - exfalso. apply Hout. unfold idx. nia.
  - exfalso. rewrite E in Hvalid'. discriminate.
  - exfalso. rewrite E in Hvalid'. discriminate.
  - assert (Hvars : forall j,
              isValid (zget noHypothesis (otherDepthMap dm0) j) = true ->
              (0 < idepth_var (zget noHypothesis (otherDepthMap dm0) j))%Q).
    { intros j Hj. apply (Hcells j). exact Hj. }
    pose proof (smoothWindow_sumIvar removeOcclusions dm0 idx Hreg Hvars) as Hsum.
    rewrite Hother in Hsum. specialize (Hsum Hv).
    pose proof (smoothWindow_range removeOcclusions dm0 idx lo hi Hreg Hcells) as Hrange.
    cbv zeta in Hrange.
    destruct (Hcells idx Hv) as (Hvar & _ & _). fold cell in Hvar.
    rewrite E. simpl.
    set (s := acc_sumIvar (smoothWindow removeOcclusions dm0 idx)) in *.
    set (a := acc_sum (smoothWindow removeOcclusions dm0 idx)) in *.
    assert (Hc : (0 < 1 / idepth_var cell)%Q) by (apply Qlt_shift_div_l; lra).
    assert (Hs : (0 < s)%Q) by lra.
    destruct Hrange as [Hr1 Hr2].
    assert (Hq1 : (lo <= a / s)%Q) by (apply Qle_shift_div_l; [exact Hs | exact Hr1]).
    assert (Hq2 : (a / s <= hi)%Q) by (apply Qle_shift_div_r; [exact Hs | exact Hr2]).
    rewrite UNZERO_above by lra. split; assumption.
Qed.

(** ** The observation and the smoothed values *)

Lemma updateFromStereo_smoothed (dm : DepthMap) (target : DepthMapPixelHypothesis)
  (absGrad : Q) (refFrame : Frame) (r : StereoResult) :
  let target' := fst (updateFromStereo dm target absGrad refFrame r) in
  idepth_smoothed target' = idepth_smoothed target
  /\ idepth_var_smoothed target' = idepth_var_smoothed target.
Proof.
  cbv zeta. unfold updateFromStereo.
  destruct (Qeq_bool (error r) (-5)); [split; reflexivity |].
  destruct (Qeq_bool (error r) (-1)); [split; reflexivity |].
  destruct (Qeq_bool (error r) (-2)).
  { cbv zeta. simpl idepth_var. destruct (Qltb (MAX_VAR cfg) _); split; reflexivity. }
  destruct (Qeq_bool (error r) (-3)); [split; reflexivity |].
  destruct (Qeq_bool (error r) (-4)); [split; reflexivity |].
  destruct (Qltb (result_var r + idepth_var_smoothed target) _).
  { cbv zeta. simpl idepth_var. destruct (Qltb (MAX_VAR cfg) _); split; reflexivity. }
  cbv zeta. simpl fst.
  destruct (Qltb _ (idepth_var _));
    destruct (Qltb (result_eplLength r) (MIN_EPL_LENGTH_CROP cfg));
    split; reflexivity.
Qed.

(** X23.  The observation works on frozen smoothed values: for every cell
    that holds a valid hypothesis, [observeDepth] leaves [idepth_smoothed]
    and [idepth_var_smoothed] as the last regularization set them, whether
    the hypothesis is updated, skipped or invalidated. *)
Theorem observeDepth_keeps_smoothed (dm : DepthMap) (idx : Z) :
  let cell := zget noHypothesis (currentDepthMap dm) idx in
  let cell' := zget noHypothesis (currentDepthMap (observeDepth dm)) idx in
  isValid cell = true ->
  idepth_smoothed cell' = idepth_smoothed cell
  /\ idepth_var_smoothed cell' = idepth_var_smoothed cell.
Proof.
  intros cell cell' Hvalid.
  destruct (pass_pixel_dec 3 3 ltac:(lia) ltac:(lia) (width dm) 3 (height dm - 3) idx)
    as [(x & y & Hy & Hx & Hj) | Hout].
  - assert (Hcell : cell'
                    = zget noHypothesis (currentDepthMap (observeDepthPixel y dm x)) idx).
    { unfold cell'. rewrite Hj. apply observeDepth_pixel; assumption. }
    rewrite Hcell. unfold observeDepthPixel. rewrite <- Hj. fold cell.
    rewrite Hvalid. simpl andb. simpl negb. cbv iota.
    assert (Hstore : forall h,
              idepth_smoothed h = idepth_smoothed cell
              /\ idepth_var_smoothed h = idepth_var_smoothed cell ->
              idepth_smoothed
                (zget noHypothesis (currentDepthMap (storeCurrent dm idx h)) idx)
              = idepth_smoothed cell
              /\ idepth_var_smoothed
                   (zget noHypothesis (currentDepthMap (storeCurrent dm idx h)) idx)
                 = idepth_var_smoothed cell).
    { intros h Hh. destruct (storeCurrent_cell dm idx h) as [[_ E] | E]; rewrite E.
      - exact Hh.
      - split; reflexivity. }
    destruct (Qltb _ (MIN_ABS_GRAD_DECREASE cfg)).
    { apply Hstore. split; reflexivity. }
    destruct (_ || _); [split; reflexivity |].
    unfold observeDepthUpdate. fold cell. cbn [fst snd].
    destruct (updateReferenceFrame dm cell) as [refFrame |]; [| split; reflexivity].
    destruct (negb (wasGoodDuringTracking _ _ _ _)); [split; reflexivity |].
    pose proof (updateFromStereo_smoothed dm cell
                  (zget 0%Q (maxGradients (activeKeyFrame dm)) idx) refFrame
                  (updateStereo dm (x, y) cell refFrame)) as Hupd.
    cbv zeta in Hupd.
    destruct (updateFromStereo _ _ _ _ _) as [target' success]. cbn [fst] in *.
    apply Hstore. exact Hupd.
  - unfold cell'. rewrite observeDepth_pass.
    rewrite (pixelPass_untouched observeDepthPixel observeDepthPixel_local);
      [split; reflexivity | exact Hout].
Qed.

(** ** The creation of hypotheses by the observation *)

(** X24.  What [observeDepth] does at a pixel without hypothesis.  At a
    pixel that the observation visits, whose cell is invalid and not
    blacklisted ([blacklisted >= MIN_BLACKLIST]), whose key-frame
    max-gradient is at least [MIN_ABS_GRAD_CREATE] and which was tracked
    well, one stereo search is run over the inverse depths
    [[0, 1/MIN_DEPTH]] with prior 1, against the oldest reference frame (the
    newest one when the key frame is reactivated).  If it returns a
    residual that is not negative and a variance of at most [MAX_VAR], the
    cell becomes the hypothesis with inverse depth [UNZERO(result_idepth)],
    that variance and the validity counter
    [VALIDITY_COUNTER_INITIAL_OBSERVE].  Otherwise the cell stays invalid and
    its other fields are kept, except that the blacklist counter is
    decremented when the search returned -2 or -3. *)
Theorem observeDepth_creates (dm : DepthMap) (x y : Z) :
  let idx := x + y * width dm in
  let cell := zget noHypothesis (currentDepthMap dm) idx in
  let cell' := zget noHypothesis (currentDepthMap (observeDepth dm)) idx in
  let refFrame :=
    if activeKeyFrameIsReactivated dm
    then newest_referenceFrame dm else oldest_referenceFrame dm in
  let r :=
    doLineStereo (withoutBuffers dm) (x, y) 0 1 (1 / MIN_DEPTH cfg)%Q refFrame
      (uninitialized, uninitialized, uninitialized) in
  height dm * width dm <= Z.of_nat (length (currentDepthMap dm)) ->
  3 <= x < width dm - 3 ->
  3 <= y < height dm - 3 ->
  isValid cell = false ->
  (MIN_ABS_GRAD_CREATE cfg <= zget 0 (maxGradients (activeKeyFrame dm)) idx)%Q ->
  MIN_BLACKLIST cfg <= blacklisted cell ->
  wasGoodDuringTracking dm refFrame x y = true ->
  ((0 <= error r)%Q -> (result_var r <= MAX_VAR cfg)%Q ->
   cell' = newHypothesis (UNZERO (result_idepth r)) (result_var r)
             (VALIDITY_COUNTER_INITIAL_OBSERVE cfg))
  /\ ((error r < 0)%Q \/ (MAX_VAR cfg < result_var r)%Q ->
      cell' = (if Qeq_bool (error r) (-3) || Qeq_bool (error r) (-2)
               then set_blacklisted (blacklisted cell - 1) cell else cell)).
Proof.
  intros idx cell cell' refFrame r Hlen Hx Hy Hinvalid Hgrad Hblack Htracked.
  assert (Hidx : 0 <= idx < Z.of_nat (length (currentDepthMap dm)))
    by (unfold idx; nia).
  assert (Hcell : cell'
                  = zget noHypothesis (currentDepthMap (observeDepthPixel y dm x)) idx).
  { apply observeDepth_pixel; assumption. }
  unfold observeDepthPixel in Hcell. fold idx in Hcell. fold cell in Hcell.
  rewrite Hinvalid in Hcell. simpl andb in Hcell. cbv iota in Hcell.
  rewrite (proj2 (Qltb_false _ _) Hgrad) in Hcell.
  assert (Hb : Z.ltb (blacklisted cell) (MIN_BLACKLIST cfg) = false)
    by (apply Z.ltb_ge; exact Hblack).
  rewrite Hb in Hcell. simpl orb in Hcell. simpl negb in Hcell. cbv iota in Hcell.
  unfold observeDepthCreate in Hcell. cbv zeta in Hcell. cbn [fst snd] in Hcell.
  fold refFrame in Hcell. rewrite Htracked in Hcell.
  simpl negb in Hcell. cbv iota in Hcell.
  fold cell in Hcell. fold r in Hcell.
  split.
  - intros Herr Hvar.
    rewrite (proj2 (Qltb_false _ _) Herr) in Hcell.
    rewrite (proj2 (Qltb_false _ _) Hvar) in Hcell.
    simpl orb in Hcell. cbv iota in Hcell. cbn [fst] in Hcell.
    rewrite Hcell. simpl. apply zget_zset_eq. exact Hidx.
  - intros Hfail.
    assert (Hor : Qltb (error r) 0 || Qltb (MAX_VAR cfg) (result_var r) = true).
    { destruct Hfail as [He | Hv].
      - rewrite (proj2 (Qltb_true _ _) He). reflexivity.
      - rewrite (proj2 (Qltb_true _ _) Hv). apply orb_true_r. }
    rewrite Hor in Hcell. cbn [fst] in Hcell.
    rewrite Hcell. simpl. apply zget_zset_eq. exact Hidx.
Qed.

(** ** Which hypotheses the regularizer keeps *)

(** What one step of the smoothing loops does to the sum of the validity
    counters: it never decreases, and the centre of the window, a valid
    cell, contributes its own counter. *)
Lemma smoothAccumulate_valSum (removeOcclusions : bool) (dm : DepthMap)
  (idx dx dy : Z) (acc : SmoothAcc) :
  (forall j, isValid (zget noHypothesis (otherDepthMap dm) j) = true ->
     (0 < idepth_var (zget noHypothesis (otherDepthMap dm) j))%Q
     /\ 0 <= validity_counter (zget noHypothesis (otherDepthMap dm) j)) ->
  isValid (zget noHypothesis (otherDepthMap dm) idx) = true ->
  let acc' := smoothAccumulate removeOcclusions dm idx dx acc dy in
  (acc_val_sum acc <= acc_val_sum acc')%Q
  /\ (dx = 0 -> dy = 0 ->
      (acc_val_sum acc
       + inject_Z (validity_counter (zget noHypothesis (otherDepthMap dm) idx))
       <= acc_val_sum acc')%Q).
Proof.
  intros Hcells Hvalid. unfold smoothAccumulate.
  set (destRead := zget noHypothesis (otherDepthMap dm) idx) in *.
  set (source := zget noHypothesis (otherDepthMap dm) (idx + dx + dy * width dm)).
  cbv zeta.
  assert (Hcentre : dx = 0 -> dy = 0 -> source = destRead).
  { intros -> ->. unfold source, destRead. f_equal. lia. }
  destruct (isValid source) eqn:Hs; simpl negb; cbv iota.
  2:{ split; [lra |]. intros Hx0 Hy0. exfalso.
      rewrite (Hcentre Hx0 Hy0) in Hs. rewrite Hvalid in Hs. discriminate. }
  destruct (Hcells _ Hs) as [Hsvar Hsvc]. fold source in Hsvar, Hsvc.
  destruct (Qltb (idepth_var source + idepth_var destRead) _) eqn:Eincons.
  { assert (Hnot : ~ (dx = 0 /\ dy = 0)).
    { intros [Hx0 Hy0]. apply Qltb_true in Eincons.
      rewrite (Hcentre Hx0 Hy0) in Eincons.
      destruct (Hcells _ Hvalid) as [Hd _]. fold destRead in Hd.
      assert (Hz : (DIFF_FAC_SMOOTHING cfg * (idepth destRead - idepth destRead)
                    * (idepth destRead - idepth destRead) == 0)%Q) by ring.
      rewrite Hz in Eincons. lra. }
    destruct (removeOcclusions && _); simpl; (split; [lra |]);
      intros Hx0 Hy0; exfalso; apply Hnot; split; assumption. }
  simpl.
  assert (Hvc : (0 <= inject_Z (validity_counter source))%Q).
  { change 0%Q with (inject_Z 0). rewrite <- Zle_Qle. exact Hsvc. }
  split; [lra |].
  intros Hx0 Hy0. rewrite (Hcentre Hx0 Hy0). lra.
Qed.

Lemma smoothWindow_valSum (removeOcclusions : bool) (dm : DepthMap) (idx : Z) :
  (forall j, isValid (zget noHypothesis (otherDepthMap dm) j) = true ->
     (0 < idepth_var (zget noHypothesis (otherDepthMap dm) j))%Q
     /\ 0 <= validity_counter (zget noHypothesis (otherDepthMap dm) j)) ->
  isValid (zget noHypothesis (otherDepthMap dm) idx) = true ->
  (inject_Z (validity_counter (zget noHypothesis (otherDepthMap dm) idx))
   <= acc_val_sum (smoothWindow removeOcclusions dm idx))%Q.
Proof.
  intros Hcells Hvalid.
  set (c := inject_Z (validity_counter (zget noHypothesis (otherDepthMap dm) idx))).
  pose (Inv := fun (k : Z) (acc : SmoothAcc) =>
                 (0 <= acc_val_sum acc)%Q
                 /\ (0 < k -> (c <= acc_val_sum acc)%Q)).
  assert (Hinv : Inv (2 + 1) (smoothWindow removeOcclusions dm idx)).
  { unfold smoothWindow. cbv zeta.
    apply (for_range_invariant Inv); unfold Inv.
    - lia.
    - simpl. split; [lra | lia].
    - intros dx acc Hdx [Hacc0 Haccc].
      pose (Inv2 := fun (k : Z) (a : SmoothAcc) =>
                      (0 <= acc_val_sum a)%Q
                      /\ (0 < dx \/ (dx = 0 /\ 0 < k) -> (c <= acc_val_sum a)%Q)).
      assert (Hin : Inv2 (2 + 1)
                      (for_range (- (2)) (2 + 1)
                         (smoothAccumulate removeOcclusions dm idx dx) acc)).
      { apply (for_range_invariant Inv2); unfold Inv2.
        - lia.
        - split; [exact Hacc0 |]. intros [H | [_ H]]; [apply Haccc; exact H | lia].
        - intros dy a Hdy [Ha0 Hac].
          destruct (smoothAccumulate_valSum removeOcclusions dm idx dx dy a
                      Hcells Hvalid) as [Hmono Hcentre].
          split; [lra |].
          intros Hcase.
          destruct (Z.eq_dec dx 0) as [Hx0 | Hx0].
          + destruct (Z.eq_dec dy 0) as [Hy0 | Hy0].
            * specialize (Hcentre Hx0 Hy0). fold c in Hcentre. lra.
            * assert (Hprev : (c <= acc_val_sum a)%Q) by (apply Hac; lia). lra.
          + assert (Hprev : (c <= acc_val_sum a)%Q) by (apply Hac; lia). lra. }
      unfold Inv2 in Hin. destruct Hin as [Hin0 Hinc].
      split; [exact Hin0 |]. intros Hk. apply Hinc. lia. }
  unfold Inv in Hinv. apply Hinv. lia.
Qed.

(** The smoothing of a valid cell whose window has enough validity, without
    occlusion removal. *)
Lemma regularizePixel_kept (validityTH : Z) (y : Z) (dm : DepthMap) (x : Z) :
  let idx := x + y * width dm in
  let dest := zget noHypothesis (currentDepthMap dm) idx in
  let acc := smoothWindow false dm idx in
  0 <= idx < Z.of_nat (length (currentDepthMap dm)) ->
  isValid (zget noHypothesis (otherDepthMap dm) idx) = true ->
  (inject_Z validityTH <= acc_val_sum acc)%Q ->
  zget noHypothesis (currentDepthMap (regularizePixel false validityTH y dm x)) idx
  = set_idepth_var_smoothed (1 / acc_sumIvar acc)%Q
      (set_idepth_smoothed (UNZERO (acc_sum acc / acc_sumIvar acc)) dest).
Proof.
  intros idx dest acc Hidx Hvalid Hsum. unfold regularizePixel.
  fold idx. fold dest. fold acc. rewrite Hvalid. simpl negb. cbv iota.
  rewrite (proj2 (Qltb_false _ _) Hsum). simpl andb. cbv iota.
  unfold storeCurrent. cbn [currentDepthMap set_currentDepthMap].
  apply zget_zset_eq. exact Hidx.
Qed.

(** X25.  The regularizer without occlusion removal keeps every hypothesis
    that is strong enough on its own: at a pixel visited by the smoothing
    loops, a valid cell whose validity counter is at least [validityTH]
    is still valid after [regularizeDepthMap(false, validityTH)], provided
    every valid cell of the grid has a positive variance and a validity
    counter that is not negative. *)
Theorem regularizeDepthMap_keeps_strong_hypothesis (validityTH : Z) (dm : DepthMap)
  (x y : Z) :
  let idx := x + y * width dm in
  let cell := zget noHypothesis (currentDepthMap dm) idx in
  let cell' :=
    zget noHypothesis (currentDepthMap (regularizeDepthMap false validityTH dm)) idx in
  height dm * width dm <= Z.of_nat (length (currentDepthMap dm)) ->
  2 <= x < width dm - 2 ->
  2 <= y < height dm - 2 ->
  (forall j, isValid (zget noHypothesis (currentDepthMap dm) j) = true ->
     (0 < idepth_var (zget noHypothesis (currentDepthMap dm) j))%Q
     /\ 0 <= validity_counter (zget noHypothesis (currentDepthMap dm) j)) ->
  isValid cell = true ->
  validityTH <= validity_counter cell ->
  isValid cell' = true.
Proof.
  intros idx cell cell' Hlen Hx Hy Hcells Hvalid Hstrong.
  set (dm0 := set_otherDepthMap (currentDepthMap dm) dm).
  assert (Hcell : cell'
                  = zget noHypothesis
                      (currentDepthMap (regularizePixel false validityTH y dm0 x)) idx).
  { apply regularizeDepthMap_pixel; assumption. }
  assert (Hother : zget noHypothesis (otherDepthMap dm0) idx = cell) by reflexivity.
  pose proof (smoothWindow_valSum false dm0 idx Hcells) as Hsum.
  rewrite Hother in Hsum. specialize (Hsum Hvalid).
  assert (Hth : (inject_Z validityTH <= acc_val_sum (smoothWindow false dm0 idx))%Q).
  { apply Qle_trans with (inject_Z (validity_counter cell)); [| exact Hsum].
    rewrite <- Zle_Qle. exact Hstrong. }
  pose proof (regularizePixel_kept validityTH y dm0 x) as Hkept.
  cbv zeta in Hkept.
  assert (Hidx : x + y * width dm0 = idx) by reflexivity.
  rewrite Hidx in Hkept.
  assert (Hcur : zget noHypothesis (currentDepthMap dm0) idx = cell) by reflexivity.
  rewrite Hother, Hcur in Hkept.
  rewrite Hcell, Hkept.
  - simpl. exact Hvalid.
  - change (length (currentDepthMap dm0)) with (length (currentDepthMap dm)).
    unfold idx. nia.
  - exact Hvalid.
  - exact Hth.
Qed.
End DepthMapCore.

(** ** The theorems at work on the example data *)

(** Closed comparisons of rationals and integers, by evaluation. *)
Ltac decide_by_evaluation :=
  vm_compute; first [reflexivity | discriminate | (intro; discriminate)].

(** The same for a range [a <= b < c]. *)
Ltac decide_closed := first [decide_by_evaluation | split; decide_by_evaluation].

Lemma exampleCell_invariant : hypothesisInvariant exampleSettings exampleCell.
Proof. intros _. repeat split; decide_by_evaluation. Qed.

Lemma exampleGrid_invariant : gridInvariant exampleSettings exampleGrid.
Proof.
  unfold exampleGrid.
  repeat (apply gridInvariant_zset; [| exact exampleCell_invariant]).
  apply gridInvariant_replicate.
Qed.

(** C1, counterexample.  The example grid satisfies the invariant; after
    the propagation to a key frame that lies ahead of the observed points
    (so that they are behind the new camera), the cell (3, 4) of the new
    grid is valid and its inverse depth is negative. *)
Lemma propagation_breaks_invariant :
  gridInvariant exampleSettings (currentDepthMap exampleDepthMap)
  /\ ~ hypothesisInvariant exampleSettings
         (zget noHypothesis
            (currentDepthMap
               (propagateDepth exampleSettings exampleInterpolate
                  exampleAheadKeyFrame exampleDepthMap)) 43).
Proof.
  split.
  - exact exampleGrid_invariant.
  - intros Hinv. destruct Hinv as (Hpos & _); [vm_compute; reflexivity |].
    revert Hpos. decide_by_evaluation.
Qed.

(** C1, witness: the invariant survives observation, hole filling and
    regularization of the example depth map. *)
Lemma hypothesisInvariant_preserved_witness :
  gridInvariant exampleSettings (currentDepthMap exampleDepthMap)
  /\ gridInvariant exampleSettings
       (currentDepthMap
          (observeDepth exampleSettings exampleSqrt exampleGradient exampleSearch 0
             exampleDepthMap))
  /\ gridInvariant exampleSettings
       (currentDepthMap (regularizeDepthMapFillHoles exampleSettings exampleDepthMap))
  /\ gridInvariant exampleSettings
       (currentDepthMap
          (regularizeDepthMap exampleSettings false 24 exampleDepthMap)).
Proof.
  split; [exact exampleGrid_invariant |].
  apply (hypothesisInvariant_preserved exampleSettings exampleSqrt exampleGradient
           exampleSearch 0 exampleDepthMap false 24).
  - decide_by_evaluation.
  - decide_by_evaluation.
  - decide_by_evaluation.
  - decide_by_evaluation.
  - decide_by_evaluation.
  - decide_by_evaluation.
  - decide_by_evaluation.
  - decide_by_evaluation.
  - intros coord a p b f Hin. simpl in Hin.
    destruct Hin as [<- | [<- | [<- | []]]];
      intros _; vm_compute; repeat split; first [reflexivity | discriminate].
  - exact exampleGrid_invariant.
Defined.

(** C2, counterexample.  The valid source cell (5, 4) has depth 2 and the
    new key frame lies 4 ahead: the warped point has [p.z = -2 <= 0], and
    yet a hypothesis is written to the destination cell (3, 4). *)
Lemma propagation_keeps_point_behind_camera :
  let source := zget noHypothesis (currentDepthMap exampleDepthMap) 45 in
  let pn := fst (fst (fst (warpPixel exampleDepthMap exampleAheadKeyFrame source 5 4))) in
  let other := replicate 100 noHypothesis in
  isValid source = true
  /\ (snd pn <= 0)%Q
  /\ isValid (zget noHypothesis other 43) = false
  /\ isValid
       (zget noHypothesis
          (propagatePixel exampleSettings exampleInterpolate exampleDepthMap
             exampleAheadKeyFrame 4 other 5) 43) = true.
Proof. repeat split; decide_by_evaluation. Qed.

(** C2, witness: a new key frame far to the side, the projection of the
    source cell (5, 4) leaves the image and nothing is written. *)
Lemma propagatePixel_outside_image_witness :
  isValid (zget noHypothesis (currentDepthMap exampleDepthMap) 45) = true
  /\ propagatePixel exampleSettings exampleInterpolate exampleDepthMap
       exampleSideKeyFrame 4 (replicate 100 noHypothesis) 5
     = replicate 100 noHypothesis.
Proof.
  split; [reflexivity |].
  apply (propagatePixel_outside_image exampleSettings exampleInterpolate
           exampleDepthMap exampleSideKeyFrame 4 (replicate 100 noHypothesis) 5).
  - reflexivity.
  - intros (_ & _ & Hu & _). revert Hu. decide_by_evaluation.
Defined.

(** C3, witness: the update of the example cell (5, 4) by a stereo result
    of inverse depth 1/2. *)
Lemma observeDepthUpdate_success_kalman_witness :
  let dm' :=
    fst (observeDepthUpdate exampleSettings exampleSqrt exampleGradient exampleSearch 0
           exampleDepthMap examplePixel 45 (maxGradients exampleKeyFrame)) in
  (0 <= error (updateStereo exampleSettings exampleSqrt exampleGradient exampleSearch 0
                 exampleDepthMap examplePixel exampleCell exampleReferenceFrame))%Q
  /\ validity_counter (zget noHypothesis (currentDepthMap dm') 45) = 25.
Proof.
  split; [decide_by_evaluation |].
  unshelve epose proof
    (observeDepthUpdate_success_kalman exampleSettings exampleSqrt
       exampleGradient exampleSearch 0 exampleDepthMap examplePixel 45
       (maxGradients exampleKeyFrame) exampleReferenceFrame _ _ _ _ _) as Hthm;
    [decide_closed .. |].
  destruct Hthm as (_ & _ & _ & _ & Hvc & _). rewrite Hvc. reflexivity.
Defined.

(** C4, counterexample.  The stereo call on the example cell (5, 4) returns
    -2 (no clear winner); the inflated variance 0.11 does not exceed
    [MAX_VAR], and the blacklist counter of the cell is not decremented. *)
Lemma bad_match_keeps_blacklist :
  let dm' :=
    fst (observeDepthUpdate exampleSettings exampleSqrt exampleGradient
           exampleSearchUnclear 0 exampleDepthMap examplePixel 45
           (maxGradients exampleKeyFrame)) in
  let target := zget noHypothesis (currentDepthMap exampleDepthMap) 45 in
  let target' := zget noHypothesis (currentDepthMap dm') 45 in
  (error (updateStereo exampleSettings exampleSqrt exampleGradient exampleSearchUnclear
            0 exampleDepthMap examplePixel target exampleReferenceFrame) == -2)%Q
  /\ blacklisted target' = blacklisted target
  /\ blacklisted target' <> blacklisted target - 1.
Proof. repeat split; decide_by_evaluation. Qed.

(** C4, witness: the same call through the theorem. *)
Lemma observeDepthUpdate_bad_match_witness :
  let dm' :=
    fst (observeDepthUpdate exampleSettings exampleSqrt exampleGradient
           exampleSearchUnclear 0 exampleDepthMap examplePixel 45
           (maxGradients exampleKeyFrame)) in
  (error (updateStereo exampleSettings exampleSqrt exampleGradient exampleSearchUnclear
            0 exampleDepthMap examplePixel exampleCell exampleReferenceFrame) == -2)%Q
  /\ validity_counter (zget noHypothesis (currentDepthMap dm') 45) = 15.
Proof.
  split; [decide_by_evaluation |].
  unshelve epose proof
    (observeDepthUpdate_bad_match exampleSettings exampleSqrt
       exampleGradient exampleSearchUnclear 0 exampleDepthMap examplePixel 45
       (maxGradients exampleKeyFrame) exampleReferenceFrame _ _ _ _) as Hthm;
    [decide_closed .. |].
  destruct Hthm as (_ & Hvc & _). rewrite Hvc. reflexivity.
Defined.

(** C5, counterexample.  A successful observation with epipolar length
    1.00015 (below half of [MIN_EPL_LENGTH_CROP = 3], odd parity), no frame
    tracked or mapped yet, reference frame 1: the code sets the next stereo
    frame to [1 + (3 + 1) * 3 = 13], the claim gives [1 + 3 * 3 + 1 = 11]. *)
Lemma skip_jitter_is_tripled :
  let dm' :=
    fst (observeDepthUpdate exampleSettings exampleSqrt exampleGradient exampleSearch 0
           exampleDepthMap examplePixel 45 (maxGradients exampleKeyFrame)) in
  let r :=
    updateStereo exampleSettings exampleSqrt exampleGradient exampleSearch 0
      exampleDepthMap examplePixel exampleCell exampleReferenceFrame in
  (0 <= error r)%Q
  /\ (result_eplLength r < MIN_EPL_LENGTH_CROP exampleSettings)%Q
  /\ nextStereoFrameMinID (zget noHypothesis (currentDepthMap dm') 45) = 13
  /\ float_to_int
       (inject_Z (frame_id exampleReferenceFrame)
        + claimedSkipIncrement exampleSettings
            (numFramesTrackedOnThis exampleKeyFrame)
            (numMappedOnThis exampleKeyFrame) (result_eplLength r)) = 11.
Proof. repeat split; decide_by_evaluation. Qed.

(** C5, witness: the same observation through the theorem. *)
Lemma observeDepthUpdate_success_skip_witness :
  let dm' :=
    fst (observeDepthUpdate exampleSettings exampleSqrt exampleGradient exampleSearch 0
           exampleDepthMap examplePixel 45 (maxGradients exampleKeyFrame)) in
  (0 <= error (updateStereo exampleSettings exampleSqrt exampleGradient exampleSearch 0
                 exampleDepthMap examplePixel exampleCell exampleReferenceFrame))%Q
  /\ nextStereoFrameMinID (zget noHypothesis (currentDepthMap dm') 45) = 13.
Proof.
  split; [decide_by_evaluation |].
  unshelve epose proof
    (observeDepthUpdate_success_skip exampleSettings exampleSqrt
       exampleGradient exampleSearch 0 exampleDepthMap examplePixel 45
       (maxGradients exampleKeyFrame) exampleReferenceFrame _ _ _ _ _) as Hthm;
    [decide_closed .. |].
  destruct Hthm as (Hskip & _). rewrite Hskip by decide_by_evaluation.
  decide_by_evaluation.
Defined.

(** C6, counterexample.  The cell (4, 4) of this depth map lies well inside
    the image (three pixels and more from every edge), is invalid and not
    blacklisted, its max-gradient is 50 and the validity sum of its 5x5
    window is 60, above [VAL_SUM_MIN_FOR_CREATE = 30].  The valid cells of
    the window are (3, 4), of inverse depth -2, and (5, 4), of inverse depth
    2, both of variance 1/10: the variance-weighted average is 0.  Hole
    filling creates a hypothesis whose inverse depth is [UNZERO_EPS], not
    the average. *)
Lemma fill_holes_lifts_zero_average :
  let dest := zget noHypothesis (currentDepthMap exampleMixedDepthMap) 44 in
  let dest' :=
    zget noHypothesis
      (currentDepthMap (regularizeDepthMapFillHoles exampleSettings exampleMixedDepthMap))
      44 in
  let average :=
    weightedIdepth (window5x5 (currentDepthMap exampleMixedDepthMap) 10 4 4) in
  isValid dest = false
  /\ (MIN_ABS_GRAD_DECREASE exampleSettings
      <= zget 0 (maxGradients (activeKeyFrame exampleMixedDepthMap)) 44)%Q
  /\ MIN_BLACKLIST exampleSettings <= blacklisted dest
  /\ VAL_SUM_MIN_FOR_CREATE exampleSettings
     < windowValiditySum (currentDepthMap exampleMixedDepthMap) 10 4 4
  /\ isValid dest' = true
  /\ (average == 0)%Q
  /\ (idepth dest' == UNZERO_EPS exampleSettings)%Q
  /\ ~ (idepth dest' == average)%Q.
Proof. repeat split; decide_by_evaluation. Qed.

(** C6, witness: hole filling creates a hypothesis at the cell (7, 4) and
    leaves the cell (5, 2), which the loops do not visit, as it is. *)
Lemma regularizeDepthMapFillHoles_creates_witness :
  isValid (zget noHypothesis (currentDepthMap exampleDepthMap) 47) = false
  /\ validity_counter
       (zget noHypothesis
          (currentDepthMap (regularizeDepthMapFillHoles exampleSettings exampleDepthMap))
          47) = 0
  /\ zget noHypothesis
       (currentDepthMap (regularizeDepthMapFillHoles exampleSettings exampleDepthMap))
       25
     = zget noHypothesis (currentDepthMap exampleDepthMap) 25.
Proof.
  split; [reflexivity |].
  pose proof (regularizeDepthMapFillHoles_creates exampleSettings exampleDepthMap 7 4)
    as Hthm.
  cbv zeta in Hthm. destruct Hthm as [Hpixel Hother].
  split.
  - unshelve epose proof (Hpixel _ _ _ _ _ _) as Hcell; [decide_closed .. |].
    destruct Hcell as (Hcreate & _).
    destruct Hcreate as (_ & _ & _ & Hvc);
      [left; split; decide_by_evaluation | exact Hvc].
  - apply Hother. intros x' y' Hx' Hy' Heq.
    change (width exampleDepthMap) with 10 in *. lia.
Defined.

(** C7, counterexample.  The pixel (7, 4) of the 10x10 example is a border
    pixel of the claim ([x >= W - 3]); it is invalid before hole filling
    and valid after it. *)
Lemma fill_holes_marks_border_pixel :
  width exampleDepthMap - 3 <= 7
  /\ isValid (zget noHypothesis (currentDepthMap exampleDepthMap) 47) = false
  /\ isValid
       (zget noHypothesis
          (currentDepthMap (regularizeDepthMapFillHoles exampleSettings exampleDepthMap))
          47) = true.
Proof. repeat split; decide_by_evaluation. Qed.

(** C7, witness: the border pixel (1, 4) of the example. *)
Lemma border_never_marked_valid_witness :
  inBorder 2 10 10 1 4
  /\ isValid
       (zget noHypothesis
          (currentDepthMap
             (propagateDepth exampleSettings exampleInterpolate exampleSameKeyFrame
                exampleDepthMap)) 41) = false.
Proof.
  assert (Hborder : inBorder 2 10 10 1 4) by (left; lia).
  split; [exact Hborder |].
  unshelve epose proof
    (border_never_marked_valid exampleSettings exampleSqrt exampleInterpolate
       exampleGradient exampleSearch 0 exampleDepthMap exampleSameKeyFrame
       false 24 1 4 _ Hborder) as Hthm;
    [decide_closed |].
  exact (proj2 Hthm).
Defined.

(** C8, witness: a scan that ends on a match of inverse depth -1/2. *)
Lemma doLineStereo_negative_idepth_witness :
  (fst (bestMatchDepth exampleDepthMap exampleReferenceFrame (exampleScanAt 4 4 1000)
          (exampleMatchAt 4)) < 0)%Q
  /\ error (doLineStereo exampleSettings exampleSqrt exampleGradient
              exampleSearchNegative exampleDepthMap examplePixel 0 1 20
              exampleReferenceFrame exampleOut) = 10%Q
  /\ error (doLineStereo exampleSettingsPositive exampleSqrt exampleGradient
              exampleSearchNegative exampleDepthMap examplePixel 0 1 20
              exampleReferenceFrame exampleOut) = (-2)%Q.
Proof.
  split; [decide_by_evaluation |]. split.
  - unshelve epose proof
      (doLineStereo_negative_idepth exampleSettings exampleSqrt
         exampleGradient exampleSearchNegative exampleDepthMap examplePixel 0 1 20
         exampleReferenceFrame exampleOut (exampleScanAt 4 4 1000)
         (exampleMatchAt 4) _ _ _) as Hthm;
      [decide_closed .. |].
    destruct Hthm as (_ & Hallow).
    destruct Hallow as (Herr & _); [reflexivity | exact Herr].
  - unshelve epose proof
      (doLineStereo_negative_idepth exampleSettingsPositive exampleSqrt
         exampleGradient exampleSearchNegative exampleDepthMap examplePixel 0 1 20
         exampleReferenceFrame exampleOut (exampleScanAt 4 4 1000)
         (exampleMatchAt 4) _ _ _) as Hthm;
      [decide_closed .. |].
    destruct Hthm as (Hreject & _).
    destruct Hreject as (Herr & _); [reflexivity | exact Herr].
Defined.



(** C10, witness: the window of the pixel (5, 4) of the example. *)
Lemma integral_window_is_direct_sum_witness :
  3 <= 5 < width exampleDepthMap - 2
  /\ integralWindow (buildRegIntegralBuffer exampleDepthMap) 45
     = windowValiditySum (currentDepthMap exampleDepthMap) 10 5 4.
Proof.
  split; [split; decide_by_evaluation |].
  unshelve epose proof (integral_window_is_direct_sum exampleDepthMap 5 4 _ _ _)
    as Hthm;
    [decide_closed .. |].
  exact (proj2 Hthm).
Defined.

(** ** The further theorems at work on the example data *)

(** A property of cells that holds of the empty cell and of the cells
    written holds of all the cells of a grid built from these. *)
Lemma cells_replicate (P : DepthMapPixelHypothesis -> Prop) (n : nat) :
  P noHypothesis -> forall j, P (zget noHypothesis (replicate n noHypothesis) j).
Proof.
  intros H0 j. unfold zget. destruct (Z.ltb j 0); [exact H0 |].
  destruct (replicate n noHypothesis !! Z.to_nat j) as [h |] eqn:E; simpl.
  - apply lookup_replicate in E. destruct E as [-> _]. exact H0.
  - exact H0.
Qed.

Lemma cells_zset (P : DepthMapPixelHypothesis -> Prop)
  (g : list DepthMapPixelHypothesis) (idx : Z) (h : DepthMapPixelHypothesis) :
  (forall j, P (zget noHypothesis g j)) -> P h ->
  forall j, P (zget noHypothesis (zset g idx h) j).
Proof.
  intros Hg Hh j.
  destruct (zget_zset_cases noHypothesis g idx j h) as [-> | ->]; [exact Hh | apply Hg].
Qed.

(** Every cell of the example grid is the example cell or the empty cell. *)
Lemma exampleGrid_cells (P : DepthMapPixelHypothesis -> Prop) :
  P noHypothesis -> P exampleCell ->
  forall j, P (zget noHypothesis exampleGrid j).
Proof.
  intros H0 H1. unfold exampleGrid.
  repeat (apply cells_zset; [| exact H1]).
  apply cells_replicate. exact H0.
Qed.

Lemma exampleGradients_nonneg (idx : Z) :
  (0 <= zget 0 (maxGradients exampleKeyFrame) idx)%Q.
Proof.
  unfold zget. destruct (Z.ltb idx 0); [discriminate |].
  destruct (maxGradients exampleKeyFrame !! Z.to_nat idx) as [q |] eqn:E; simpl.
  - apply lookup_replicate in E. destruct E as [-> _]. discriminate.
  - discriminate.
Qed.

Lemma exampleGrid_varianceCapped : varianceCapped exampleSettings exampleGrid.
Proof.
  intros idx. pattern (zget noHypothesis exampleGrid idx). apply exampleGrid_cells.
  - discriminate.
  - intros _. decide_by_evaluation.
Qed.

Lemma exampleGrid_validityNonNegative : validityNonNegative exampleGrid.
Proof.
  intros idx. pattern (zget noHypothesis exampleGrid idx). apply exampleGrid_cells.
  - discriminate.
  - intros _. decide_by_evaluation.
Qed.

Lemma exampleGrid_half (j : Z) :
  isValid (zget noHypothesis exampleGrid j) = true ->
  (0 < idepth_var (zget noHypothesis exampleGrid j))%Q
  /\ (1 # 2 <= idepth (zget noHypothesis exampleGrid j))%Q
  /\ (idepth (zget noHypothesis exampleGrid j) <= 1 # 2)%Q.
Proof.
  pattern (zget noHypothesis exampleGrid j). apply exampleGrid_cells.
  - discriminate.
  - intros _. repeat split; decide_by_evaluation.
Qed.

(** X1, witness: the rows 3..4 and 5..6 of the example depth map, in both
    orders. *)
Lemma observeDepthRow_blocks_commute_witness :
  observeDepthRow exampleSettings exampleSqrt exampleGradient exampleSearch 0 3 5
    (observeDepthRow exampleSettings exampleSqrt exampleGradient exampleSearch 0 5 7
       exampleDepthMap)
  = observeDepthRow exampleSettings exampleSqrt exampleGradient exampleSearch 0 5 7
      (observeDepthRow exampleSettings exampleSqrt exampleGradient exampleSearch 0 3 5
         exampleDepthMap).
Proof.
  unshelve epose proof
    (observeDepthRow_blocks_commute exampleSettings exampleSqrt exampleGradient
       exampleSearch 0 3 5 7 exampleDepthMap _) as Hthm;
    [lia |].
  destruct Hthm as [H1 H2]. rewrite H1, H2. reflexivity.
Defined.

(** X2, witness: the rows 2..4 and 5..7 of the example depth map. *)
Lemma regularize_rows_blocks_commute_witness :
  regularizeDepthMapFillHolesRow exampleSettings 3 5
    (regularizeDepthMapFillHolesRow exampleSettings 5 8 exampleDepthMap)
  = regularizeDepthMapFillHolesRow exampleSettings 3 8 exampleDepthMap.
Proof.
  unshelve epose proof
    (regularize_rows_blocks_commute exampleSettings false 24 3 5 8 exampleDepthMap _)
    as Hthm;
    [lia |].
  exact (proj1 (proj2 Hthm)).
Defined.

(** X3, witness: on the key frame without texture, the invalid cell (4, 4)
    is left as it is. *)
Lemma observeDepth_gate_keeps_cell_witness :
  zget noHypothesis
    (currentDepthMap
       (observeDepth exampleSettings exampleSqrt exampleGradient exampleSearch 0
          exampleFlatDepthMap)) 44
  = noHypothesis.
Proof.
  unshelve epose proof
    (observeDepth_gate_keeps_cell exampleSettings exampleSqrt exampleGradient
       exampleSearch 0 exampleFlatDepthMap 44 _ _) as Hthm.
  - left. reflexivity.
  - left. decide_by_evaluation.
  - exact Hthm.
Defined.

(** X4, witness: on the key frame without texture, the valid cell (5, 4) is
    invalidated. *)
Lemma observeDepth_low_gradient_invalidates_witness :
  isValid (zget noHypothesis (currentDepthMap exampleFlatDepthMap) 45) = true
  /\ zget noHypothesis
       (currentDepthMap
          (observeDepth exampleSettings exampleSqrt exampleGradient exampleSearch 0
             exampleFlatDepthMap)) 45
     = set_isValid false exampleCell.
Proof.
  split; [reflexivity |].
  unshelve epose proof
    (observeDepth_low_gradient_invalidates exampleSettings exampleSqrt
       exampleGradient exampleSearch 0 exampleFlatDepthMap 5 4 _ _ _ _ _) as Hthm;
    [decide_closed .. |].
  exact Hthm.
Defined.

(** X5, witness: the cap on the variance through the mapping of the example
    depth map. *)
Lemma variance_cap_preserved_witness :
  varianceCapped exampleSettings
    (currentDepthMap
       (updateKeyframe exampleSettings exampleSqrt exampleGradient exampleSearch 0
          [exampleReferenceFrame] exampleDepthMap)).
Proof.
  unshelve epose proof
    (variance_cap_preserved exampleSettings exampleSqrt exampleGradient exampleSearch 0
       [exampleReferenceFrame] exampleDepthMap _ _) as Hthm.
  - decide_by_evaluation.
  - exact exampleGrid_varianceCapped.
  - exact (proj1 Hthm).
Defined.

(** X6, witness: the validity counters through the mapping of the example
    depth map. *)
Lemma validity_counter_never_negative_witness :
  validityNonNegative
    (currentDepthMap
       (updateKeyframe exampleSettings exampleSqrt exampleGradient exampleSearch 0
          [exampleReferenceFrame] exampleDepthMap)).
Proof.
  unshelve epose proof
    (validity_counter_never_negative exampleSettings exampleSqrt exampleGradient
       exampleSearch 0 [exampleReferenceFrame] exampleDepthMap _ _ _ _ _ _) as Hthm.
  - decide_by_evaluation.
  - decide_by_evaluation.
  - decide_by_evaluation.
  - decide_by_evaluation.
  - exact exampleGradients_nonneg.
  - exact exampleGrid_validityNonNegative.
  - exact (proj1 Hthm).
Defined.

(** X9, witness: the hypothesis that hole filling creates at the cell
    (7, 4) of the example depth map, whose valid neighbours all have the
    inverse depth 1/2. *)
Lemma fillHoles_idepth_between_neighbours_witness :
  (idepth
     (zget noHypothesis
        (currentDepthMap (regularizeDepthMapFillHoles exampleSettings exampleDepthMap))
        47) == 1 # 2)%Q.
Proof.
  unshelve epose proof
    (fillHoles_idepth_between_neighbours exampleSettings exampleDepthMap 7 4
       (1 # 2) (1 # 2) _ _ _ _ _ _ _ _ _ _ _) as Hthm.
  - decide_by_evaluation.
  - decide_by_evaluation.
  - decide_closed.
  - decide_closed.
  - decide_by_evaluation.
  - decide_by_evaluation.
  - decide_by_evaluation.
  - decide_by_evaluation.
  - intros h Hin. apply window5x5_from_grid in Hin. destruct Hin as [j ->].
    exact (exampleGrid_half j).
  - reflexivity.
  - decide_by_evaluation.
  - destruct Hthm as [Hlo Hhi]. apply Qle_antisym; assumption.
Defined.

(** X10, witness: the smoothed variance of the cell (5, 4) of the example
    depth map. *)
Lemma regularizeDepthMap_smoothed_variance_witness :
  (idepth_var_smoothed
     (zget noHypothesis
        (currentDepthMap (regularizeDepthMap exampleSettings false 24 exampleDepthMap))
        45) <= 1 # 10)%Q.
Proof.
  unshelve epose proof
    (regularizeDepthMap_smoothed_variance exampleSettings false 24 exampleDepthMap 5 4
       _ _ _ _ _ _) as Hthm.
  - decide_by_evaluation.
  - decide_closed.
  - decide_closed.
  - decide_by_evaluation.
  - intros j Hj. exact (proj1 (exampleGrid_half j Hj)).
  - decide_by_evaluation.
  - exact (proj2 Hthm).
Defined.

(** X11, witness: the example cell (5, 4), of inverse depth 1/2, propagated
    onto a destination that holds a hypothesis of inverse depth 2: the
    destination is kept. *)
Lemma propagatePixel_occlusion_witness :
  zget noHypothesis
    (propagatePixel exampleSettings exampleInterpolate exampleDepthMap
       exampleSameKeyFrame 4 (zset (replicate 100 noHypothesis) 45 exampleNearCell) 5)
    45
  = exampleNearCell.
Proof.
  unshelve epose proof
    (propagatePixel_occlusion exampleSettings exampleInterpolate exampleDepthMap
       exampleSameKeyFrame 4 (zset (replicate 100 noHypothesis) 45 exampleNearCell) 5
       _ _ _ _ _ _) as Hthm;
    [decide_by_evaluation .. |].
  destruct Hthm as [Hfar _]. apply Hfar. decide_by_evaluation.
Defined.

(** X12, witness: the example cell (5, 4) propagated onto a destination
    that holds the same hypothesis: the validity counters add up to 40. *)
Lemma propagatePixel_fusion_witness :
  validity_counter
    (zget noHypothesis
       (propagatePixel exampleSettings exampleInterpolate exampleDepthMap
          exampleSameKeyFrame 4 (zset (replicate 100 noHypothesis) 45 exampleCell) 5)
       45)
  = 40.
Proof.
  unshelve epose proof
    (propagatePixel_fusion exampleSettings exampleInterpolate exampleDepthMap
       exampleSameKeyFrame 4 (zset (replicate 100 noHypothesis) 45 exampleCell) 5
       _ _ _ _ _ _ _ _) as Hthm;
    [decide_by_evaluation .. |].
  destruct Hthm as (_ & _ & _ & _ & _ & _ & Hvc).
  exact (eq_trans Hvc eq_refl).
Defined.

(** X14, witness: a scan whose refined match lies a quarter of a step
    before the best sample. *)
Lemma refineMatch_within_one_step_witness :
  exists m,
    refineMatch exampleSettings exampleSqrt exampleScanSubpixel = inr m
    /\ (refined_point_ref m = argmin_point_ref exampleScanSubpixel
        \/ exists d : Q,
             (0 <= d)%Q /\ (d <= 1)%Q
             /\ (refined_point_ref m
                 = (fst (argmin_point_ref exampleScanSubpixel)
                    - d * fst (ref_search_step exampleScanSubpixel),
                    snd (argmin_point_ref exampleScanSubpixel)
                    - d * snd (ref_search_step exampleScanSubpixel))%Q
                 \/ refined_point_ref m
                    = (fst (argmin_point_ref exampleScanSubpixel)
                       + d * fst (ref_search_step exampleScanSubpixel),
                       snd (argmin_point_ref exampleScanSubpixel)
                       + d * snd (ref_search_step exampleScanSubpixel))%Q)).
Proof.
  eexists. split.
  - vm_compute. reflexivity.
  - apply (refineMatch_within_one_step exampleSettings exampleSqrt exampleScanSubpixel).
    vm_compute. reflexivity.
Defined.

(** X15, witness: the variance of the stereo result of the examples. *)
Lemma doLineStereo_variance_not_negative_witness :
  (0 <= result_var
          (doLineStereo exampleSettings exampleSqrt exampleGradient exampleSearch
             exampleDepthMap examplePixel 0 1 20 exampleReferenceFrame exampleOut))%Q.
Proof.
  unshelve epose proof
    (doLineStereo_variance_not_negative exampleSettings exampleSqrt exampleGradient
       exampleSearch exampleDepthMap examplePixel 0 1 20 exampleReferenceFrame
       exampleOut (exampleScanAt 6 4 1000) (exampleMatchAt 6) _ _ _ _ _) as Hthm.
  - reflexivity.
  - decide_by_evaluation.
  - left. reflexivity.
  - decide_by_evaluation.
  - decide_by_evaluation.
  - destruct Hthm as (_ & _ & Hvar & _). exact Hvar.
Defined.

(** X16, witness: the descriptor of the pixel (5, 4) with step (1, 0) in a
    10x10 image. *)
Lemma search_range_covers_line_samples_witness :
  is_in_image_range (5 + 1 * 1, 4 + 1 * 0)%Q (10, 10) 2 = true.
Proof.
  apply (search_range_covers_line_samples (5, 4)%Q (1, 0)%Q (10, 10)).
  - decide_by_evaluation.
  - right. right. right. left. reflexivity.
Defined.

(** X17, witness: the table for the frames 1 and 3 has three entries. *)
Lemma referenceFrameByID_lookup_witness :
  Z.of_nat
    (length
       (referenceFrameByID
          (setReferenceFrames [exampleReferenceFrame; exampleLaterFrame]
             exampleDepthMap)))
  = 3.
Proof.
  unshelve epose proof
    (referenceFrameByID_lookup [exampleReferenceFrame; exampleLaterFrame]
       exampleDepthMap _ _) as Hthm.
  - discriminate.
  - simpl. split; [lia | exact I].
  - destruct Hthm as (_ & Hlen & _). exact Hlen.
Defined.

(** X18, witness: a cell that waits for frame 2 is observed in frame 3 when
    the frames 1 and 3 are given. *)
Lemma updateReferenceFrame_respects_skip_witness :
  exists f,
    updateReferenceFrame
      (setReferenceFrames [exampleReferenceFrame; exampleLaterFrame] exampleDepthMap)
      (set_nextStereoFrameMinID 2 exampleCell) = Some f
    /\ oldestNotBefore [exampleReferenceFrame; exampleLaterFrame] 2 f.
Proof.
  unshelve epose proof
    (updateReferenceFrame_respects_skip [exampleReferenceFrame; exampleLaterFrame]
       exampleDepthMap (set_nextStereoFrameMinID 2 exampleCell) _ _ _ _) as Hthm.
  - discriminate.
  - simpl. split; [lia | exact I].
  - reflexivity.
  - simpl. lia.
  - destruct Hthm as [_ Hsel]. apply Hsel. simpl. lia.
Defined.

(** X19, witness: a key frame persisted with the variance -2 at every
    pixel comes back blacklisted. *)
Lemma setFromExistingKF_loads_witness :
  blacklisted
    (zget noHypothesis
       (currentDepthMap
          (setFromExistingKF exampleSettings exampleKeyFrame
             (replicate 100 (1 # 2)%Q) (replicate 100 (-2)%Q) (replicate 100 20)
             exampleDepthMap)) 45)
  = -2.
Proof.
  unshelve epose proof
    (setFromExistingKF_loads exampleSettings exampleKeyFrame
       (replicate 100 (1 # 2)%Q) (replicate 100 (-2)%Q) (replicate 100 20)
       exampleDepthMap 5 4 _ _ _) as Hthm;
    [decide_closed .. |].
  destruct Hthm as [Hinvalid _].
  destruct Hinvalid as [_ Hb]; [decide_by_evaluation |].
  exact (eq_trans Hb eq_refl).
Defined.

(** X20, witness: the border cell (1, 4) of the example depth map. *)
Lemma mapping_leaves_border_untouched_witness :
  zget noHypothesis
    (currentDepthMap
       (updateKeyframe exampleSettings exampleSqrt exampleGradient exampleSearch 0
          [exampleReferenceFrame] exampleDepthMap)) 41
  = noHypothesis.
Proof.
  unshelve epose proof
    (mapping_leaves_border_untouched exampleSettings exampleSqrt exampleGradient
       exampleSearch 0 [exampleReferenceFrame] exampleDepthMap 1 4 _ _) as Hthm.
  - decide_closed.
  - left. reflexivity.
  - exact (proj1 Hthm).
Defined.

(** X21, witness: the prefix sum at (6, 5) of the example depth map covers
    the four valid cells. *)
Lemma buildRegIntegralBuffer_prefix_sums_witness :
  zget 0 (validityIntegralBuffer (buildRegIntegralBuffer exampleDepthMap)) 56 = 80.
Proof.
  unshelve epose proof (buildRegIntegralBuffer_prefix_sums exampleDepthMap 6 5 _ _ _)
    as Hthm;
    [decide_closed .. |].
  destruct Hthm as (Hsum & _). exact (eq_trans Hsum eq_refl).
Defined.

(** X22, witness: the smoothed inverse depth of the cell (5, 4) of the
    example depth map. *)
Lemma regularizeDepthMap_smoothed_idepth_in_range_witness :
  (idepth_smoothed
     (zget noHypothesis
        (currentDepthMap (regularizeDepthMap exampleSettings false 24 exampleDepthMap))
        45) == 1 # 2)%Q.
Proof.
  unshelve epose proof
    (regularizeDepthMap_smoothed_idepth_in_range exampleSettings false 24
       exampleDepthMap 5 4 (1 # 2) (1 # 2) _ _ _ _ _ _ _ _) as Hthm.
  - decide_by_evaluation.
  - decide_closed.
  - decide_closed.
  - decide_by_evaluation.
  - decide_by_evaluation.
  - decide_by_evaluation.
  - exact exampleGrid_half.
  - decide_by_evaluation.
  - destruct Hthm as [Hlo Hhi]. apply Qle_antisym; assumption.
Defined.

(** X23, witness: the smoothed inverse depth of the cell (5, 4) through the
    observation of the example depth map. *)
Lemma observeDepth_keeps_smoothed_witness :
  idepth_smoothed
    (zget noHypothesis
       (currentDepthMap
          (observeDepth exampleSettings exampleSqrt exampleGradient exampleSearch 0
             exampleDepthMap)) 45)
  = (1 # 2)%Q.
Proof.
  unshelve epose proof
    (observeDepth_keeps_smoothed exampleSettings exampleSqrt exampleGradient
       exampleSearch 0 exampleDepthMap 45 _) as Hthm.
  - reflexivity.
  - destruct Hthm as [Hs _]. rewrite Hs. reflexivity.
Defined.

(** X24, witness: the observation of the example depth map at the pixel
    (4, 4), which holds no hypothesis. *)
Lemma observeDepth_creates_witness :
  isValid (zget noHypothesis (currentDepthMap exampleDepthMap) 44) = false
  /\ validity_counter
       (zget noHypothesis
          (currentDepthMap
             (observeDepth exampleSettings exampleSqrt exampleGradient exampleSearch 0
                exampleDepthMap)) 44)
     = 5.
Proof.
  split; [reflexivity |].
  unshelve epose proof
    (observeDepth_creates exampleSettings exampleSqrt exampleGradient exampleSearch 0
       exampleDepthMap 4 4 _ _ _ _ _ _ _) as Hthm;
    [decide_closed .. |].
  destruct Hthm as [Hcreate _].
  unshelve epose proof (Hcreate _ _) as Hcell; [decide_by_evaluation .. |].
  exact (eq_trans (f_equal validity_counter Hcell) eq_refl).
Defined.

Lemma exampleGrid_sound (j : Z) :
  isValid (zget noHypothesis exampleGrid j) = true ->
  (0 < idepth_var (zget noHypothesis exampleGrid j))%Q
  /\ 0 <= validity_counter (zget noHypothesis exampleGrid j).
Proof.
  pattern (zget noHypothesis exampleGrid j). apply exampleGrid_cells.
  - discriminate.
  - intros _. split; decide_by_evaluation.
Qed.

(** X25, witness: the cell (5, 4) of the example depth map, of validity
    counter 20, under the threshold 15. *)
Lemma regularizeDepthMap_keeps_strong_hypothesis_witness :
  isValid
    (zget noHypothesis
       (currentDepthMap (regularizeDepthMap exampleSettings false 15 exampleDepthMap))
       45)
  = true.
Proof.
  unshelve epose proof
    (regularizeDepthMap_keeps_strong_hypothesis exampleSettings 15 exampleDepthMap 5 4
       _ _ _ _ _ _) as Hthm.
  - decide_by_evaluation.
  - decide_closed.
  - decide_closed.
  - exact exampleGrid_sound.
  - reflexivity.
  - decide_by_evaluation.
  - exact Hthm.
Defined.
